(** * KellyList: the two Anki export scripts, embedded and verified

    [kelly_to_anki.py] turns the Kelly word list into an Anki import file,
    [riksdagen_law_glossary_anki.py] does the same for the Riksdag glossary.
    Both are embedded below as functions over Python strings (lists of
    Unicode code points), a file system (the set of existing paths), the
    chunks handed to [write] and a log of the calls made to the outside
    world.  The outside world itself (dictionary fetch, translation, HTTP
    download, speech synthesis, the HTML parser) is a record of oracles. *)

From Stdlib Require Import String Ascii NArith List Lia Bool.
From stdpp Require Import base option list gmap.

Set Default Proof Using "Type".
Local Open Scope N_scope.
Local Open Scope list_scope.

(** ** Python strings *)

Module Text.

(** A [str] is a sequence of code points. *)
Definition char : Type := N.
Definition str : Type := list char.

Definition ch (a : ascii) : char := N_of_ascii a.

(** An ASCII literal of the source, as a [str]. *)
Definition lit (s : string) : str := map N_of_ascii (list_ascii_of_string s).

Definition char_eqb (a b : char) : bool := N.eqb a b.

Fixpoint str_eqb (a b : str) : bool :=
  match a, b with
  | [], [] => true
  | x :: a', y :: b' => char_eqb x y && str_eqb a' b'
  | _, _ => false
  end.

(** [c in chars] for a single character [c]. *)
Definition char_in (c : char) (chars : str) : bool := existsb (char_eqb c) chars.

Definition between (lo hi c : char) : bool := (lo <=? c) && (c <=? hi).

(** [str.isspace] of one code point: CPython's [_PyUnicode_IsWhitespace]. *)
Definition py_isspace (c : char) : bool :=
  between 9 13 c || between 28 32 c || char_eqb c 133 || char_eqb c 160
  || char_eqb c 5760 || between 8192 8202 c || char_eqb c 8232
  || char_eqb c 8233 || char_eqb c 8239 || char_eqb c 8287 || char_eqb c 12288.

(** The characters of the regular-expression class [A-Za-z0-9]. *)
Definition ascii_alnum (c : char) : bool :=
  between 48 57 c || between 65 90 c || between 97 122 c.

Definition is_ascii (c : char) : bool := c <? 128.

(** [str.isalnum] on Latin-1 (U+0000..U+00FF): letters, digits, and the
    characters with a numeric value (superscripts and vulgar fractions). *)
Definition latin1_alnum (c : char) : bool :=
  ascii_alnum c
  || char_eqb c 170 || char_eqb c 178 || char_eqb c 179 || char_eqb c 181
  || char_eqb c 185 || char_eqb c 186 || between 188 190 c
  || between 192 214 c || between 216 246 c || between 248 255 c.

(** The rest of the Python runtime is not part of the repository.  What
    [isalnum] answers beyond Latin-1, what [lower] does to a string that
    is not pure ASCII, and what [re.sub] makes of a replacement that
    holds a backslash (a template with escapes and group references) are
    taken as tables.  [expand_template repl] is [None] when [re.sub]
    raises on the template [repl]; otherwise it gives, for the text of a
    match, the text that replaces it. *)
Record Runtime : Type := {
  alnum_beyond_latin1 : char -> bool;
  lower_non_ascii : str -> str;
  expand_template : str -> option (str -> str)
}.

Definition py_isalnum (U : Runtime) (c : char) : bool :=
  if c <? 256 then latin1_alnum c else alnum_beyond_latin1 U c.

Definition ascii_lower (c : char) : char :=
  if between 65 90 c then c + 32 else c.

(** [s.lower()] *)
Definition py_lower (U : Runtime) (s : str) : str :=
  if forallb is_ascii s then map ascii_lower s else lower_non_ascii U s.

(** [s.lstrip(chars)], [s.rstrip(chars)], with [drop] the test for a
    character to be removed. *)
Fixpoint lstrip_with (drop : char -> bool) (s : str) : str :=
  match s with
  | [] => []
  | c :: s' => if drop c then lstrip_with drop s' else s
  end.

Definition rstrip_with (drop : char -> bool) (s : str) : str :=
  rev (lstrip_with drop (rev s)).

(** [s.strip()] *)
Definition strip (s : str) : str :=
  rstrip_with py_isspace (lstrip_with py_isspace s).

(** [s.rstrip(chars)] *)
Definition rstrip_chars (chars s : str) : str :=
  rstrip_with (fun c => char_in c chars) s.

(** [s.startswith(p)] *)
Fixpoint startswith (p s : str) : bool :=
  match p, s with
  | [], _ => true
  | x :: p', y :: s' => char_eqb x y && startswith p' s'
  | _ :: _, [] => false
  end.

(** [sub in s] *)
Fixpoint contains (sub s : str) : bool :=
  startswith sub s ||
  match s with
  | [] => false
  | _ :: s' => contains sub s'
  end.

(** [s.split(sep)] for a non-empty separator: [skip] counts the characters
    of a separator still to be passed over, [cur] is the piece being read
    (reversed). *)
Fixpoint split_go (sep : str) (s : str) (skip : nat) (cur : str) : list str :=
  match s with
  | [] => [rev cur]
  | c :: s' =>
      match skip with
      | S k => split_go sep s' k cur
      | O =>
          if startswith sep s
          then rev cur :: split_go sep s' (Nat.pred (List.length sep)) []
          else split_go sep s' O (c :: cur)
      end
  end.

Definition split (sep s : str) : list str := split_go sep s O [].

(** [s.replace(old, new)] for a one-character [old]. *)
Definition replace_char (old : char) (new : str) (s : str) : str :=
  flat_map (fun c => if char_eqb c old then new else [c]) s.

(** [os.path.basename(p)]: what follows the last slash. *)
Fixpoint basename_go (s : str) (cur : str) : str :=
  match s with
  | [] => rev cur
  | c :: s' => if char_eqb c (ch "/") then basename_go s' [] else basename_go s' (c :: cur)
  end.

Definition basename (p : str) : str := basename_go p [].

(** [os.path.join(a, b)] on POSIX. *)
Definition path_join (a b : str) : str :=
  if startswith (lit "/") b then b
  else match rev a with
       | [] => b
       | c :: _ => if char_eqb c (ch "/") then a ++ b else a ++ lit "/" ++ b
       end.

(** Truthiness of a string: [not s] is [negb (truthy s)]. *)
Definition truthy (s : str) : bool :=
  match s with [] => false | _ :: _ => true end.

End Text.

(** ** The fragment of Python's [re] the scripts use

    Every pattern of the two scripts is a sequence of literals, single
    character classes, one optional literal and repetitions of a class,
    so a pattern is a list of such atoms.  Matching is Python's
    backtracking search: a greedy repetition tries the longest run first,
    a lazy one the shortest. *)

Module Regex.
Import Text.

Inductive atom : Type :=
| Lit (c : char)                                   (* the character c *)
| Cls (p : char -> bool)                           (* one character of a class *)
| Opt (c : char)                                   (* c? *)
| Many (p : char -> bool) (least : nat) (greedy : bool).
                                                   (* p* p+ (greedy), p*? (lazy) *)

Definition pattern : Type := list atom.

(** A literal string as a pattern (also [re.escape] of that string). *)
Definition lits (s : str) : pattern := map Lit s.

(** Repetition of the class [p] followed by the continuation [k]; the
    result is the run matched by the repetition and what [k] returned. *)
Fixpoint many_greedy {A} (p : char -> bool) (k : str -> option A)
    (least : nat) (s : str) : option (str * A) :=
  let stop := match least with O => pair [] <$> k s | S _ => None end in
  match s with
  | x :: s' =>
      if p x then
        match many_greedy p k (Nat.pred least) s' with
        | Some (run, r) => Some (x :: run, r)
        | None => stop
        end
      else stop
  | [] => stop
  end.

Fixpoint many_lazy {A} (p : char -> bool) (k : str -> option A)
    (least : nat) (s : str) : option (str * A) :=
  let more :=
    match s with
    | x :: s' =>
        if p x then
          match many_lazy p k (Nat.pred least) s' with
          | Some (run, r) => Some (x :: run, r)
          | None => None
          end
        else None
    | [] => None
    end in
  match least with
  | O => match k s with Some r => Some ([], r) | None => more end
  | S _ => more
  end.

(** [match_here pat s]: the pattern matched at the start of [s], as the
    list of the texts matched by each atom. *)
Fixpoint match_here (pat : pattern) (s : str) : option (list str) :=
  match pat with
  | [] => Some []
  | Lit c :: pat' =>
      match s with
      | x :: s' => if char_eqb x c then cons [x] <$> match_here pat' s' else None
      | [] => None
      end
  | Cls p :: pat' =>
      match s with
      | x :: s' => if p x then cons [x] <$> match_here pat' s' else None
      | [] => None
      end
  | Opt c :: pat' =>
      let without := cons [] <$> match_here pat' s in
      match s with
      | x :: s' =>
          if char_eqb x c then
            match match_here pat' s' with
            | Some ps => Some ([x] :: ps)
            | None => without
            end
          else without
      | [] => without
      end
  | Many p least greedy :: pat' =>
      (fun '(run, ps) => run :: ps) <$>
      (if greedy then many_greedy p (match_here pat') least s
       else many_lazy p (match_here pat') least s)
  end.

(** [re.search]: the leftmost position at which the pattern matches. *)
Fixpoint search (pat : pattern) (s : str) : option (list str) :=
  match match_here pat s with
  | Some ps => Some ps
  | None => match s with [] => None | _ :: s' => search pat s' end
  end.

(** The text of a group that spans the atoms [from .. from + len - 1]. *)
Definition group (from len : nat) (ps : list str) : str :=
  concat (firstn len (skipn from ps)).

(** [re.sub]: every match, left to right and not overlapping, is replaced
    by [repl] of its text.  [skip] counts the characters of the current
    match still to be dropped. *)
Fixpoint sub_go (pat : pattern) (repl : str -> str) (s : str) (skip : nat) : str :=
  let copy := match s with [] => [] | x :: s' => x :: sub_go pat repl s' O end in
  match skip with
  | S k => match s with [] => [] | _ :: s' => sub_go pat repl s' k end
  | O =>
      match match_here pat s with
      | Some ps =>
          match List.length (concat ps) with
          | O => repl [] ++ copy
          | S k => repl (concat ps)
                   ++ match s with [] => [] | _ :: s' => sub_go pat repl s' k end
          end
      | None => copy
      end
  end.

(** [re.sub(pat, repl, s)] for a string [repl]: a replacement without a
    backslash is plain text, one with a backslash is a template.  [None]:
    the template is refused and [re.sub] raises. *)
Definition re_sub (U : Runtime) (pat : pattern) (repl : str) (s : str) : option str :=
  if char_in (ch "\") repl
  then (fun expand => sub_go pat expand s O) <$> expand_template U repl
  else Some (sub_go pat (fun _ => repl) s O).

End Regex.

(** ** A replacement template table: CPython 3.12

    The examples need one concrete [Runtime].  Its [expand_template] is
    CPython's [re._parser.parse_template] for a pattern without groups:
    the escapes [\a \b \f \n \r \t \v \\] and the octal escapes give a
    character, [\g<0>] gives the text of the match, a backslash before
    any other character that is not an ASCII letter or digit stays, and
    everything else (a group reference, an unknown letter, an open
    [\g<], a backslash at the end) raises. *)

Module Template.
Import Text.

Inductive part : Type :=
| PChar (c : char)      (* a character of the replacement *)
| PWhole.               (* group 0: the text of the match *)

Definition is_digit (c : char) : bool := between 48 57 c.
Definition is_octal (c : char) : bool := between 48 55 c.
Definition is_ascii_letter (c : char) : bool := between 65 90 c || between 97 122 c.
Definition digit (c : char) : N := c - 48.

(** The characters before the first [>]; [None] when there is none. *)
Fixpoint until_gt (s : str) : option str :=
  match s with
  | [] => None
  | c :: s' => if char_eqb c (ch ">") then Some [] else cons c <$> until_gt s'
  end.

(** The escape [\e] followed by [rest]: its parts, and how many
    characters of [rest] belong to it. *)
Definition escape (e : char) (rest : str) : option (list part * nat) :=
  if char_eqb e (ch "g") then
    match rest with
    | lt :: rest' =>
        if char_eqb lt (ch "<") then
          match until_gt rest' with
          | Some name =>
              if truthy name && forallb is_digit name
              then if forallb (char_eqb (ch "0")) name
                   then Some ([PWhole], S (S (List.length name)))
                   else None                     (* invalid group reference *)
              else None                          (* no such group name *)
          | None => None                         (* missing > *)
          end
        else None                                (* missing < *)
    | [] => None
    end
  else if char_eqb e (ch "0") then
    match rest with
    | d1 :: rest' =>
        if is_octal d1 then
          match rest' with
          | d2 :: _ =>
              if is_octal d2
              then Some ([PChar ((digit d1 * 8 + digit d2) mod 256)], 2%nat)
              else Some ([PChar (digit d1)], 1%nat)
          | [] => Some ([PChar (digit d1)], 1%nat)
          end
        else Some ([PChar 0], O)
    | [] => Some ([PChar 0], O)
    end
  else if is_digit e then
    match rest with
    | d2 :: d3 :: _ =>
        if is_octal e && is_octal d2 && is_octal d3 then
          let c := digit e * 64 + digit d2 * 8 + digit d3 in
          if c <=? 255 then Some ([PChar c], 2%nat) else None
        else None                                (* invalid group reference *)
    | _ => None                                  (* invalid group reference *)
    end
  else if char_eqb e (ch "a") then Some ([PChar 7], O)
  else if char_eqb e (ch "b") then Some ([PChar 8], O)
  else if char_eqb e (ch "f") then Some ([PChar 12], O)
  else if char_eqb e (ch "n") then Some ([PChar 10], O)
  else if char_eqb e (ch "r") then Some ([PChar 13], O)
  else if char_eqb e (ch "t") then Some ([PChar 9], O)
  else if char_eqb e (ch "v") then Some ([PChar 11], O)
  else if char_eqb e (ch "\") then Some ([PChar (ch "\")], O)
  else if is_ascii_letter e then None            (* bad escape *)
  else Some ([PChar (ch "\"); PChar e], O).

(** [skip] counts the characters of the current escape still to be
    passed over. *)
Fixpoint parse_go (s : str) (skip : nat) : option (list part) :=
  match s with
  | [] => Some []
  | c :: s' =>
      match skip with
      | S k => parse_go s' k
      | O =>
          if char_eqb c (ch "\") then
            match s' with
            | [] => None                         (* bad escape (end of pattern) *)
            | e :: rest =>
                match escape e rest with
                | Some (parts, more) => app parts <$> parse_go s' (S more)
                | None => None
                end
            end
          else cons (PChar c) <$> parse_go s' O
      end
  end.

Definition expand (parts : list part) (matched : str) : str :=
  flat_map (fun p => match p with PChar c => [c] | PWhole => matched end) parts.

Definition cpython_template (repl : str) : option (str -> str) :=
  expand <$> parse_go repl O.

End Template.

(** ** The outside world, the state and the monad of the scripts *)

Module Sys.
Import Text.

(** What [translate_text] can do: raise, return something that is not a
    string (truthy or not), or return a string. *)
Inductive translation : Type :=
| TrRaises
| TrOther (is_truthy : bool)
| TrStr (s : str).

(** The services the scripts call.  They are functions of their argument:
    asking twice gives the same answer. *)
Record World : Type := {
  (* app.translator.fetch_html; None: it raises *)
  fetch_html : str -> option str;
  (* BeautifulSoup(html, 'html.parser').find_all('p'), each rendered by str() *)
  soup_paragraphs : str -> list str;
  (* app.translator.translate_text *)
  translate_text : str -> translation;
  (* requests.get(url), raise_for_status and the write of the body: all succeed *)
  http_get_ok : str -> bool;
  (* edge_tts: Communicate(text, voice).save(path) succeeds *)
  tts_ok : str -> bool
}.

(** The calls that leave the process. *)
Inductive event : Type :=
| EFetch (query : str)
| ETranslate (query : str)
| EDownload (url path : str)
| ESynthesize (text path : str).

(** The local state: the paths that exist, the chunks written to the
    output file so far, and the calls made so far. *)
Record state : Type := {
  files : gset str;
  written : list str;
  log : list event
}.

(** An uncaught exception ends the run.  These are the exceptions the
    runs are followed through; the encoding of a written text and the
    HTML parser are taken not to raise. *)
Inductive failure : Type :=
| SynthesisFailure        (* raised by tts_save *)
| ReplacementTemplate     (* re.error: re.sub refuses the replacement template *)
| RequestFailure.         (* requests.get or raise_for_status, outside any try *)

Inductive outcome (A : Type) : Type :=
| Done (a : A)
| Raised (e : failure).
Arguments Done {A} a.
Arguments Raised {A} e.

Definition M (A : Type) : Type := state -> outcome A * state.

Definition ret {A} (a : A) : M A := fun st => (Done a, st).

Definition bind {A B} (m : M A) (f : A -> M B) : M B :=
  fun st =>
    match m st with
    | (Done a, st') => f a st'
    | (Raised e, st') => (Raised e, st')
    end.

Definition raise {A} (e : failure) : M A := fun st => (Raised e, st).

Definition emit (e : event) : M unit :=
  fun st => (Done tt, {| files := files st; written := written st; log := log st ++ [e] |}).

(** [out.write(chunk)] *)
Definition write (chunk : str) : M unit :=
  fun st => (Done tt, {| files := files st; written := written st ++ [chunk]; log := log st |}).

(** [os.path.exists(path)] *)
Definition path_exists (path : str) : M bool :=
  fun st => (Done (bool_decide (path ∈ files st)), st).

Definition create_file (path : str) : M unit :=
  fun st => (Done tt, {| files := {[ path ]} ∪ files st; written := written st; log := log st |}).

(** [asyncio.run(tts_save(text, path))]; the two scripts define the same
    [tts_save]. *)
Definition tts_save (W : World) (text path : str) : M unit :=
  fun st =>
    let st' := {| files := files st; written := written st;
                  log := log st ++ [ESynthesize text path] |} in
    if tts_ok W text
    then (Done tt, {| files := {[ path ]} ∪ files st'; written := written st'; log := log st' |})
    else (Raised SynthesisFailure, st').

(** [for x in xs: body(x)] *)
Fixpoint for_each {A} (xs : list A) (body : A -> M unit) : M unit :=
  match xs with
  | [] => ret tt
  | x :: xs' => bind (body x) (fun _ => for_each xs' body)
  end.

Definition initial (fs : gset str) : state :=
  {| files := fs; written := []; log := [] |}.

End Sys.

#[export] Instance script_ret : MRet Sys.M := @Sys.ret.
#[export] Instance script_bind : MBind Sys.M := fun A B f m => Sys.bind m f.

(** ** kelly_to_anki.py *)

Module Kelly.
Import Text Regex Sys.

Definition nl : char := 10.
Definition tab : char := 9.
Definition dquote : char := 34.
Definition squote : char := 39.

Definition OUTPUT_FILE : str := lit "kelly_anki_import.txt".
Definition AUDIO_DIR : str := lit "media".
Definition DECK_NAME : str := lit "KellyList".
Definition NOTE_TYPE : str := lit "Basic".

Definition truthy_opt (v : option str) : bool :=
  match v with Some s => truthy s | None => false end.

Definition not_gt (c : char) : bool := negb (char_eqb c (ch ">")).
Definition is_quote (c : char) : bool := char_in c [squote; dquote].
Definition not_quote (c : char) : bool := negb (is_quote c).
Definition any_char (c : char) : bool := true.

(** The pattern [<img\s+src=QgrafikSLASHnameQ[^>]*>], Q the double quote. *)
Definition img_pattern (name : str) : pattern :=
  lits (lit "<img") ++ [Many py_isspace 1 true] ++ lits (lit "src=") ++ [Lit dquote]
  ++ lits (lit "grafik/" ++ name) ++ [Lit dquote; Many not_gt 0 true; Lit (ch ">")].

Definition flag_sv : str := [127480; 127466].
Definition flag_en : str := [127468; 127463].
Definition speaker : str := [128266].

(** The pattern [href=Q(https?://N+\.mp3)Q], where Q is the class of the
    two quote characters and N its complement; the group is atoms 6 to 18. *)
Definition mp3_href : pattern :=
  lits (lit "href=") ++ [Cls is_quote]
  ++ lits (lit "http") ++ [Opt (ch "s")] ++ lits (lit "://")
  ++ [Many not_quote 1 true] ++ lits (lit ".mp3")
  ++ [Cls is_quote].

Definition extract_mp3_url (html : str) : option str :=
  group 6 13 <$> search mp3_href html.

(** The pattern [<a[^>]+href=Q URL Q[^>]*>.*?</a>] under [re.DOTALL], where
    Q is the class of the two quote characters and URL is
    [re.escape(mp3_url)]. *)
Definition anchor_pattern (mp3_url : str) : pattern :=
  lits (lit "<a") ++ [Many not_gt 1 true] ++ lits (lit "href=") ++ [Cls is_quote]
  ++ lits mp3_url ++ [Cls is_quote; Many not_gt 0 true; Lit (ch ">"); Many any_char 0 false]
  ++ lits (lit "</a>").

Definition sound_marker (name : str) : str := lit "[sound:" ++ name ++ lit "]".

(** The class [A-Za-z0-9_-]. *)
Definition safe_char (c : char) : bool :=
  ascii_alnum c || char_eqb c (ch "_") || char_eqb c (ch "-").

(** [re.sub] of the class [^A-Za-z0-9_-] by an underscore in [query_text];
    the replacement is plain text. *)
Definition safe_name (query_text : str) : str :=
  sub_go [Cls (fun c => negb (safe_char c))] (fun _ => lit "_") query_text O.

(** A [re.sub] outside any [try]. *)
Definition sub_or_raise (r : option str) : M str :=
  match r with Some s => mret s | None => raise ReplacementTemplate end.

(** The three [re.sub] calls of [get_folkets_entry]. *)
Definition replace_icons (U : Runtime) (html : str) : option str :=
  match re_sub U (img_pattern (lit "flag_18x12_sv.png")) flag_sv html with
  | None => None
  | Some html =>
      match re_sub U (img_pattern (lit "flag_18x12_en.png")) flag_en html with
      | None => None
      | Some html => re_sub U (img_pattern (lit "sound.gif")) speaker html
      end
  end.

Section Script.
Context (U : Runtime) (W : World).

(** What [get_folkets_entry] returns; the call of [fetch_html] is the only
    effect of that function. *)
Definition folkets_html (word : str) : option str :=
  match fetch_html W word with
  | None => None                                 (* except Exception *)
  | Some html =>
      match replace_icons U html with
      | None => None                             (* except Exception *)
      | Some html =>
          let paras := soup_paragraphs W html in
          match paras with
          | [] => None
          | _ :: _ => Some (concat paras)
          end
      end
  end.

Definition get_folkets_entry (word : str) : M (option str) :=
  emit (EFetch word);;
  mret (folkets_html word).

(** What step 2 of [process_word] leaves in [entry_html]; [None] stands
    for [return None, None]. *)
Definition translated_text (query_text : str) : option str :=
  match translate_text W query_text with
  | TrStr translated => if truthy translated then Some translated else None
  | TrOther _ => None
  | TrRaises => None
  end.

Definition fallback (query_text : str) : M (option str) :=
  emit (ETranslate query_text);;
  mret (translated_text query_text).

(** The [if mp3_url:] block: the content and [sound_filename] after it. *)
Definition fetch_audio (entry_html : str) (mp3_url : option str) : M (str * option str) :=
  match mp3_url with
  | Some url =>
      if truthy url then
        let name := basename url in
        let local := path_join AUDIO_DIR name in
        present ← path_exists local;
        still ← (if present : bool then mret true
                 else emit (EDownload url local);;
                      if http_get_ok W url then create_file local;; mret true
                      else mret false);
        if still : bool then
          entry_html' ← sub_or_raise (re_sub U (anchor_pattern url) (sound_marker name) entry_html);
          mret (entry_html', Some name)
        else mret (entry_html, None)
      else mret (entry_html, None)
  | None => mret (entry_html, None)
  end.

(** Step 4: [if not sound_filename:]. *)
Definition synthesize (query_text : str) (sound_filename : option str) : M (option str) :=
  if negb (truthy_opt sound_filename) then
    let name := safe_name query_text ++ lit ".mp3" in
    let local := path_join AUDIO_DIR name in
    present ← path_exists local;
    (if present : bool then mret tt else tts_save W query_text local);;
    mret (Some name)
  else mret sound_filename.

(** [query_text] of [process_word], as a function of [word]. *)
Definition query_of (word : str) : str :=
  strip (hd [] (split (lit "(") (strip word))).

Definition process_word (word : str) : M (option str * option str) :=
  let display_text := strip word in
  let query_text := query_of word in
  if negb (truthy display_text) then mret (None, None)
  else
    entry_html ← get_folkets_entry (py_lower U query_text);
    entry_html ← (if negb (truthy_opt entry_html) then fallback query_text
                  else mret entry_html);
    match entry_html with
    | None => mret (None, None)
    | Some entry_html =>
        '(entry_html, sound_filename) ← fetch_audio entry_html (extract_mp3_url entry_html);
        sound_filename ← synthesize query_text sound_filename;
        mret (Some entry_html, sound_filename)
    end.

(** The rows of the sheet: [None] is a missing cell. *)
Definition sheet : Type := list (option str * option str).

(** [df.dropna(subset=[SWEDISH_COLUMN])], then [fillna] with the empty string on the level. *)
Definition dropna (rows : sheet) : list (str * str) :=
  omap (fun row => match fst row with
                   | Some w => Some (w, default [] (snd row))
                   | None => None
                   end) rows.

Definition header : list str :=
  [ lit "#separator:Tab" ++ [nl];
    lit "#columns:Word" ++ [tab] ++ lit "Definition" ++ [tab] ++ lit "Tags" ++ [nl];
    lit "#notetype:" ++ NOTE_TYPE ++ [nl];
    lit "#deck:" ++ DECK_NAME ++ [nl] ].

(** The definition column of a record: lines 167 to 171. *)
Definition def_line_of (definition : str) (sound : option str) : str :=
  let def_line := replace_char nl (lit "<br>") definition in
  if truthy_opt sound && negb (contains (lit "[sound:") def_line)
  then def_line ++ lit " [sound:" ++ default [] sound ++ lit "]"
  else def_line.

Definition record_line (word def_line tags_field : str) : str :=
  word ++ [tab] ++ def_line ++ [tab] ++ tags_field ++ [nl].

(** The body of the loop over the rows. *)
Definition row_body (row : str * str) : M unit :=
  let word := strip (fst row) in
  let tag := strip (snd row) in
  '(definition, sound) ← process_word word;
  if negb (truthy_opt definition) then mret tt
  else write (record_line word (def_line_of (default [] definition) sound) tag).

Definition main (rows : sheet) : M unit :=
  let df := dropna rows in
  create_file OUTPUT_FILE;;
  for_each header write;;
  for_each df row_body.

End Script.
End Kelly.

(** ** riksdagen_law_glossary_anki.py *)

Module Glossary.
Import Text Regex Sys.

Definition nl : char := 10.
Definition tab : char := 9.
Definition dquote : char := 34.

Definition OUTPUT_FILE : str := lit "riksdagen_glossary_anki.txt".
Definition DECK_NAME : str := lit "LawGlossary".
Definition NOTE_TYPE : str := lit "Basic".
Definition MEDIA_DIR : str := lit "media".

(** What the HTML parser gives for one [h3] of a page: its text and the
    text of its next sibling [p], if there is one. *)
Definition heading : Type := (str * option str)%type.

(** The two pages as parsed; [None]: the request raises. *)
Record Pages : Type := {
  swedish_page : option (list heading);
  english_page : option (list heading)
}.

Definition request (page : option (list heading)) : M (list heading) :=
  match page with
  | Some h3s => mret h3s
  | None => raise RequestFailure
  end.

Section Script.
Context (U : Runtime) (W : World) (P : Pages).

(** The loop of [scrape_swedish_terms_and_defs] over the [h3] elements. *)
Definition terms_and_defs (h3s : list heading) : list (str * str) :=
  omap (fun h3 : heading =>
          let term := strip (fst h3) in
          match snd h3 with
          | None => None                                (* continue *)
          | Some p => Some (term, strip p)
          end) h3s.

Definition scrape_swedish_terms_and_defs : M (list (str * str)) :=
  h3s ← request (swedish_page P);
  mret (terms_and_defs h3s).

(** The loop of [scrape_english_mapping] over the [h3] elements. *)
Definition english_mapping (h3s : list heading) : gmap str (str * str) :=
  fold_left
    (fun (mapping : gmap str (str * str)) (h3 : heading) =>
       let text := strip (fst h3) in
       if contains (lit "(Sw:") text then
         let eng_term := strip (hd [] (split (lit "(Sw:") text)) in
         let sw_key := strip (rstrip_chars (lit ")") (nth 1 (split (lit "(Sw:") text) [])) in
         let eng_def := match snd h3 with Some p => strip p | None => [] end in
         <[ py_lower U sw_key := (eng_term, eng_def) ]> mapping
       else mapping)
    h3s ∅.

Definition scrape_english_mapping : M (gmap str (str * str)) :=
  h3s ← request (english_page P);
  mret (english_mapping h3s).

Definition sanitize_filename (text : str) : str :=
  map (fun c => if py_isalnum U c || char_in c (lit "-_") then c else ch "_") text.

Definition header : list str :=
  [ lit "#separator:Tab" ++ [nl];
    lit "#columns:Swedish" ++ [tab] ++ lit "Definition" ++ [nl];
    lit "#notetype:" ++ NOTE_TYPE ++ [nl];
    lit "#deck:" ++ DECK_NAME ++ [nl; nl] ].

Definition eng_html_of (eng_entry : str * str) : str :=
  let '(eng_term, eng_def) := eng_entry in
  if truthy eng_term then
    (lit "<div style=" ++ [dquote] ++ lit "font-size:1.2em; font-weight:bold;" ++ [dquote]
     ++ lit ">" ++ eng_term ++ lit "</div>")
    ++ (lit "<div>" ++ eng_def ++ lit "</div>")
  else [].

Definition filename_of (term : str) : str := sanitize_filename term ++ lit ".mp3".

Definition front_of (term : str) : str :=
  term ++ lit " [sound:" ++ filename_of term ++ lit "]".

Definition back_of (eng_map : gmap str (str * str)) (term sw_def : str) : str :=
  let eng_entry := default (([] : str), ([] : str)) (eng_map !! py_lower U term) in
  sw_def ++ lit "<br><br>" ++ eng_html_of eng_entry.

(** The body of the loop over the entries. *)
Definition entry_body (eng_map : gmap str (str * str)) (entry : str * str) : M unit :=
  let '(term, sw_def) := entry in
  let filename := filename_of term in
  let local_mp3 := path_join MEDIA_DIR filename in
  present ← path_exists local_mp3;
  (if present : bool then mret tt else tts_save W term local_mp3);;
  write (front_of term ++ [tab] ++ back_of eng_map term sw_def ++ [nl]).

(** The line written for an entry. *)
Definition record_of (eng_map : gmap str (str * str)) (entry : str * str) : str :=
  front_of entry.1 ++ [tab] ++ back_of eng_map entry.1 entry.2 ++ [nl].

Definition main : M unit :=
  sw_entries ← scrape_swedish_terms_and_defs;
  eng_map ← scrape_english_mapping;
  create_file OUTPUT_FILE;;
  for_each header write;;
  for_each sw_entries (entry_body eng_map).

End Script.
End Glossary.

(** * The vocabulary of the properties

    Everything below is stated with the words defined here: the calls and
    the chunks of a run, the content the lookups leave, the names and
    paths of the audio files, and, for each loop of the scripts, the
    relation between the files it finds and what it does. *)

Import Text Regex Sys.

Section Vocabulary.
Context (U : Runtime) (W : World).

(** The text an atom can match. *)
Definition atom_text (a : atom) (piece : str) : Prop :=
  match a with
  | Lit c => piece = [c]
  | Cls p => ∃ x, piece = [x] ∧ p x = true
  | Opt c => piece = [] ∨ piece = [c]
  | Many p least _ => Forall (λ x, p x = true) piece ∧ (least ≤ List.length piece)%nat
  end.

(** The calls a computation makes, and the chunks it writes, when it is
    run from the state [st]. *)
Definition events_of {A} (m : M A) (st : state) : list event :=
  drop (List.length (log st)) (log (m st).2).

Definition chunks_of {A} (m : M A) (st : state) : list str :=
  drop (List.length (written st)) (written (m st).2).

(** [st'] comes after [st]: files are only added, [ws] was written and
    [evs] was called in between. *)
Record follows (st st' : state) (ws : list str) (evs : list event) : Prop := {
  follows_files : files st ⊆ files st';
  follows_written : written st' = written st ++ ws;
  follows_log : log st' = log st ++ evs
}.

(** The state after [new] files were created, [ws] written and [evs]
    called. *)
Definition advance (new : gset str) (ws : list str) (evs : list event)
    (st : state) : state :=
  {| files := new ∪ files st; written := written st ++ ws; log := log st ++ evs |}.

(** The content the two lookups leave for a word, and the calls they make. *)
Definition lookup_content (word : str) : option str :=
  let q := Kelly.query_of word in
  if Kelly.truthy_opt (Kelly.folkets_html U W (py_lower U q))
  then Kelly.folkets_html U W (py_lower U q)
  else Kelly.translated_text W q.

Definition lookup_events (word : str) : list event :=
  let q := Kelly.query_of word in
  EFetch (py_lower U q)
  :: (if Kelly.truthy_opt (Kelly.folkets_html U W (py_lower U q)) then [] else [ETranslate q]).

(** The audio file of step 4. *)
Definition tts_name (q : str) : str := Kelly.safe_name q ++ lit ".mp3".
Definition tts_path (q : str) : str := path_join Kelly.AUDIO_DIR (tts_name q).
Definition url_path (url : str) : str := path_join Kelly.AUDIO_DIR (basename url).

(** Steps 3 and 4 of [process_word], on the looked-up content. *)
Definition resolve (q html : str) : M (option str * option str) :=
  '(entry_html, sound_filename) ← Kelly.fetch_audio U W html (Kelly.extract_mp3_url html);
  sound_filename ← Kelly.synthesize W q sound_filename;
  mret (Some entry_html, sound_filename).

(** The synthesis of step 4 for the query [q], run with the files [fs]:
    its result, the file it creates and the call it makes. *)
Inductive synthesized (fs : gset str) (q : str) :
    outcome (option str) → gset str → list event → Prop :=
| syn_reuse :
    tts_path q ∈ fs →
    synthesized fs q (Done (Some (tts_name q))) ∅ []
| syn_new :
    tts_path q ∉ fs → tts_ok W q = true →
    synthesized fs q (Done (Some (tts_name q))) {[ tts_path q ]} [ESynthesize q (tts_path q)]
| syn_fail :
    tts_path q ∉ fs → tts_ok W q = false →
    synthesized fs q (Raised SynthesisFailure) ∅ [ESynthesize q (tts_path q)].

(** An anchor element: the tag name, attributes, the quoted address, the
    rest of the opening tag, the body and the closing tag. *)
Definition anchor_text (attrs : str) (q1 : char) (url : str) (q2 : char)
    (tail body : str) : str :=
  lit "<a" ++ attrs ++ lit "href=" ++ [q1] ++ url ++ [q2] ++ tail ++ lit ">"
  ++ body ++ lit "</a>".

(** The anchor pattern behind the repetition that follows its tag name. *)
Definition after_href (url : str) : pattern :=
  lits (lit "href=") ++ Cls Kelly.is_quote :: lits url
  ++ Cls Kelly.is_quote :: Many Kelly.not_gt 0 true :: Lit (ch ">")
  :: Many Kelly.any_char 0 false :: lits (lit "</a>").

(** The content with the anchor of [url] replaced by the sound marker. *)
Definition with_marker (html url : str) : option str :=
  re_sub U (Kelly.anchor_pattern url) (Kelly.sound_marker (basename url)) html.

Definition marked (html url : str) : outcome (option str * option str) :=
  match with_marker html url with
  | Some content => Done (Some content, Some (basename url))
  | None => Raised ReplacementTemplate
  end.

Definition voiced (html : str) (r : outcome (option str)) : outcome (option str * option str) :=
  match r with
  | Done sound => Done (Some html, sound)
  | Raised e => Raised e
  end.

(** Steps 3 and 4 of [process_word] for the query [q] and the looked-up
    content [html], run with the files [fs]: the result, the file created
    and the calls made. *)
Inductive resolved (fs : gset str) (q html : str) :
    outcome (option str * option str) → gset str → list event → Prop :=
| res_no_link r new evs :
    Kelly.extract_mp3_url html = None →
    synthesized fs q r new evs →
    resolved fs q html (voiced html r) new evs
| res_reuse url :
    Kelly.extract_mp3_url html = Some url →
    url_path url ∈ fs →
    resolved fs q html (marked html url) ∅ []
| res_download url :
    Kelly.extract_mp3_url html = Some url →
    url_path url ∉ fs → http_get_ok W url = true →
    resolved fs q html (marked html url) {[ url_path url ]} [EDownload url (url_path url)]
| res_fall_through url r new evs :
    Kelly.extract_mp3_url html = Some url →
    url_path url ∉ fs → http_get_ok W url = false →
    synthesized fs q r new evs →
    resolved fs q html (voiced html r) new (EDownload url (url_path url) :: evs).

(** [process_word word], run with the files [fs]: the result, the file
    created and the calls made. *)
Inductive word_run (fs : gset str) (word : str) :
    outcome (option str * option str) → gset str → list event → Prop :=
| word_blank :
    truthy (strip word) = false →
    word_run fs word (Done (None, None)) ∅ []
| word_nomatch :
    truthy (strip word) = true → lookup_content word = None →
    word_run fs word (Done (None, None)) ∅ (lookup_events word)
| word_found html r new evs :
    truthy (strip word) = true → lookup_content word = Some html →
    resolved fs (Kelly.query_of word) html r new evs →
    word_run fs word r new (lookup_events word ++ evs).

(** What the loop writes for a row, given what [process_word] returned. *)
Definition row_chunks (row : str * str) (res : option str * option str) : list str :=
  if Kelly.truthy_opt res.1
  then [Kelly.record_line (strip row.1) (Kelly.def_line_of (default [] res.1) res.2) (strip row.2)]
  else [].

(** The loop over the rows [df], run with the files [fs]: how it ends,
    the files created, the records written and the calls made. *)
Inductive rows_run (fs : gset str) :
    list (str * str) → outcome unit → gset str → list str → list event → Prop :=
| rows_done :
    rows_run fs [] (Done tt) ∅ [] []
| rows_raised row df e new evs :
    word_run fs (strip row.1) (Raised e) new evs →
    rows_run fs (row :: df) (Raised e) new [] evs
| rows_next row df res new evs r new' ws evs' :
    word_run fs (strip row.1) (Done res) new evs →
    rows_run (new ∪ fs) df r new' ws evs' →
    rows_run fs (row :: df) r (new' ∪ new) (row_chunks row res ++ ws) (evs ++ evs').

(** A download or a synthesis. *)
Definition is_audio_call (e : event) : Prop :=
  match e with
  | EDownload _ _ | ESynthesize _ _ => True
  | EFetch _ | ETranslate _ => False
  end.

(** No table beyond Latin-1: nothing there is alphanumeric, and [lower]
    leaves a string that is not pure ASCII as it is. *)
Definition latin1_only : Runtime :=
  {| alnum_beyond_latin1 := λ _, false;
     lower_non_ascii := λ s, s;
     expand_template := Template.cpython_template |}.

(** The dictionary knows one word, the translation service raises, and
    every download and every synthesis succeeds. *)
Definition one_word_world (word page : str) : World :=
  {| fetch_html := λ q, if str_eqb q word then Some page else None;
     soup_paragraphs := λ html, if contains (lit "<p>") html then [html] else [];
     translate_text := λ q, TrRaises;
     http_get_ok := λ _, true;
     tts_ok := λ _, true |}.

(** The audio file of a term. *)
Definition term_path (term : str) : str :=
  path_join Glossary.MEDIA_DIR (Glossary.filename_of U term).

(** The loop over the entries, run with the files [fs]: how it ends, the
    files created, the entries for which a record was written and the
    terms that were synthesized. *)
Inductive entries_run (fs : gset str) :
    list (str * str) → outcome unit → gset str → list (str * str) → list str → Prop :=
| entries_done :
    entries_run fs [] (Done tt) ∅ [] []
| entries_reuse entry entries r new recorded spoken :
    term_path entry.1 ∈ fs →
    entries_run fs entries r new recorded spoken →
    entries_run fs (entry :: entries) r new (entry :: recorded) spoken
| entries_speak entry entries r new recorded spoken :
    term_path entry.1 ∉ fs → tts_ok W entry.1 = true →
    entries_run ({[ term_path entry.1 ]} ∪ fs) entries r new recorded spoken →
    entries_run fs (entry :: entries) r (new ∪ {[ term_path entry.1 ]})
      (entry :: recorded) (entry.1 :: spoken)
| entries_fail entry entries :
    term_path entry.1 ∉ fs → tts_ok W entry.1 = false →
    entries_run fs (entry :: entries) (Raised SynthesisFailure) ∅ [] [entry.1].

(** The synthesis call of a term. *)
Definition synthesis_of (term : str) : event := ESynthesize term (term_path term).

(** The text with every character outside [keep] replaced by an
    underscore. *)
Definition underscored (keep : char → bool) (text : str) : str :=
  map (λ c, if keep c then c else ch "_") text.

(** The four directive lines, for a column list and a deck name. *)
Definition directive_lines (columns deck : str) : str :=
  lit "#separator:Tab" ++ [Kelly.nl]
  ++ lit "#columns:" ++ columns ++ [Kelly.nl]
  ++ lit "#notetype:Basic" ++ [Kelly.nl]
  ++ lit "#deck:" ++ deck ++ [Kelly.nl].

(** A line written by the loop of the Kelly script. *)
Definition is_kelly_record (chunk : str) : Prop :=
  ∃ word def_line tags_field, chunk = Kelly.record_line word def_line tags_field.

(** The file an audio call is to create. *)
Definition target (e : event) : option str :=
  match e with
  | EDownload _ path | ESynthesize _ path => Some path
  | EFetch _ | ETranslate _ => None
  end.

(** The derived name of the audio file of a word: the base name of the
    link of its content, or else the name made from its query string. *)
Definition derived_name (q html : str) : str :=
  match Kelly.extract_mp3_url html with
  | Some url => basename url
  | None => tts_name q
  end.

(** A call that fetches or makes nothing new: no synthesis, and only
    downloads that fail. *)
Definition idle (e : event) : Prop :=
  match e with
  | ESynthesize _ _ => False
  | EDownload url _ => http_get_ok W url = false
  | EFetch _ | ETranslate _ => True
  end.

(** The audio of [word] is settled in the files [fs]: its file is there,
    or its link cannot be downloaded and the synthesized file is there. *)
Definition settled (fs : gset str) (word : str) : Prop :=
  truthy (strip word) = true →
  ∀ html, lookup_content word = Some html →
    match Kelly.extract_mp3_url html with
    | Some url =>
        url_path url ∈ fs
        ∨ (http_get_ok W url = false ∧ tts_path (Kelly.query_of word) ∈ fs)
    | None => tts_path (Kelly.query_of word) ∈ fs
    end.

(** The [src] attribute of an icon of the dictionary page, and an image
    tag with that attribute first: [<img], white space, the attribute,
    anything without a [>], and [>]. *)
Definition icon_source (name : str) : str :=
  lit "src=" ++ [Kelly.dquote] ++ lit "grafik/" ++ name ++ [Kelly.dquote].

Definition icon_tag (name ws attrs : str) : str :=
  lit "<img" ++ ws ++ icon_source name ++ attrs ++ lit ">".

(** The three icons [get_folkets_entry] replaces, each with the text that
    replaces it. *)
Definition icons : list (str * str) :=
  [ (lit "flag_18x12_sv.png", Kelly.flag_sv);
    (lit "flag_18x12_en.png", Kelly.flag_en);
    (lit "sound.gif", Kelly.speaker) ].

(** No place of [s] has a match of [pat]. *)
Definition matchless (pat : pattern) (s : str) : Prop :=
  ∀ i, match_here pat (drop i s) = None.

(** A path of an [.mp3] file that lies in the media directory itself. *)
Definition in_media (path : str) : Prop :=
  ∃ stem, path = lit "media/" ++ stem ++ lit ".mp3" ∧ char_in (ch "/") stem = false.

(** The files created and the calls made are for audio files in the
    media directory. *)
Definition media_only (new : gset str) (evs : list event) : Prop :=
  (∀ path, path ∈ new → in_media path)
  ∧ (∀ e path, e ∈ evs → target e = Some path → in_media path).

(** No address linked in a looked-up content has a backslash in its
    base name. *)
Definition plain_links : Prop :=
  ∀ word html url,
    lookup_content word = Some html → Kelly.extract_mp3_url html = Some url →
    char_in (ch "\") (basename url) = false.

(** The word of a row, as [main] hands it to [process_word], is not blank
    and the lookups give a content for it. *)
Definition has_content (row : str * str) : bool :=
  truthy (strip row.1) && bool_decide (is_Some (lookup_content (strip row.1))).

(** The sheet whose rows are [df], no cell missing. *)
Definition cells (df : list (str * str)) : Kelly.sheet :=
  (λ row, (Some row.1, Some row.2)) <$> df.

(** The number of newline characters of a text: the lines it makes in
    the output file. *)
Definition newlines (s : str) : nat :=
  List.length (List.filter (λ c, char_eqb c Kelly.nl) s).

(** The dictionary knows one word, the translation service raises, every
    download succeeds and no synthesis does. *)
Definition silent_world (word page : str) : World :=
  {| fetch_html := λ q, if str_eqb q word then Some page else None;
     soup_paragraphs := λ html, if contains (lit "<p>") html then [html] else [];
     translate_text := λ q, TrRaises;
     http_get_ok := λ _, true;
     tts_ok := λ _, false |}.

End Vocabulary.

(** * Properties *)

(** ** Strings *)

Lemma char_eqb_eq (a b : char) : char_eqb a b = true ↔ a = b.
Proof. apply N.eqb_eq. Qed.

Lemma char_eqb_refl (a : char) : char_eqb a a = true.
Proof. apply N.eqb_refl. Qed.

Lemma startswith_app (p s : str) : startswith p (p ++ s) = true.
Proof. induction p as [|x p IH]; simpl; [done|]. by rewrite char_eqb_refl. Qed.

Lemma startswith_spec (p s : str) :
  startswith p s = true ↔ ∃ rest, s = p ++ rest.
Proof.
  split.
  - revert s. induction p as [|x p IH]; intros s H; simpl in *; [by exists s|].
    destruct s as [|y s]; [done|].
    apply andb_true_iff in H as [Hxy H]. apply char_eqb_eq in Hxy as ->.
    destruct (IH _ H) as [rest ->]. by exists rest.
  - intros [rest ->]. apply startswith_app.
Qed.

Lemma contains_unfold (sub s : str) :
  contains sub s =
  startswith sub s || match s with [] => false | _ :: s' => contains sub s' end.
Proof. by destruct s. Qed.

Lemma contains_spec (sub s : str) :
  contains sub s = true ↔ ∃ pre post, s = pre ++ sub ++ post.
Proof.
  split.
  - induction s as [|y s IH]; simpl; intros H.
    + apply orb_true_iff in H as [H|H]; [|done].
      apply startswith_spec in H as [rest ->]. by exists [], rest.
    + apply orb_true_iff in H as [H|H].
      * apply startswith_spec in H as [rest ->]. by exists [], rest.
      * destruct (IH H) as (pre & post & ->). by exists (y :: pre), post.
  - intros (pre & post & ->). induction pre as [|y pre IH]; simpl.
    + by rewrite contains_unfold, startswith_app.
    + rewrite IH. apply orb_true_r.
Qed.

Lemma replace_char_app (old : char) (new a b : str) :
  replace_char old new (a ++ b) = replace_char old new a ++ replace_char old new b.
Proof. unfold replace_char. apply flat_map_app. Qed.

(** After [replace('\n', '<br>')] no newline is left. *)
Lemma replace_newline_free (s : str) :
  Kelly.nl ∉ replace_char Kelly.nl (lit "<br>") s.
Proof.
  induction s as [|c s IH]; simpl; [apply not_elem_of_nil|].
  destruct (char_eqb c Kelly.nl) eqn:E.
  - intros H. apply elem_of_app in H as [H|H]; [|done].
    vm_compute in H. repeat (apply elem_of_cons in H as [H|H]; [done|]).
    by apply elem_of_nil in H.
  - intros H. apply elem_of_cons in H as [H|H]; [|done].
    subst c. by rewrite char_eqb_refl in E.
Qed.

(** ** Patterns: what a match looks like *)

Lemma many_greedy_sound {A} p (k : str → option A) least s run r :
  many_greedy p k least s = Some (run, r) →
  Forall (λ x, p x = true) run ∧ (least ≤ List.length run)%nat
  ∧ ∃ rest, s = run ++ rest ∧ k rest = Some r.
Proof.
  revert least run. induction s as [|x s IH]; intros least run H; simpl in H.
  - destruct least; [|done]. destruct (k []) eqn:Hk; simplify_eq/=.
    split_and!; [constructor|lia|]. by exists [].
  - assert (Hstop : match least with O => pair [] <$> k (x :: s) | S _ => None end
                      = Some (run, r) →
              Forall (λ x, p x = true) run ∧ (least ≤ List.length run)%nat
              ∧ ∃ rest, x :: s = run ++ rest ∧ k rest = Some r).
    { destruct least; [|done]. destruct (k (x :: s)) eqn:Hk; intros; simplify_eq/=.
      split_and!; [constructor|lia|]. by exists (x :: s). }
    destruct (p x) eqn:Hp; [|by apply Hstop].
    destruct (many_greedy p k (Nat.pred least) s) as [[run' r']|] eqn:Hrec;
      [|by apply Hstop].
    simplify_eq. destruct (IH _ _ Hrec) as (Hall & Hlen & rest & -> & Hk).
    split_and!; [by constructor|simpl; lia|]. by exists rest.
Qed.

Lemma many_lazy_sound {A} p (k : str → option A) least s run r :
  many_lazy p k least s = Some (run, r) →
  Forall (λ x, p x = true) run ∧ (least ≤ List.length run)%nat
  ∧ ∃ rest, s = run ++ rest ∧ k rest = Some r.
Proof.
  revert least run. induction s as [|x s IH]; intros least run H; simpl in H.
  - destruct least; [|done]. destruct (k []) eqn:Hk; simplify_eq/=.
    split_and!; [constructor|lia|]. by exists [].
  - assert (Hmore : (if p x then
                       match many_lazy p k (Nat.pred least) s with
                       | Some (run, r) => Some (x :: run, r)
                       | None => None
                       end
                     else None) = Some (run, r) →
              Forall (λ x, p x = true) run ∧ (least ≤ List.length run)%nat
              ∧ ∃ rest, x :: s = run ++ rest ∧ k rest = Some r).
    { destruct (p x) eqn:Hp; [|done].
      destruct (many_lazy p k (Nat.pred least) s) as [[run' r']|] eqn:Hrec; [|done].
      intros; simplify_eq. destruct (IH _ _ Hrec) as (Hall & Hlen & rest & -> & Hk).
      split_and!; [by constructor|simpl; lia|]. by exists rest. }
    destruct least; [|by apply Hmore].
    destruct (k (x :: s)) eqn:Hk; [|by apply Hmore].
    simplify_eq. split_and!; [constructor|simpl; lia|]. by exists (x :: s).
Qed.

(** A match is a prefix of the text, cut into one piece per atom. *)
Lemma match_here_sound (pat : pattern) (s : str) (ps : list str) :
  match_here pat s = Some ps →
  Forall2 atom_text pat ps ∧ ∃ rest, s = concat ps ++ rest.
Proof.
  revert s ps. induction pat as [|a pat IH]; intros s ps H; simpl in H.
  - simplify_eq. split; [constructor|by exists s].
  - destruct a as [c|p|c|p least greedy].
    + destruct s as [|x s]; [done|]. destruct (char_eqb x c) eqn:E; [|done].
      apply char_eqb_eq in E as ->.
      destruct (match_here pat s) as [ps'|] eqn:Hm; simplify_eq/=.
      destruct (IH _ _ Hm) as [HF [rest ->]].
      split; [by constructor|by exists rest].
    + destruct s as [|x s]; [done|]. destruct (p x) eqn:E; [|done].
      destruct (match_here pat s) as [ps'|] eqn:Hm; simplify_eq/=.
      destruct (IH _ _ Hm) as [HF [rest ->]].
      split; [constructor; [by exists x|done]|by exists rest].
    + assert (Hwithout : cons [] <$> match_here pat s = Some ps →
                Forall2 atom_text (Opt c :: pat) ps ∧ ∃ rest, s = concat ps ++ rest).
      { destruct (match_here pat s) as [ps'|] eqn:Hm; intros; simplify_eq/=.
        destruct (IH _ _ Hm) as [HF [rest ->]].
        split; [constructor; [by left|done]|by exists rest]. }
      destruct s as [|x s]; [by apply Hwithout|].
      destruct (char_eqb x c) eqn:E; [|by apply Hwithout].
      destruct (match_here pat s) as [ps'|] eqn:Hm; [|by apply Hwithout].
      apply char_eqb_eq in E as ->. simplify_eq.
      destruct (IH _ _ Hm) as [HF [rest ->]].
      split; [constructor; [by right|done]|by exists rest].
    + destruct greedy.
      * destruct (many_greedy p (match_here pat) least s) as [[run ps']|] eqn:Hm;
          simplify_eq/=.
        apply many_greedy_sound in Hm as (Hall & Hlen & rest & -> & Hk).
        destruct (IH _ _ Hk) as [HF [rest' ->]].
        split; [by constructor|]. exists rest'. by rewrite <- app_assoc.
      * destruct (many_lazy p (match_here pat) least s) as [[run ps']|] eqn:Hm;
          simplify_eq/=.
        apply many_lazy_sound in Hm as (Hall & Hlen & rest & -> & Hk).
        destruct (IH _ _ Hk) as [HF [rest' ->]].
        split; [by constructor|]. exists rest'. by rewrite <- app_assoc.
Qed.

Lemma search_sound (pat : pattern) (s : str) (ps : list str) :
  search pat s = Some ps →
  Forall2 atom_text pat ps ∧ ∃ pre rest, s = pre ++ concat ps ++ rest.
Proof.
  induction s as [|x s IH]; simpl; intros H.
  - destruct (match_here pat []) eqn:Hm; [|done]. simplify_eq.
    destruct (match_here_sound _ _ _ Hm) as [HF [rest Hs]].
    split; [done|]. by exists [], rest.
  - destruct (match_here pat (x :: s)) eqn:Hm.
    + simplify_eq. destruct (match_here_sound _ _ _ Hm) as [HF [rest Hs]].
      split; [done|]. by exists [], rest.
    + destruct (IH H) as [HF (pre & rest & ->)].
      split; [done|]. by exists (x :: pre), rest.
Qed.

(** ** Runs of a script *)

Lemma follows_refl st : follows st st [] [].
Proof. split; by rewrite ?app_nil_r. Qed.

Lemma follows_trans a b c ws1 ws2 evs1 evs2 :
  follows a b ws1 evs1 → follows b c ws2 evs2 → follows a c (ws1 ++ ws2) (evs1 ++ evs2).
Proof.
  intros [F1 W1 L1] [F2 W2 L2]. split.
  - set_solver.
  - by rewrite W2, W1, app_assoc.
  - by rewrite L2, L1, app_assoc.
Qed.

Lemma follows_events {A} (m : M A) st ws evs :
  follows st (m st).2 ws evs → events_of m st = evs.
Proof. intros [_ _ L]. unfold events_of. by rewrite L, drop_app_length. Qed.

Lemma follows_chunks {A} (m : M A) st ws evs :
  follows st (m st).2 ws evs → chunks_of m st = ws.
Proof. intros [_ L _]. unfold chunks_of. by rewrite L, drop_app_length. Qed.

Lemma advance_nil st : advance ∅ [] [] st = st.
Proof.
  destruct st as [fs ws evs]. unfold advance; simpl.
  by rewrite (left_id_L ∅ (∪)), !app_nil_r.
Qed.

Lemma advance_advance new1 ws1 evs1 new2 ws2 evs2 st :
  advance new2 ws2 evs2 (advance new1 ws1 evs1 st)
  = advance (new2 ∪ new1) (ws1 ++ ws2) (evs1 ++ evs2) st.
Proof. unfold advance; simpl. by rewrite !app_assoc, (assoc_L (∪)). Qed.

Lemma follows_advance new ws evs st : follows st (advance new ws evs st) ws evs.
Proof. split; simpl; [set_solver|done|done]. Qed.

Lemma events_of_advance {A} (m : M A) st r new ws evs :
  m st = (r, advance new ws evs st) → events_of m st = evs.
Proof. intros E. apply (follows_events m st ws). rewrite E. apply follows_advance. Qed.

Lemma chunks_of_advance {A} (m : M A) st r new ws evs :
  m st = (r, advance new ws evs st) → chunks_of m st = ws.
Proof. intros E. apply (follows_chunks m st ws evs). rewrite E. apply follows_advance. Qed.

Lemma bind_done {A B} (m : M A) (k : A → M B) st a st1 :
  m st = (Done a, st1) → (m ≫= k) st = k a st1.
Proof. intros E. unfold mbind, script_bind, bind. by rewrite E. Qed.

Lemma bind_raised {A B} (m : M A) (k : A → M B) st e st1 :
  m st = (Raised e, st1) → (m ≫= k) st = (Raised e, st1).
Proof. intros E. unfold mbind, script_bind, bind. by rewrite E. Qed.

Lemma emit_run e st : emit e st = (Done tt, advance ∅ [] [e] st).
Proof. unfold emit, advance. by rewrite (left_id_L ∅ (∪)), app_nil_r. Qed.

Lemma write_run w st : write w st = (Done tt, advance ∅ [w] [] st).
Proof. unfold write, advance. by rewrite (left_id_L ∅ (∪)), app_nil_r. Qed.

Lemma create_file_run p st : create_file p st = (Done tt, advance {[p]} [] [] st).
Proof. unfold create_file, advance. by rewrite !app_nil_r. Qed.

Lemma tts_save_ok W text p st :
  tts_ok W text = true →
  tts_save W text p st = (Done tt, advance {[p]} [] [ESynthesize text p] st).
Proof. intros E. unfold tts_save, advance. rewrite E; simpl. by rewrite app_nil_r. Qed.

Lemma tts_save_fails W text p st :
  tts_ok W text = false →
  tts_save W text p st = (Raised SynthesisFailure, advance ∅ [] [ESynthesize text p] st).
Proof.
  intros E. unfold tts_save, advance. rewrite E; simpl.
  by rewrite (left_id_L ∅ (∪)), app_nil_r.
Qed.

(** ** kelly_to_anki.py: one word *)

Section KellyWord.
Context (U : Runtime) (W : World).

Lemma process_word_blank word st :
  truthy (strip word) = false → Kelly.process_word U W word st = (Done (None, None), st).
Proof. intros E. unfold Kelly.process_word. by rewrite E. Qed.

Lemma lookup_run word st :
  (entry_html ← Kelly.get_folkets_entry U W (py_lower U (Kelly.query_of word));
   if negb (Kelly.truthy_opt entry_html) then Kelly.fallback W (Kelly.query_of word)
   else mret entry_html) st
  = (Done (lookup_content U W word), advance ∅ [] (lookup_events U W word) st).
Proof.
  unfold Kelly.get_folkets_entry, Kelly.fallback, lookup_content, lookup_events.
  rewrite (bind_done _ _ _ _ _ (bind_done _ _ _ _ _ (emit_run _ _))).
  destruct (Kelly.truthy_opt _); simpl; [done|].
  rewrite (bind_done _ _ _ _ _ (emit_run _ _)).
  unfold mret, script_ret, ret. by rewrite advance_advance, (left_id_L ∅ (∪)).
Qed.

Lemma process_word_nomatch word st :
  truthy (strip word) = true → lookup_content U W word = None →
  Kelly.process_word U W word st = (Done (None, None), advance ∅ [] (lookup_events U W word) st).
Proof.
  intros E1 E2. unfold Kelly.process_word. rewrite E1; simpl.
  pose proof (lookup_run word st) as Hl.
  unfold mbind, script_bind, bind in *.
  destruct (Kelly.get_folkets_entry U W _ st) as [[o|e] st1]; [|done].
  destruct (negb (Kelly.truthy_opt o)).
  - rewrite Hl, E2. done.
  - rewrite Hl, E2. done.
Qed.

Lemma process_word_found word st html :
  truthy (strip word) = true → lookup_content U W word = Some html →
  Kelly.process_word U W word st
  = resolve U W (Kelly.query_of word) html (advance ∅ [] (lookup_events U W word) st).
Proof.
  intros E1 E2. unfold Kelly.process_word, resolve. rewrite E1; simpl.
  pose proof (lookup_run word st) as Hl.
  unfold mbind, script_bind, bind in *.
  destruct (Kelly.get_folkets_entry U W _ st) as [[o|e] st1]; [|done].
  destruct (negb (Kelly.truthy_opt o)); rewrite Hl, E2; done.
Qed.

Lemma synthesize_none q st :
  ∃ r new evs, synthesized W (files st) q r new evs
    ∧ Kelly.synthesize W q None st = (r, advance new [] evs st).
Proof.
  unfold Kelly.synthesize; simpl. fold (tts_name q). fold (tts_path q).
  unfold path_exists. unfold mbind at 1, script_bind, bind.
  destruct (bool_decide (tts_path q ∈ files st)) eqn:Hp.
  - apply bool_decide_eq_true in Hp. eexists _, _, _. split; [by apply syn_reuse|].
    unfold mbind, mret, script_bind, script_ret, bind, ret. by rewrite advance_nil.
  - apply bool_decide_eq_false in Hp. destruct (tts_ok W q) eqn:Ht.
    + eexists _, _, _. split; [by apply syn_new|].
      by rewrite (bind_done _ _ _ _ _ (tts_save_ok _ _ _ _ Ht)).
    + eexists _, _, _. split; [by apply syn_fail|].
      by rewrite (bind_raised _ _ _ _ _ (tts_save_fails _ _ _ _ Ht)).
Qed.

Lemma synthesize_kept q name st :
  truthy name = true → Kelly.synthesize W q (Some name) st = (Done (Some name), st).
Proof. intros E. unfold Kelly.synthesize; simpl. by rewrite E. Qed.

End KellyWord.

(** ** The audio link of a content *)

Lemma basename_go_no_slash (s cur : str) :
  Forall (λ c, char_eqb c (ch "/") = false) s → basename_go s cur = rev cur ++ s.
Proof.
  revert cur. induction s as [|c s IH]; intros cur H; cbn [basename_go].
  - by rewrite app_nil_r.
  - inversion H as [|? ? Hc Hs]; subst. rewrite Hc, IH by done.
    simpl. by rewrite <- app_assoc.
Qed.

Lemma basename_go_app (a b cur : str) :
  Forall (λ c, char_eqb c (ch "/") = false) b →
  basename_go (a ++ b) cur = basename_go a cur ++ b.
Proof.
  revert cur. induction a as [|c a IH]; intros cur H; cbn [basename_go app].
  - by apply basename_go_no_slash.
  - destruct (char_eqb c (ch "/")); by apply IH.
Qed.

(** The base name of a path that ends in [.mp3] ends in [.mp3]. *)
Lemma basename_mp3 (stem : str) :
  basename (stem ++ lit ".mp3") = basename stem ++ lit ".mp3".
Proof. apply basename_go_app. by repeat constructor. Qed.

(** What [extract_mp3_url] returns is an [http] or [https] address that
    ends in [.mp3], holds no quote, and stands quoted after [href=]. *)
(** Evaluates the literals of the goal and of the hypotheses. *)
Ltac eval_lits :=
  repeat match goal with
         | |- context [lit ?s] =>
             let v := eval vm_compute in (lit s) in change (lit s) with v
         | |- context [ch ?a] =>
             let v := eval vm_compute in (ch a) in change (ch a) with v
         | H : context [lit ?s] |- _ =>
             let v := eval vm_compute in (lit s) in change (lit s) with v in H
         | H : context [ch ?a] |- _ =>
             let v := eval vm_compute in (ch a) in change (ch a) with v in H
         end.

Lemma extract_mp3_url_shape (html url : str) :
  Kelly.extract_mp3_url html = Some url →
  ∃ s run q1 q2 pre post,
    (s = [] ∨ s = lit "s") ∧ Forall (λ c, Kelly.not_quote c = true) run ∧ run ≠ []
    ∧ Kelly.is_quote q1 = true ∧ Kelly.is_quote q2 = true
    ∧ url = lit "http" ++ s ++ lit "://" ++ run ++ lit ".mp3"
    ∧ html = pre ++ lit "href=" ++ [q1] ++ url ++ [q2] ++ post.
Proof.
  unfold Kelly.extract_mp3_url. destruct (search Kelly.mp3_href html) as [ps|] eqn:Hs; [|done].
  intros [= <-]. apply search_sound in Hs as [HF (pre & post & ->)].
  unfold Kelly.mp3_href, lits in HF. eval_lits. cbn [map app] in HF.
  repeat match goal with
         | H : Forall2 atom_text (_ :: _) _ |- _ =>
             apply Forall2_cons_inv_l in H as (? & ? & ? & H & ->)
         | H : Forall2 atom_text [] _ |- _ => apply Forall2_nil_inv_l in H as ->
         end.
  cbn [atom_text] in *.
  repeat match goal with
         | H : ∃ _, _ |- _ => destruct H as (? & -> & ?)
         | H : _ ∧ _ |- _ => destruct H
         | H : ?x = [_] |- _ => subst x
         end.
  match goal with H : _ ∨ _ |- _ => rename H into Hopt end.
  match goal with H : Forall _ ?r |- _ => rename H into Hrun; rename r into run end.
  eexists _, run, _, _, pre, post. split_and!; cycle 6.
  - unfold group; cbn [skipn firstn concat app].
    repeat first [rewrite <- app_assoc | progress cbn [app]]. reflexivity.
  - exact Hopt.
  - exact Hrun.
  - intros ->; simpl in *; lia.
  - done.
  - done.
  - unfold group; cbn [skipn firstn concat app].
    by rewrite ?app_nil_r.
Qed.

Lemma truthy_app_r (a b : str) : truthy b = true → truthy (a ++ b) = true.
Proof. destruct a; [done|]. done. Qed.

Lemma extract_mp3_url_truthy (html url : str) :
  Kelly.extract_mp3_url html = Some url →
  truthy url = true ∧ truthy (basename url) = true.
Proof.
  intros H. apply extract_mp3_url_shape in H as (s & run & _ & _ & _ & _ & _ & _ & _ & _ & _ & -> & _).
  split; [done|].
  rewrite !app_assoc, basename_mp3. by apply truthy_app_r.
Qed.

(** Closes an equation between a final state and its [advance] form. *)
Ltac state_eq :=
  unfold advance; simpl;
  rewrite ?(left_id_L ∅ (∪)), ?(right_id_L ∅ (∪)), ?app_nil_r, <- ?app_assoc;
  simpl; try done.

(** ** kelly_to_anki.py: the audio of one word *)

Section KellyAudio.
Context (U : Runtime) (W : World).

Lemma resolve_run q html st :
  ∃ r new evs, resolved U W (files st) q html r new evs
    ∧ resolve U W q html st = (r, advance new [] evs st).
Proof.
  unfold resolve, Kelly.fetch_audio.
  destruct (Kelly.extract_mp3_url html) as [url|] eqn:Hx.
  - destruct (extract_mp3_url_truthy _ _ Hx) as [Hu Hn]. rewrite Hu.
    fold (url_path url). unfold path_exists.
    destruct (decide (url_path url ∈ files st)) as [Hp|Hp].
    + exists (marked U html url), ∅, []. split; [by apply res_reuse|].
      unfold marked, with_marker, Kelly.sub_or_raise.
      unfold mbind, script_bind, bind, mret, script_ret, ret, raise.
      rewrite (bool_decide_eq_true_2 _ Hp).
      destruct (re_sub _ _ _ html); simpl; rewrite advance_nil; [|done].
      by rewrite synthesize_kept.
    + destruct (http_get_ok W url) eqn:Hg.
      * exists (marked U html url), {[ url_path url ]}, [EDownload url (url_path url)].
        split; [by apply res_download|].
        unfold marked, with_marker, Kelly.sub_or_raise, emit, create_file.
        unfold mbind, script_bind, bind, mret, script_ret, ret, raise.
        rewrite (bool_decide_eq_false_2 _ Hp). simpl.
        destruct (re_sub _ _ _ html); simpl.
        -- rewrite synthesize_kept by done. by state_eq.
        -- by state_eq.
      * destruct (synthesize_none W q
                    {| files := files st; written := written st;
                       log := log st ++ [EDownload url (url_path url)] |})
          as (r & new & evs & Hs & Hrun).
        exists (voiced html r), new, (EDownload url (url_path url) :: evs).
        split; [by apply res_fall_through|].
        unfold emit.
        unfold mbind, script_bind, bind, mret, script_ret, ret, raise in *.
        rewrite (bool_decide_eq_false_2 _ Hp). simpl. rewrite Hrun.
        destruct r; simpl; f_equal; by state_eq.
  - destruct (synthesize_none W q st) as (r & new & evs & Hs & Hrun).
    exists (voiced html r), new, evs. split; [by apply res_no_link|].
    unfold mbind, script_bind, bind, mret, script_ret, ret. rewrite Hrun.
    by destruct r.
Qed.
End KellyAudio.

(** ** kelly_to_anki.py: [process_word] as a whole *)

Section KellyRun.
Context (U : Runtime) (W : World).

Lemma process_word_run word st :
  ∃ r new evs, word_run U W (files st) word r new evs
    ∧ Kelly.process_word U W word st = (r, advance new [] evs st).
Proof.
  destruct (truthy (strip word)) eqn:Hd.
  - destruct (lookup_content U W word) as [html|] eqn:Hl.
    + destruct (resolve_run U W (Kelly.query_of word) html
                  (advance ∅ [] (lookup_events U W word) st))
        as (r & new & evs & Hr & Hrun).
      exists r, new, (lookup_events U W word ++ evs). split.
      * apply (word_found _ _ _ _ html); try done.
        simpl in Hr. by rewrite (left_id_L ∅ (∪)) in Hr.
      * rewrite (process_word_found U W word st html) by done.
        rewrite Hrun, advance_advance. by rewrite (right_id_L ∅ (∪)).
    + exists (Done (None, None)), ∅, (lookup_events U W word).
      split; [by apply word_nomatch|]. by apply process_word_nomatch.
  - exists (Done (None, None)), ∅, []. split; [by apply word_blank|].
    rewrite advance_nil. by apply process_word_blank.
Qed.

(** C4 (as amended): the guard of [process_word] tests the display
    string.  A word that is blank after trimming is skipped with no call
    made; every other word reaches the dictionary fetch, also when its
    query string is empty. *)
Theorem blank_display_skipped_before_lookup (word : str) (st : state) :
  (strip word = [] →
     Kelly.process_word U W word st = (Done (None, None), st)
     ∧ events_of (Kelly.process_word U W word) st = [])
  ∧ (strip word ≠ [] →
     ∃ later, events_of (Kelly.process_word U W word) st
              = EFetch (py_lower U (Kelly.query_of word)) :: later).
Proof.
  split.
  - intros E. assert (Hb : truthy (strip word) = false) by by rewrite E.
    split; [by apply process_word_blank|].
    unfold events_of. rewrite (process_word_blank U W word st Hb); simpl.
    by rewrite drop_all.
  - intros E. assert (Hb : truthy (strip word) = true) by by destruct (strip word).
    destruct (process_word_run word st) as (r & new & evs & Hw & Hrun).
    rewrite (events_of_advance _ _ _ _ _ _ Hrun).
    inversion Hw; subst; [congruence| |]; unfold lookup_events; simpl; eauto.
Qed.

(** C5 (as amended): the dictionary fetch is called with the query
    string in lower case, the translation with the query string as it
    is. *)
Theorem lookup_arguments (word : str) (st : state) (q : str) :
  (EFetch q ∈ events_of (Kelly.process_word U W word) st →
     q = py_lower U (Kelly.query_of word))
  ∧ (ETranslate q ∈ events_of (Kelly.process_word U W word) st →
     q = Kelly.query_of word).
Proof.
  destruct (process_word_run word st) as (r & new & evs & Hw & Hrun).
  rewrite (events_of_advance _ _ _ _ _ _ Hrun).
  assert (Hlook : ∀ e, e ∈ lookup_events U W word →
            e = EFetch (py_lower U (Kelly.query_of word))
            ∨ e = ETranslate (Kelly.query_of word)).
  { intros e. unfold lookup_events. destruct (Kelly.truthy_opt _); set_solver. }
  assert (Hsyn : ∀ fs q' r' new' evs' e, synthesized W fs q' r' new' evs' → e ∈ evs' →
            ∃ t p, e = ESynthesize t p).
  { intros ? ? ? ? ? e Hs He. inversion Hs; subst; set_solver. }
  assert (Hres : ∀ fs q' h r' new' evs' e, resolved U W fs q' h r' new' evs' → e ∈ evs' →
            (∃ t p, e = ESynthesize t p) ∨ (∃ u p, e = EDownload u p)).
  { intros ? ? ? ? ? ? e Hr He. inversion Hr; subst.
    - left. eauto.
    - set_solver.
    - right. set_solver.
    - apply elem_of_cons in He as [->|He]; [right; eauto|left; eauto]. }
  split; intros Hin.
  - inversion Hw; subst.
    + set_solver.
    + apply Hlook in Hin as [Hin|Hin]; congruence.
    + apply elem_of_app in Hin as [Hin|Hin].
      * apply Hlook in Hin as [Hin|Hin]; congruence.
      * eapply Hres in Hin as [(?&?&?)|(?&?&?)]; [| |done]; congruence.
  - inversion Hw; subst.
    + set_solver.
    + apply Hlook in Hin as [Hin|Hin]; congruence.
    + apply elem_of_app in Hin as [Hin|Hin].
      * apply Hlook in Hin as [Hin|Hin]; congruence.
      * eapply Hres in Hin as [(?&?&?)|(?&?&?)]; [| |done]; congruence.
Qed.

End KellyRun.

(** ** kelly_to_anki.py: the loop over the rows *)

Lemma for_each_write_run (chunks : list str) (st : state) :
  for_each chunks write st = (Done tt, advance ∅ chunks [] st).
Proof.
  revert st. induction chunks as [|c chunks IH]; intros st; simpl.
  - unfold ret. by rewrite advance_nil.
  - unfold bind. rewrite write_run, IH, advance_advance. by state_eq.
Qed.

Lemma length_dropna (rows : Kelly.sheet) :
  (List.length (Kelly.dropna rows) ≤ List.length rows)%nat.
Proof.
  induction rows as [|[[w|] t] rows IH]; simpl; [lia| |].
  - unfold Kelly.dropna in *. simpl. lia.
  - unfold Kelly.dropna in *. simpl. lia.
Qed.

Section KellyRows.
Context (U : Runtime) (W : World).

Lemma row_body_run (row : str * str) (st : state) :
  ∃ r new evs, word_run U W (files st) (strip row.1) r new evs
    ∧ Kelly.row_body U W row st
      = (match r with Done res => Done tt | Raised e => Raised e end,
         advance new (match r with Done res => row_chunks row res | Raised _ => [] end)
           evs st).
Proof.
  destruct (process_word_run U W (strip row.1) st) as (r & new & evs & Hw & Hrun).
  exists r, new, evs. split; [done|].
  unfold Kelly.row_body, mbind, script_bind, bind. rewrite Hrun.
  destruct r as [[definition sound]|e]; [|done].
  unfold row_chunks; simpl. destruct (Kelly.truthy_opt definition); simpl.
  - rewrite write_run, advance_advance. by state_eq.
  - unfold mret, script_ret, ret. by state_eq.
Qed.

Lemma rows_loop_run (df : list (str * str)) (st : state) :
  ∃ r new ws evs, rows_run U W (files st) df r new ws evs
    ∧ for_each df (Kelly.row_body U W) st = (r, advance new ws evs st).
Proof.
  revert st. induction df as [|row df IH]; intros st.
  - exists (Done tt), ∅, [], []. split; [constructor|].
    simpl. unfold ret. by rewrite advance_nil.
  - destruct (row_body_run row st) as (r & new & evs & Hw & Hrun).
    destruct r as [res|e].
    + destruct (IH (advance new (row_chunks row res) evs st))
        as (r' & new' & ws & evs' & Hrows & Hloop).
      exists r', (new' ∪ new), (row_chunks row res ++ ws), (evs ++ evs').
      split; [by eapply rows_next|].
      simpl. unfold bind. by rewrite Hrun, Hloop, advance_advance.
    + exists (Raised e), new, [], evs. split; [by apply rows_raised|].
      simpl. unfold bind. by rewrite Hrun.
Qed.

Lemma rows_run_length fs df r new ws evs :
  rows_run U W fs df r new ws evs → (List.length ws ≤ List.length df)%nat.
Proof.
  induction 1 as [| |fs row df res new evs r new' ws evs' Hw Hrows IH]; simpl; [lia..|].
  rewrite length_app. unfold row_chunks. destruct (Kelly.truthy_opt _); simpl; lia.
Qed.

(** The whole script: the header, then the records of the loop. *)
Lemma kelly_main_run (rows : Kelly.sheet) (st : state) :
  ∃ r new ws evs,
    rows_run U W ({[ Kelly.OUTPUT_FILE ]} ∪ files st) (Kelly.dropna rows) r new ws evs
    ∧ Kelly.main U W rows st
      = (r, advance (new ∪ {[ Kelly.OUTPUT_FILE ]}) (Kelly.header ++ ws) evs st).
Proof.
  destruct (rows_loop_run (Kelly.dropna rows)
              (advance {[ Kelly.OUTPUT_FILE ]} Kelly.header [] st))
    as (r & new & ws & evs & Hrows & Hloop).
  exists r, new, ws, evs. split; [done|].
  unfold Kelly.main, mbind, script_bind, bind.
  rewrite create_file_run, for_each_write_run, advance_advance.
  replace (advance (∅ ∪ {[Kelly.OUTPUT_FILE]}) ([] ++ Kelly.header) ([] ++ []) st)
    with (advance {[ Kelly.OUTPUT_FILE ]} Kelly.header [] st) by by state_eq.
  by rewrite Hloop, advance_advance.
Qed.

End KellyRows.

(** ** The calls of the audio steps *)

Lemma synthesized_calls W fs q r new evs :
  synthesized W fs q r new evs → Forall is_audio_call evs.
Proof. destruct 1; repeat constructor. Qed.

Lemma resolved_calls U W fs q html r new evs :
  resolved U W fs q html r new evs → Forall is_audio_call evs.
Proof.
  destruct 1 as [r new evs _ Hs| | |url r new evs _ _ _ Hs];
    repeat constructor; by eapply synthesized_calls.
Qed.

Lemma resolved_content U W fs q html content sound new evs :
  resolved U W fs q html (Done (Some content, sound)) new evs →
  content = html ∨ ∃ url, Kelly.extract_mp3_url html = Some url
                          ∧ with_marker U html url = Some content.
Proof.
  inversion 1 as [r ? ? _ _ Hr|url Hx _ Hr|url Hx _ _ Hr|url r ? ? _ _ _ _ Hr]; subst.
  - destruct r; simplify_eq/=. by left.
  - unfold marked in Hr. destruct (with_marker U html url) eqn:E; simplify_eq. eauto.
  - unfold marked in Hr. destruct (with_marker U html url) eqn:E; simplify_eq. eauto.
  - destruct r; simplify_eq/=. by left.
Qed.

(** ** The lines of a record *)

Lemma newlines_app (a b : str) : newlines (a ++ b) = (newlines a + newlines b)%nat.
Proof. unfold newlines. by rewrite List.filter_app, length_app. Qed.

Lemma newlines_none (s : str) : newlines s = O ↔ Kelly.nl ∉ s.
Proof.
  unfold newlines. induction s as [|c s IH]; cbn [List.filter].
  - split; [intros _; apply not_elem_of_nil|done].
  - destruct (char_eqb c Kelly.nl) eqn:E.
    + apply char_eqb_eq in E. subst c. cbn [List.length].
      split; [done|]. intros H. exfalso. apply H. constructor.
    + rewrite IH. split.
      * intros H Hin. apply elem_of_cons in Hin as [Heq|Hin]; [|done].
        subst c. by rewrite char_eqb_refl in E.
      * intros H Hin. apply H. by constructor.
Qed.

(** A record makes one line and one more for every newline in its fields. *)
Lemma newlines_record (word def_line tags_field : str) :
  newlines (Kelly.record_line word def_line tags_field)
  = (1 + newlines word + newlines def_line + newlines tags_field)%nat.
Proof.
  unfold Kelly.record_line. rewrite !newlines_app.
  change (newlines [Kelly.tab]) with O. change (newlines [Kelly.nl]) with 1%nat. lia.
Qed.

Lemma newlines_one_line (word def_line tags_field : str) :
  newlines (Kelly.record_line word def_line tags_field) = 1%nat
  ↔ Kelly.nl ∉ word ∧ Kelly.nl ∉ def_line ∧ Kelly.nl ∉ tags_field.
Proof. rewrite newlines_record, <- !newlines_none. lia. Qed.

Lemma newlines_concat (records : list str) :
  Forall (λ record, newlines record = 1%nat) records →
  newlines (concat records) = List.length records.
Proof.
  induction 1 as [|r records Hr _ IH]; [done|].
  cbn [concat List.length]. rewrite newlines_app, Hr, IH. done.
Qed.

Section RowLines.
Context (U : Runtime) (W : World).

(** What the loop writes for a row: nothing, or one record with the
    trimmed word and the trimmed level as they are. *)
Lemma row_body_chunks (row : str * str) (st : state) :
  chunks_of (Kelly.row_body U W row) st = []
  ∨ ∃ def_line,
      chunks_of (Kelly.row_body U W row) st
      = [Kelly.record_line (strip row.1) def_line (strip row.2)].
Proof.
  destruct (row_body_run U W row st) as (r & new & evs & Hw & Hrun).
  rewrite (chunks_of_advance _ _ _ _ _ _ Hrun).
  destruct r as [res|e]; [|by left]. unfold row_chunks.
  destruct (Kelly.truthy_opt res.1); [right; by eexists|by left].
Qed.

End RowLines.

Section KellyLookups.
Context (U : Runtime) (W : World).

(** C1 (as amended): the translation is called only when the dictionary
    gave nothing usable; the content of a record comes from exactly one
    of the two lookups; a word for which both give nothing gets no
    record; and the script writes at most one record per row of the
    sheet.  A row gives nothing or one record, with the trimmed word and
    the trimmed level written as they are: the record is one line of
    the output exactly when none of its three fields holds a newline,
    and when every record is one line the output has at most as many
    data lines as the sheet has rows. *)
Theorem fallback_only_after_primary_and_record_count :
  (∀ (word : str) (st : state),
     let q := Kelly.query_of word in
     let primary := Kelly.folkets_html U W (py_lower U q) in
     (∀ q', ETranslate q' ∈ events_of (Kelly.process_word U W word) st →
            Kelly.truthy_opt primary = false)
     ∧ (∀ content sound,
          (Kelly.process_word U W word st).1 = Done (Some content, sound) →
          ∃ html,
            (content = html ∨ ∃ url, with_marker U html url = Some content)
            ∧ ((Kelly.truthy_opt primary = true ∧ primary = Some html
                ∧ ∀ q', ETranslate q' ∉ events_of (Kelly.process_word U W word) st)
               ∨ (Kelly.truthy_opt primary = false
                  ∧ Kelly.translated_text W q = Some html)))
     ∧ (Kelly.truthy_opt primary = false → Kelly.translated_text W q = None →
          (Kelly.process_word U W word st).1 = Done (None, None)))
  ∧ (∀ (row : str * str) (st : state),
       let q := Kelly.query_of (strip row.1) in
       Kelly.truthy_opt (Kelly.folkets_html U W (py_lower U q)) = false →
       Kelly.translated_text W q = None →
       chunks_of (Kelly.row_body U W row) st = [])
  ∧ (∀ (rows : Kelly.sheet) (st : state),
       ∃ records,
         chunks_of (Kelly.main U W rows) st = Kelly.header ++ records
         ∧ (List.length records ≤ List.length rows)%nat
         ∧ (Forall (λ record, newlines record = 1%nat) records →
            (newlines (concat records) ≤ List.length rows)%nat))
  ∧ (∀ (row : str * str) (st : state),
       chunks_of (Kelly.row_body U W row) st = []
       ∨ ∃ def_line,
           let record := Kelly.record_line (strip row.1) def_line (strip row.2) in
           chunks_of (Kelly.row_body U W row) st = [record]
           ∧ newlines record
             = (1 + newlines (strip row.1) + newlines def_line + newlines (strip row.2))%nat
           ∧ (newlines record = 1%nat
              ↔ Kelly.nl ∉ strip row.1 ∧ Kelly.nl ∉ def_line ∧ Kelly.nl ∉ strip row.2)).
Proof.
  assert (Hnone : ∀ word, Kelly.truthy_opt
            (Kelly.folkets_html U W (py_lower U (Kelly.query_of word))) = false →
            Kelly.translated_text W (Kelly.query_of word) = None →
            lookup_content U W word = None).
  { intros word E1 E2. unfold lookup_content. by rewrite E1. }
  split_and!.
  - intros word st q primary.
    destruct (process_word_run U W word st) as (r & new & evs & Hw & Hrun).
    rewrite (events_of_advance _ _ _ _ _ _ Hrun), Hrun. simpl.
    assert (Hlate : ∀ fs h r' new' evs' q', resolved U W fs q h r' new' evs' →
              ETranslate q' ∉ evs').
    { intros ? ? ? ? ? q' Hr Hin. apply resolved_calls in Hr.
      rewrite Forall_forall in Hr. exact (Hr _ Hin). }
    split_and!.
    + intros q' Hin. inversion Hw as [|_ _|html ? ? evs' _ _ Hr]; subst.
      * set_solver.
      * unfold lookup_events in Hin. fold q primary in Hin.
        destruct (Kelly.truthy_opt primary); [set_solver|done].
      * apply elem_of_app in Hin as [Hin|Hin]; [|by eapply Hlate in Hin].
        unfold lookup_events in Hin. fold q primary in Hin.
        destruct (Kelly.truthy_opt primary); [set_solver|done].
    + intros content sound [= ->].
      inversion Hw as [| |html ? ? evs' _ Hl Hr]; subst.
      exists html. split.
      { apply resolved_content in Hr as [->|(url & _ & Hm)]; eauto. }
      unfold lookup_content, lookup_events in *. fold q primary in Hl |- *.
      destruct (Kelly.truthy_opt primary) eqn:Hp; [left|right; done].
      split_and!; [done..|]. intros q' Hin.
      apply elem_of_app in Hin as [Hin|Hin]; [set_solver|by eapply Hlate in Hin].
    + intros E1 E2. specialize (Hnone word E1 E2).
      inversion Hw; subst; [done..|congruence].
  - intros row st q E1 E2. specialize (Hnone _ E1 E2).
    destruct (row_body_run U W row st) as (r & new & evs & Hw & Hrun).
    rewrite (chunks_of_advance _ _ _ _ _ _ Hrun).
    inversion Hw; subst; [done..|congruence].
  - intros rows st.
    destruct (kelly_main_run U W rows st) as (r & new & ws & evs & Hrows & Hrun).
    exists ws. rewrite (chunks_of_advance _ _ _ _ _ _ Hrun). split; [done|].
    apply rows_run_length in Hrows. pose proof (length_dropna rows).
    split; [lia|]. intros Hone. rewrite newlines_concat by done. lia.
  - intros row st. destruct (row_body_chunks U W row st) as [Hempty|[def_line Hone]];
      [by left|right].
    exists def_line. split_and!; [done|apply newlines_record|apply newlines_one_line].
Qed.

End KellyLookups.

(** ** kelly_to_anki.py: the sound of a record *)

Lemma synthesized_sound W fs q sound new evs :
  synthesized W fs q (Done sound) new evs →
  sound = Some (tts_name q) ∧ tts_path q ∈ new ∪ fs.
Proof. inversion 1; subst; split; set_solver. Qed.


Section KellySound.
Context (U : Runtime) (W : World).


End KellySound.


(** The counterexample of C1: the one row of the sheet has a word with
    a newline inside.  Its record is written with the word as it is, so
    the output has two data lines for one term. *)
Lemma word_with_newline_makes_two_data_lines :
  let word := lit "a" ++ [Kelly.nl] ++ lit "b" in
  let W := one_word_world word (lit "<p>x</p>") in
  let rows := [(Some word, Some (lit "A1"))] in
  chunks_of (Kelly.main latin1_only W rows) (initial ∅)
  = Kelly.header
    ++ [word ++ [Kelly.tab] ++ lit "<p>x</p> [sound:a_b.mp3]" ++ [Kelly.tab] ++ lit "A1"
        ++ [Kelly.nl]]
  ∧ List.length rows = 1%nat
  ∧ newlines (word ++ [Kelly.tab] ++ lit "<p>x</p> [sound:a_b.mp3]" ++ [Kelly.tab]
              ++ lit "A1" ++ [Kelly.nl]) = 2%nat.
Proof. vm_compute. by repeat split. Qed.

(** C3, the failing input: the dictionary paragraph of [hej] already
    holds the text [[sound:], in a sentence about Anki.  The audio
    [hej.mp3] is synthesized, but the guard of [main], which is to make
    sure that the sound tag appears, sees [[sound:] and appends nothing:
    the record is the paragraph as it was, and since it holds no closing
    bracket it holds no marker of any file. *)
Lemma record_without_marker_of_resolved_audio :
  let page := lit "<p>[sound: is an Anki tag</p>" in
  let W := one_word_world (lit "hej") page in
  let run := Kelly.main latin1_only W [(Some (lit "hej"), Some (lit "A1"))] (initial ∅) in
  run.1 = Done tt
  ∧ log run.2 = [EFetch (lit "hej"); ESynthesize (lit "hej") (lit "media/hej.mp3")]
  ∧ written run.2
    = Kelly.header ++ [lit "hej" ++ [Kelly.tab] ++ page ++ [Kelly.tab] ++ lit "A1"
                       ++ [Kelly.nl]]
  ∧ contains (Kelly.sound_marker (lit "hej.mp3")) page = false
  ∧ char_in (ch "]") page = false.
Proof. vm_compute. by repeat split. Qed.

(** The counterexample of C4: the word [(x)] is not blank, so it is not
    skipped, but its query string is empty; the dictionary and then the
    translation are called with the empty string. *)
Lemma empty_query_reaches_lookup :
  let W := one_word_world (lit "hej") (lit "<p>hello</p>") in
  strip (lit "(x)") = lit "(x)"
  ∧ Kelly.query_of (lit "(x)") = []
  ∧ Kelly.process_word latin1_only W (lit "(x)") (initial ∅)
    = (Done (None, None),
       {| files := ∅; written := []; log := [EFetch []; ETranslate []] |}).
Proof. vm_compute. by repeat split. Qed.

(** The counterexample of C5: for the word [Hej], which the dictionary
    does not know, the fetch is called with [hej] and the translation
    with [Hej], which is not its lower case. *)
Lemma translation_called_with_original_case :
  let W := one_word_world (lit "hund") (lit "<p>dog</p>") in
  Kelly.query_of (lit "Hej") = lit "Hej"
  ∧ py_lower latin1_only (lit "Hej") = lit "hej"
  ∧ log (Kelly.process_word latin1_only W (lit "Hej") (initial ∅)).2
    = [EFetch (lit "hej"); ETranslate (lit "Hej")]
  ∧ lit "Hej" ≠ py_lower latin1_only (lit "Hej").
Proof. vm_compute. by repeat split. Qed.

(** ** riksdagen_law_glossary_anki.py: the loop over the entries *)

Section GlossaryRun.
Context (U : Runtime) (W : World).

Lemma entries_loop_run eng_map (entries : list (str * str)) (st : state) :
  ∃ r new recorded spoken,
    entries_run U W (files st) entries r new recorded spoken
    ∧ for_each entries (Glossary.entry_body U W eng_map) st
      = (r, advance new (Glossary.record_of U eng_map <$> recorded)
              (synthesis_of U <$> spoken) st).
Proof.
  revert st. induction entries as [|[term sw_def] entries IH]; intros st.
  - exists (Done tt), ∅, [], []. split; [constructor|].
    simpl. unfold ret. by rewrite advance_nil.
  - cbn [for_each]. unfold Glossary.entry_body at 1. fold (term_path U term).
    unfold bind at 1, mbind at 1, script_bind, bind, path_exists.
    destruct (decide (term_path U term ∈ files st)) as [Hp|Hp].
    + rewrite (bool_decide_eq_true_2 _ Hp).
      unfold mbind, script_bind, bind, mret, script_ret, ret. rewrite write_run.
      destruct (IH (advance ∅ [Glossary.record_of U eng_map (term, sw_def)] [] st))
        as (r & new & recorded & spoken & Hrun & Hloop).
      simpl in Hrun. rewrite (left_id_L ∅ (∪)) in Hrun.
      exists r, new, ((term, sw_def) :: recorded), spoken.
      split; [by apply entries_reuse|].
      unfold Glossary.record_of at 1 in Hloop. simpl in Hloop. simpl.
      rewrite Hloop, advance_advance. by state_eq.
    + rewrite (bool_decide_eq_false_2 _ Hp). destruct (tts_ok W term) eqn:Ht.
      * unfold mbind, script_bind, bind. rewrite (tts_save_ok _ _ _ _ Ht), write_run.
        rewrite advance_advance.
        destruct (IH (advance (∅ ∪ {[term_path U term]})
                        ([] ++ [Glossary.record_of U eng_map (term, sw_def)])
                        ([synthesis_of U term] ++ []) st))
          as (r & new & recorded & spoken & Hrun & Hloop).
        simpl in Hrun. rewrite (left_id_L ∅ (∪)) in Hrun.
        exists r, (new ∪ {[ term_path U term ]}), ((term, sw_def) :: recorded), (term :: spoken).
        split; [by apply entries_speak|].
        unfold Glossary.record_of at 1, synthesis_of at 1 in Hloop. simpl in Hloop. simpl.
        rewrite Hloop, advance_advance. by state_eq.
      * unfold mbind, script_bind, bind. rewrite (tts_save_fails _ _ _ _ Ht).
        exists (Raised SynthesisFailure), ∅, [], [term].
        split; [by apply entries_fail|]. done.
Qed.

End GlossaryRun.

Section GlossaryMain.
Context (U : Runtime) (W : World).

(** A loop that ends normally wrote a record for every entry, in order,
    left an audio file for every term, and synthesized some of the terms. *)
Lemma entries_run_done fs entries new recorded spoken :
  entries_run U W fs entries (Done tt) new recorded spoken →
  recorded = entries
  ∧ (∀ entry, entry ∈ entries → term_path U entry.1 ∈ new ∪ fs)
  ∧ spoken `sublist_of` entries.*1.
Proof.
  remember (Done tt) as r eqn:Er.
  induction 1 as [fs|fs entry entries r new recorded spoken Hp Hrun IH
                  |fs entry entries r new recorded spoken Hp Ht Hrun IH|];
    [|specialize (IH Er) as (-> & Hall & Hsub)..|done].
  - split_and!; [done| |by constructor]. intros entry Hin. by apply elem_of_nil in Hin.
  - split_and!; [done| |by apply sublist_cons].
    intros e Hin. apply elem_of_cons in Hin as [->|Hin]; [set_solver|by apply Hall].
  - split_and!; [done| |by apply sublist_skip].
    intros e Hin. apply elem_of_cons in Hin as [->|Hin]; [set_solver|].
    specialize (Hall e Hin). set_solver.
Qed.

Lemma glossary_main_run (P : Glossary.Pages) (st : state) :
  match Glossary.swedish_page P, Glossary.english_page P with
  | Some sw, Some en =>
      ∃ r new recorded spoken,
        entries_run U W ({[ Glossary.OUTPUT_FILE ]} ∪ files st)
          (Glossary.terms_and_defs sw) r new recorded spoken
        ∧ Glossary.main U W P st
          = (r, advance (new ∪ {[ Glossary.OUTPUT_FILE ]})
                  (Glossary.header ++ (Glossary.record_of U (Glossary.english_mapping U en)
                                       <$> recorded))
                  (synthesis_of U <$> spoken) st)
  | _, _ => Glossary.main U W P st = (Raised RequestFailure, st)
  end.
Proof.
  unfold Glossary.main, Glossary.scrape_swedish_terms_and_defs,
    Glossary.scrape_english_mapping, Glossary.request.
  destruct (Glossary.swedish_page P) as [sw|]; [|done].
  destruct (Glossary.english_page P) as [en|]; [|done].
  destruct (entries_loop_run U W (Glossary.english_mapping U en) (Glossary.terms_and_defs sw)
              (advance {[ Glossary.OUTPUT_FILE ]} Glossary.header [] st))
    as (r & new & recorded & spoken & Hrun & Hloop).
  exists r, new, recorded, spoken. split; [done|].
  unfold mbind, script_bind, bind, mret, script_ret, ret.
  rewrite create_file_run, for_each_write_run, advance_advance.
  replace (advance (∅ ∪ {[Glossary.OUTPUT_FILE]}) ([] ++ Glossary.header) ([] ++ []) st)
    with (advance {[ Glossary.OUTPUT_FILE ]} Glossary.header [] st) by by state_eq.
  by rewrite Hloop, advance_advance.
Qed.

(** C10: a run of the glossary script that ends normally wrote, after the
    header, one record for every scraped pair of a heading and its
    paragraph, in order; every term has its audio file afterwards, from
    at most one synthesis; the front of a record is the term followed by
    the marker of its file; and a term the English page does not map
    keeps its record, the back being the Swedish definition and the two
    breaks alone. *)
Theorem every_scraped_pair_recorded (P : Glossary.Pages) (st st' : state) :
  Glossary.main U W P st = (Done tt, st') →
  ∃ sw en,
    Glossary.swedish_page P = Some sw ∧ Glossary.english_page P = Some en
    ∧ let entries := Glossary.terms_and_defs sw in
      let eng_map := Glossary.english_mapping U en in
      chunks_of (Glossary.main U W P) st
      = Glossary.header ++ (Glossary.record_of U eng_map <$> entries)
      ∧ (∀ entry, entry ∈ entries →
           path_join Glossary.MEDIA_DIR (Glossary.filename_of U entry.1) ∈ files st')
      ∧ (∃ spoken, spoken `sublist_of` entries.*1
                   ∧ events_of (Glossary.main U W P) st = synthesis_of U <$> spoken)
      ∧ (∀ term sw_def,
           Glossary.record_of U eng_map (term, sw_def)
           = (term ++ lit " [sound:" ++ Glossary.filename_of U term ++ lit "]")
             ++ [Glossary.tab] ++ Glossary.back_of U eng_map term sw_def
             ++ [Glossary.nl])
      ∧ (∀ term sw_def,
           eng_map !! py_lower U term = None →
           Glossary.back_of U eng_map term sw_def = sw_def ++ lit "<br><br>").
Proof.
  intros Hmain. pose proof (glossary_main_run P st) as Hrun.
  destruct (Glossary.swedish_page P) as [sw|]; [|congruence].
  destruct (Glossary.english_page P) as [en|]; [|congruence].
  destruct Hrun as (r & new & recorded & spoken & Hentries & Hrun).
  rewrite Hrun in Hmain. injection Hmain as -> <-.
  apply entries_run_done in Hentries as (-> & Hall & Hsub).
  exists sw, en. split; [done|]. split; [done|]. intros entries eng_map. split_and!.
  - by rewrite (chunks_of_advance _ _ _ _ _ _ Hrun).
  - intros entry Hin. specialize (Hall entry Hin). unfold term_path in Hall.
    simpl. set_solver.
  - exists spoken. split; [done|]. by rewrite (events_of_advance _ _ _ _ _ _ Hrun).
  - done.
  - intros term sw_def Hnone. unfold Glossary.back_of. fold eng_map.
    rewrite Hnone. cbn [default Glossary.eng_html_of truthy]. by rewrite app_nil_r.
Qed.

End GlossaryMain.

(** The witness of C10: two headings with a paragraph and one without, of
    which the English page maps the first. *)
Lemma every_scraped_pair_recorded_witness :
  let W := one_word_world [] [] in
  let P := {| Glossary.swedish_page :=
                Some [(lit " ajournera ", Some (lit "skjuta upp"));
                      (lit "x", None);
                      (lit "Utskott", Some (lit "grupp"))];
              Glossary.english_page :=
                Some [(lit "Adjourn (Sw: Ajournera)", Some (lit "to postpone"))] |} in
  let run := Glossary.main latin1_only W P (initial ∅) in
  run = (Done tt, run.2)
  ∧ ∃ sw en, Glossary.swedish_page P = Some sw ∧ Glossary.english_page P = Some en
      ∧ chunks_of (Glossary.main latin1_only W P) (initial ∅)
        = Glossary.header
          ++ (Glossary.record_of latin1_only (Glossary.english_mapping latin1_only en)
              <$> Glossary.terms_and_defs sw).
Proof.
  intros W P run.
  assert (Hrun : run = (Done tt, run.2)) by (vm_compute; reflexivity).
  split; [exact Hrun|].
  destruct (every_scraped_pair_recorded latin1_only W P _ _ Hrun)
    as (sw & en & Hsw & Hen & Hchunks & _).
  by exists sw, en.
Defined.

(** ** The file names of the two scripts *)

Lemma sub_class_by_char (keep : char → bool) (c0 : char) (text : str) :
  sub_go [Cls (λ c, negb (keep c))] (λ _, [c0]) text O
  = map (λ c, if keep c then c else c0) text.
Proof.
  induction text as [|c text IH]; [done|].
  cbn [sub_go match_here map]. destruct (keep c); simpl; by rewrite IH.
Qed.

Lemma safe_name_underscored (text : str) :
  Kelly.safe_name text = underscored Kelly.safe_char text.
Proof. apply sub_class_by_char. Qed.

Lemma is_ascii_alnum (U : Runtime) (c : char) :
  is_ascii c = true → py_isalnum U c = ascii_alnum c.
Proof.
  unfold is_ascii, py_isalnum, latin1_alnum, ascii_alnum, between, char_eqb.
  intros H. apply N.ltb_lt in H.
  replace (c <? 256) with true by (symmetry; apply N.ltb_lt; lia).
  repeat match goal with
         | |- context [c =? ?n] =>
             replace (c =? n) with false by (symmetry; apply N.eqb_neq; lia)
         end.
  replace (c <=? 190) with true by (symmetry; apply N.leb_le; lia).
  replace (c <=? 214) with true by (symmetry; apply N.leb_le; lia).
  replace (c <=? 246) with true by (symmetry; apply N.leb_le; lia).
  replace (c <=? 255) with true by (symmetry; apply N.leb_le; lia).
  replace (188 <=? c) with false by (symmetry; apply N.leb_gt; lia).
  replace (192 <=? c) with false by (symmetry; apply N.leb_gt; lia).
  replace (216 <=? c) with false by (symmetry; apply N.leb_gt; lia).
  replace (248 <=? c) with false by (symmetry; apply N.leb_gt; lia).
  by rewrite !orb_false_r.
Qed.

(** C9 (as amended): each script replaces the characters outside its own
    class by an underscore and appends [.mp3]: the class [A-Za-z0-9_-]
    in the Kelly script, [isalnum] with the hyphen and the underscore in
    the glossary script.  On ASCII text the two classes are the same and
    the names agree. *)
Theorem file_names_agree_on_ascii :
  (∀ q, tts_name q = underscored Kelly.safe_char q ++ lit ".mp3")
  ∧ (∀ U term,
       Glossary.filename_of U term
       = underscored (λ c, py_isalnum U c || char_in c (lit "-_")) term ++ lit ".mp3")
  ∧ (∀ U text, forallb is_ascii text = true →
       Glossary.sanitize_filename U text = Kelly.safe_name text
       ∧ Glossary.filename_of U text = tts_name text).
Proof.
  split_and!.
  - intros q. unfold tts_name. by rewrite safe_name_underscored.
  - done.
  - intros U text Hascii.
    assert (E : Glossary.sanitize_filename U text = Kelly.safe_name text).
    { rewrite safe_name_underscored. unfold Glossary.sanitize_filename, underscored.
      induction text as [|c text IH]; [done|].
      apply andb_true_iff in Hascii as [Hc Htext]. cbn [map].
      rewrite IH by done. f_equal.
      rewrite (is_ascii_alnum U c Hc). unfold Kelly.safe_char.
      replace (char_in c (lit "-_"))
        with (char_eqb c (ch "_") || char_eqb c (ch "-")); [by rewrite orb_assoc|].
      change (lit "-_") with [ch "-"; ch "_"]. unfold char_in. cbn [existsb].
      by rewrite orb_false_r, orb_comm. }
    split; [done|]. unfold Glossary.filename_of, tts_name. by rewrite E.
Qed.

(** The counterexample of C9: the letter a with diaeresis (U+00E4) is
    alphanumeric but not in [A-Za-z0-9_-]; the Kelly script names the
    file [_.mp3], the glossary script keeps the letter. *)
Lemma file_names_differ_on_a_diaeresis :
  tts_name [228] = lit "_.mp3"
  ∧ (∀ U, Glossary.filename_of U [228] = [228] ++ lit ".mp3")
  ∧ (∀ U, Glossary.filename_of U [228] ≠ tts_name [228]).
Proof. split_and!; [done|done|]. intros U. vm_compute. discriminate. Qed.

(** ** The header of the output file *)

Lemma rows_run_records U W fs df r new ws evs :
  rows_run U W fs df r new ws evs → Forall is_kelly_record ws.
Proof.
  induction 1 as [| |fs row df res new evs r new' ws evs' Hw Hrows IH]; [constructor..|].
  apply Forall_app. split; [|done].
  unfold row_chunks. destruct (Kelly.truthy_opt _); repeat constructor.
  by eexists _, _, _.
Qed.

Lemma entries_run_prefix U W fs entries r new recorded spoken :
  entries_run U W fs entries r new recorded spoken → recorded `prefix_of` entries.
Proof.
  induction 1; [done|by apply prefix_cons..|apply prefix_nil].
Qed.

(** C8 (as amended): each script writes its own fixed header before the
    records, whatever the input.  In the Kelly script the header is the
    four directive lines and the records follow at once; in the glossary
    script the deck line is followed by an empty line, and the records
    come after it. *)
Theorem header_then_records :
  concat Kelly.header
  = directive_lines (lit "Word" ++ [Kelly.tab] ++ lit "Definition" ++ [Kelly.tab] ++ lit "Tags")
      (lit "KellyList")
  ∧ concat Glossary.header
    = directive_lines (lit "Swedish" ++ [Kelly.tab] ++ lit "Definition") (lit "LawGlossary")
      ++ [Kelly.nl]
  ∧ (∀ U W rows st,
       ∃ records, chunks_of (Kelly.main U W rows) st = Kelly.header ++ records
                  ∧ Forall is_kelly_record records)
  ∧ (∀ U W P st sw en,
       Glossary.swedish_page P = Some sw → Glossary.english_page P = Some en →
       ∃ recorded,
         chunks_of (Glossary.main U W P) st
         = Glossary.header
           ++ (Glossary.record_of U (Glossary.english_mapping U en) <$> recorded)
         ∧ recorded `prefix_of` Glossary.terms_and_defs sw).
Proof.
  split_and!; [done|done| |].
  - intros U W rows st.
    destruct (kelly_main_run U W rows st) as (r & new & ws & evs & Hrows & Hrun).
    exists ws. rewrite (chunks_of_advance _ _ _ _ _ _ Hrun).
    split; [done|]. by eapply rows_run_records.
  - intros U W P st sw en Hsw Hen. pose proof (glossary_main_run U W P st) as Hrun.
    rewrite Hsw, Hen in Hrun.
    destruct Hrun as (r & new & recorded & spoken & Hentries & Hrun).
    exists recorded. rewrite (chunks_of_advance _ _ _ _ _ _ Hrun).
    split; [done|]. by eapply entries_run_prefix.
Qed.

(** The counterexample of C8: the file the glossary script writes for one
    entry.  Its fifth line is empty; the record is the sixth. *)
Lemma glossary_header_ends_with_empty_line :
  let W := one_word_world [] [] in
  let P := {| Glossary.swedish_page := Some [(lit "votering", Some (lit "a vote"))];
              Glossary.english_page := Some [] |} in
  let run := Glossary.main latin1_only W P (initial ∅) in
  run.1 = Done tt
  ∧ split [Kelly.nl] (concat (written run.2))
    = [ lit "#separator:Tab";
        lit "#columns:Swedish" ++ [Kelly.tab] ++ lit "Definition";
        lit "#notetype:Basic";
        lit "#deck:LawGlossary";
        [];
        lit "votering [sound:votering.mp3]" ++ [Kelly.tab] ++ lit "a vote<br><br>";
        [] ].
Proof. vm_compute. by split. Qed.

(** ** Newlines in a record *)

Lemma underscored_chars (keep : char → bool) (text : str) (c : char) :
  c ∈ underscored keep text → keep c = true ∨ c = ch "_".
Proof.
  unfold underscored. intros Hin. apply list_elem_of_fmap in Hin as (c' & -> & _).
  destruct (keep c') eqn:E; [by left|by right].
Qed.

Lemma tts_name_one_line (q : str) : Kelly.nl ∉ tts_name q.
Proof.
  unfold tts_name. rewrite safe_name_underscored. intros Hin.
  apply elem_of_app in Hin as [Hin|Hin].
  - by apply underscored_chars in Hin as [Hin|Hin].
  - vm_compute in Hin. repeat (apply elem_of_cons in Hin as [Hin|Hin]; [done|]).
    by apply elem_of_nil in Hin.
Qed.

Lemma resolved_sound_name U W fs q html content sound new evs :
  resolved U W fs q html (Done (content, sound)) new evs →
  sound = Some (tts_name q)
  ∨ ∃ url, Kelly.extract_mp3_url html = Some url ∧ sound = Some (basename url).
Proof.
  inversion 1 as [r ? ? _ Hs Hr|url Hx Hp Hr|url Hx _ _ Hr|url r ? ? _ _ _ Hs Hr]; subst.
  - destruct r as [sound'|]; simplify_eq/=.
    apply synthesized_sound in Hs as [-> _]. by left.
  - unfold marked in Hr. destruct (with_marker U html url); simplify_eq. right. eauto.
  - unfold marked in Hr. destruct (with_marker U html url); simplify_eq. right. eauto.
  - destruct r as [sound'|]; simplify_eq/=.
    apply synthesized_sound in Hs as [-> _]. by left.
Qed.

Lemma def_line_newline (definition : str) (sound : option str) :
  Kelly.nl ∈ Kelly.def_line_of definition sound →
  ∃ name, sound = Some name ∧ Kelly.nl ∈ name.
Proof.
  unfold Kelly.def_line_of.
  destruct (andb _ _) eqn:E.
  - intros Hin. destruct sound as [name|]; [|done]. exists name. split; [done|].
    apply elem_of_app in Hin as [Hin|Hin]; [by apply replace_newline_free in Hin|].
    apply elem_of_app in Hin as [Hin|Hin].
    { vm_compute in Hin. repeat (apply elem_of_cons in Hin as [Hin|Hin]; [done|]).
      by apply elem_of_nil in Hin. }
    apply elem_of_app in Hin as [Hin|Hin]; [done|].
    vm_compute in Hin. repeat (apply elem_of_cons in Hin as [Hin|Hin]; [done|]).
    by apply elem_of_nil in Hin.
  - intros Hin. by apply replace_newline_free in Hin.
Qed.

(** C7 (as amended): the Kelly script replaces every newline of the
    looked-up content by [<br>], and the content field of its record is
    one line unless the name of the linked mp3 file itself holds a
    newline.  The glossary script replaces nothing: the back field is
    the scraped definition as it is, then [<br><br>], then the English
    part, so a newline of the definition stays in the record. *)
Theorem newlines_in_content_field :
  (∀ U W word st definition sound,
     (Kelly.process_word U W word st).1 = Done (Some definition, sound) →
     (Kelly.nl ∉ replace_char Kelly.nl (lit "<br>") definition)
     ∧ (Kelly.nl ∈ Kelly.def_line_of definition sound →
          ∃ html url, lookup_content U W word = Some html
                      ∧ Kelly.extract_mp3_url html = Some url
                      ∧ sound = Some (basename url) ∧ Kelly.nl ∈ basename url))
  ∧ (∀ U eng_map term sw_def,
       (∃ eng_html, Glossary.back_of U eng_map term sw_def
                    = sw_def ++ lit "<br><br>" ++ eng_html)
       ∧ (Glossary.nl ∈ sw_def → Glossary.nl ∈ Glossary.back_of U eng_map term sw_def)).
Proof.
  split.
  - intros U W word st definition sound Hres.
    split; [apply replace_newline_free|]. intros Hin.
    apply def_line_newline in Hin as (name & -> & Hin).
    destruct (process_word_run U W word st) as (r & new & evs & Hw & Hrun).
    rewrite Hrun in Hres. simpl in Hres. subst r.
    inversion Hw as [| |html ? ? evs' _ Hl Hr]; subst.
    apply resolved_sound_name in Hr as [[= ->]|(url & Hx & [= ->])].
    + by apply tts_name_one_line in Hin.
    + by exists html, url.
  - intros U eng_map term sw_def. split; [by eexists|].
    intros Hin. unfold Glossary.back_of. apply elem_of_app. by left.
Qed.

(** The counterexample of C7: a glossary paragraph of two lines.  The
    record the script writes holds the newline as it was scraped. *)
Lemma glossary_record_keeps_newline :
  let W := one_word_world [] [] in
  let sw_def := lit "first line" ++ [Glossary.nl] ++ lit "second line" in
  let P := {| Glossary.swedish_page := Some [(lit "votering", Some sw_def)];
              Glossary.english_page := Some [] |} in
  let run := Glossary.main latin1_only W P (initial ∅) in
  run.1 = Done tt
  ∧ written run.2
    = Glossary.header
      ++ [lit "votering [sound:votering.mp3]" ++ [Glossary.tab]
          ++ (lit "first line" ++ [Glossary.nl] ++ lit "second line<br><br>")
          ++ [Glossary.nl]].
Proof. vm_compute. by split. Qed.

(** ** The audio directory as a cache *)

Section Cache.
Context (U : Runtime) (W : World).

Lemma settled_mono fs fs' word : fs ⊆ fs' → settled U W fs word → settled U W fs' word.
Proof.
  intros Hsub Hs Hd html Hl. specialize (Hs Hd html Hl).
  destruct (Kelly.extract_mp3_url html); set_solver.
Qed.

Lemma lookup_events_idle word : Forall (idle W) (lookup_events U W word).
Proof. unfold lookup_events. destruct (Kelly.truthy_opt _); by repeat constructor. Qed.

Lemma lookup_events_no_target word e :
  e ∈ lookup_events U W word → target e = None.
Proof. unfold lookup_events. destruct (Kelly.truthy_opt _); set_solver. Qed.

(** Every audio call is for a file that is not there. *)
Lemma word_run_targets fs word r new evs e path :
  word_run U W fs word r new evs → e ∈ evs → target e = Some path → path ∉ fs.
Proof.
  intros Hw Hin Ht.
  assert (Hsyn : ∀ q r' new' evs', synthesized W fs q r' new' evs' → e ∈ evs' → path ∉ fs).
  { intros q r' new' evs' Hs He. inversion Hs; subst;
      try (by apply elem_of_nil in He);
      apply list_elem_of_singleton in He; subst e; by injection Ht as <-. }
  inversion Hw as [| |html ? ? evs' _ _ Hr]; subst.
  - by apply elem_of_nil in Hin.
  - apply lookup_events_no_target in Hin. congruence.
  - apply elem_of_app in Hin as [Hin|Hin].
    { apply lookup_events_no_target in Hin. congruence. }
    inversion Hr as [rs ? ? _ Hs|url _ _|url _ Hp _|url rs ? evs'' _ Hp _ Hs]; subst.
    + by eapply Hsyn.
    + by apply elem_of_nil in Hin.
    + apply list_elem_of_singleton in Hin. subst e. by injection Ht as <-.
    + apply elem_of_cons in Hin as [->|Hin]; [by injection Ht as <-|by eapply Hsyn].
Qed.

(** A word whose derived file is there makes no audio call. *)
Lemma word_run_cached fs word html r new evs :
  truthy (strip word) = true → lookup_content U W word = Some html →
  path_join Kelly.AUDIO_DIR (derived_name (Kelly.query_of word) html) ∈ fs →
  word_run U W fs word r new evs →
  new = ∅ ∧ evs = lookup_events U W word.
Proof.
  intros Hd Hl Hin Hw. unfold derived_name in Hin.
  inversion Hw as [| |html' ? ? evs' _ Hl' Hr]; subst; [congruence..|].
  assert (html' = html) as -> by congruence.
  inversion Hr as [rs ? ? Hx Hs|url Hx _|url Hx Hp _|url rs ? evs'' Hx Hp _ Hs]; subst;
    rewrite Hx in Hin.
  - inversion Hs; subst; [by rewrite app_nil_r|done..].
  - by rewrite app_nil_r.
  - done.
  - done.
Qed.

(** After a word was processed, its audio is settled U W. *)
Lemma word_run_settles fs word res new evs :
  word_run U W fs word (Done res) new evs → settled U W (new ∪ fs) word.
Proof.
  intros Hw Hd html Hl.
  inversion Hw as [| |html' r ? evs' _ Hl' Hr]; subst; [congruence..|].
  assert (html' = html) as -> by congruence.
  inversion Hr as [rs ? ? Hx Hs Hres|url Hx Hp|url Hx Hp Hg|url rs ? evs'' Hx Hp Hg Hs Hres];
    subst; rewrite Hx.
  - destruct rs as [sound|]; [|done].
    apply synthesized_sound in Hs as [_ Hin]. done.
  - left. set_solver.
  - left. set_solver.
  - right. split; [done|]. destruct rs as [sound|]; [|done].
    apply synthesized_sound in Hs as [_ Hin]. done.
Qed.

(** A word whose audio is settled U W creates no file and makes only idle W
    calls. *)
Lemma word_run_idle fs word r new evs :
  settled U W fs word → word_run U W fs word r new evs →
  new = ∅ ∧ Forall (idle W) evs.
Proof.
  intros Hs Hw.
  inversion Hw as [|_ _|html ? ? evs' Hd Hl Hr]; subst.
  - split; [done|constructor].
  - split; [done|apply lookup_events_idle].
  - specialize (Hs Hd html Hl).
    assert (Hsyn : ∀ rs new' evs'', tts_path (Kelly.query_of word) ∈ fs →
              synthesized W fs (Kelly.query_of word) rs new' evs'' →
              new' = ∅ ∧ evs'' = []).
    { intros rs new' evs'' Hin Hsy. by inversion Hsy. }
    inversion Hr as [rs ? ? Hx Hsy|url Hx _|url Hx Hp Hg|url rs ? evs'' Hx Hp Hg Hsy];
      subst; rewrite Hx in Hs.
    + destruct (Hsyn _ _ _ Hs Hsy) as [-> ->].
      split; [done|]. rewrite app_nil_r. apply lookup_events_idle.
    + split; [done|]. rewrite app_nil_r. apply lookup_events_idle.
    + destruct Hs as [Hs|[Hs _]]; [done|congruence].
    + destruct Hs as [Hs|[_ Hs]]; [done|].
      destruct (Hsyn _ _ _ Hs Hsy) as [-> ->].
      split; [done|]. apply Forall_app. split; [apply lookup_events_idle|].
      by repeat constructor.
Qed.

Lemma rows_run_settles fs df new ws evs :
  rows_run U W fs df (Done tt) new ws evs →
  ∀ row, row ∈ df → settled U W (new ∪ fs) (strip row.1).
Proof.
  remember (Done tt) as r eqn:Er.
  induction 1 as [| |fs row df res new evs r new' ws evs' Hw Hrows IH]; [|done|].
  - intros row Hin. by apply elem_of_nil in Hin.
  - intros row' Hin. apply elem_of_cons in Hin as [->|Hin].
    + apply word_run_settles in Hw. eapply settled_mono; [|exact Hw]. set_solver.
    + specialize (IH Er row' Hin). eapply settled_mono; [|exact IH]. set_solver.
Qed.

Lemma rows_run_idle fs df r new ws evs :
  (∀ row, row ∈ df → settled U W fs (strip row.1)) →
  rows_run U W fs df r new ws evs →
  new = ∅ ∧ Forall (idle W) evs.
Proof.
  intros Hall Hrows.
  induction Hrows as [|fs row df e new evs Hw
                      |fs row df res new evs r new' ws evs' Hw Hrows IH].
  - split; [done|constructor].
  - eapply word_run_idle; [|exact Hw]. apply Hall. set_solver.
  - destruct (word_run_idle fs (strip row.1) _ _ _ (Hall row ltac:(set_solver)) Hw)
      as [-> Hidle].
    rewrite (left_id_L ∅ (∪)) in IH.
    destruct IH as [-> Hidle']. { intros row' Hin. apply Hall. set_solver. }
    split; [by rewrite (left_id_L ∅ (∪))|]. apply Forall_app. by split.
Qed.

(** The glossary loop when every file is there. *)
Lemma entries_run_cached fs entries r new recorded spoken :
  (∀ entry, entry ∈ entries → term_path U entry.1 ∈ fs) →
  entries_run U W fs entries r new recorded spoken →
  r = Done tt ∧ new = ∅ ∧ spoken = [].
Proof.
  intros Hall Hrun.
  induction Hrun as [fs|fs entry entries r new recorded spoken Hp Hrun IH
                     |fs entry entries r new recorded spoken Hp Ht Hrun IH
                     |fs entry entries Hp Ht].
  - done.
  - apply IH. intros e Hin. apply Hall. set_solver.
  - exfalso. apply Hp, Hall. set_solver.
  - exfalso. apply Hp, Hall. set_solver.
Qed.

End Cache.

(** C6: the audio directory is a cache.  In [process_word] every
    download and every synthesis is for a file that is not there, and a
    word whose derived file is there makes neither call; the glossary
    script makes no call for a term whose file is there.  So a second
    run of either script over the same input, with the files of a first
    run that ended normally, creates no file and synthesizes nothing: the
    Kelly script at most tries again the downloads that fail, the
    glossary script makes no call at all. *)
Theorem audio_cache_idempotent :
  (∀ U W word st,
     (∀ e path, e ∈ events_of (Kelly.process_word U W word) st →
                target e = Some path → path ∉ files st)
     ∧ (∀ html, truthy (strip word) = true → lookup_content U W word = Some html →
          path_join Kelly.AUDIO_DIR (derived_name (Kelly.query_of word) html) ∈ files st →
          files (Kelly.process_word U W word st).2 = files st
          ∧ ∀ e, e ∈ events_of (Kelly.process_word U W word) st → target e = None))
  ∧ (∀ U W eng_map entry st,
       path_join Glossary.MEDIA_DIR (Glossary.filename_of U entry.1) ∈ files st →
       events_of (Glossary.entry_body U W eng_map entry) st = [])
  ∧ (∀ U W rows st st1,
       Kelly.main U W rows st = (Done tt, st1) →
       let again := Kelly.main U W rows (initial (files st1)) in
       files again.2 = files st1 ∧ Forall (idle W) (log again.2))
  ∧ (∀ U W P st st1,
       Glossary.main U W P st = (Done tt, st1) →
       let again := Glossary.main U W P (initial (files st1)) in
       again.1 = Done tt ∧ files again.2 = files st1 ∧ log again.2 = []).
Proof.
  split_and!.
  - intros U W word st.
    destruct (process_word_run U W word st) as (r & new & evs & Hw & Hrun).
    rewrite (events_of_advance _ _ _ _ _ _ Hrun), Hrun. split.
    + intros e path Hin Ht. by eapply word_run_targets.
    + intros html Hd Hl Hin.
      destruct (word_run_cached U W _ _ _ _ _ _ Hd Hl Hin Hw) as [-> ->].
      split; [simpl; by rewrite (left_id_L ∅ (∪))|].
      intros e. apply lookup_events_no_target.
  - intros U W eng_map [term sw_def] st Hin.
    simpl in Hin. unfold events_of, Glossary.entry_body, path_exists, mbind, script_bind, bind.
    cbn beta iota. rewrite (bool_decide_eq_true_2 _ Hin).
    unfold mret, script_ret, ret, write. simpl. by rewrite drop_all.
  - intros U W rows st st1 Hmain again.
    destruct (kelly_main_run U W rows st) as (r & new & ws & evs & Hrows & Hrun).
    rewrite Hrun in Hmain.
    pose proof (f_equal fst Hmain) as Hr. pose proof (f_equal snd Hmain) as Hst.
    cbn [fst snd] in Hr, Hst. subst r st1. clear Hmain.
    pose proof (rows_run_settles U W _ _ _ _ _ Hrows) as Hset.
    destruct (kelly_main_run U W rows
                (initial (files (advance (new ∪ {[Kelly.OUTPUT_FILE]}) (Kelly.header ++ ws) evs st))))
      as (r2 & new2 & ws2 & evs2 & Hrows2 & Hrun2).
    subst again. rewrite Hrun2. simpl in Hrows2 |- *.
    assert (Hset2 : ∀ row, row ∈ Kelly.dropna rows →
              settled U W ({[Kelly.OUTPUT_FILE]} ∪ (new ∪ {[Kelly.OUTPUT_FILE]} ∪ files st))
                (strip row.1)).
    { intros row Hin. eapply settled_mono; [|by apply Hset]. set_solver. }
    destruct (rows_run_idle U W _ _ _ _ _ _ Hset2 Hrows2) as [-> Hidle].
    split; [set_solver|done].
  - intros U W P st st1 Hmain again.
    pose proof (glossary_main_run U W P st) as Hrun.
    pose proof (glossary_main_run U W P (initial (files st1))) as Hrun2.
    destruct (Glossary.swedish_page P) as [sw|]; [|congruence].
    destruct (Glossary.english_page P) as [en|]; [|congruence].
    destruct Hrun as (r & new & recorded & spoken & Hentries & Hrun).
    rewrite Hrun in Hmain.
    pose proof (f_equal fst Hmain) as Hr. pose proof (f_equal snd Hmain) as Hst.
    cbn [fst snd] in Hr, Hst. subst r st1. clear Hmain.
    apply entries_run_done in Hentries as (-> & Hall & _).
    destruct Hrun2 as (r2 & new2 & recorded2 & spoken2 & Hentries2 & Hrun2).
    subst again. rewrite Hrun2. simpl in Hentries2 |- *.
    apply entries_run_cached in Hentries2 as (-> & -> & ->).
    + split_and!; [done|set_solver|done].
    + intros entry Hin. specialize (Hall entry Hin). set_solver.
Qed.

(** ** Substitution *)

Lemma sub_go_skip (pat : pattern) (repl : str → str) (a s : str) :
  sub_go pat repl (a ++ s) (List.length a) = sub_go pat repl s O.
Proof. induction a as [|x a IH]; [done|]. simpl. exact IH. Qed.

(** A match at the start of the text is replaced, and the substitution
    goes on behind it. *)
Lemma sub_go_match (pat : pattern) (repl : str → str) (a post : str) (ps : list str) :
  match_here pat (a ++ post) = Some ps → concat ps = a → a ≠ [] →
  sub_go pat repl (a ++ post) O = repl a ++ sub_go pat repl post O.
Proof.
  intros Hm Hc Ha. destruct a as [|x a]; [done|].
  cbn [sub_go app]. change (x :: a ++ post) with ((x :: a) ++ post).
  rewrite Hm, Hc. cbn [List.length]. f_equal. apply sub_go_skip.
Qed.

(** Where no match starts, the text is copied. *)
Lemma sub_go_copy (pat : pattern) (repl : str → str) (pre s : str) :
  (∀ i, (i < List.length pre)%nat → match_here pat (drop i (pre ++ s)) = None) →
  sub_go pat repl (pre ++ s) O = pre ++ sub_go pat repl s O.
Proof.
  induction pre as [|x pre IH]; intros H; [done|].
  assert (H0 : match_here pat (x :: pre ++ s) = None) by (apply (H O); simpl; lia).
  cbn [sub_go app]. rewrite H0. f_equal. apply IH.
  intros i Hi. apply (H (S i)). simpl; lia.
Qed.

Lemma anchor_match_nonempty (url s : str) (ps : list str) :
  match_here (Kelly.anchor_pattern url) s = Some ps → concat ps ≠ [].
Proof.
  intros H. apply match_here_sound in H as [HF _].
  unfold Kelly.anchor_pattern, lits in HF. eval_lits. cbn [map app] in HF.
  apply Forall2_cons_inv_l in HF as (p & ps' & Hp & _ & ->).
  cbn in Hp. by subst p.
Qed.

Lemma char_in_app (c : char) (a b : str) :
  char_in c (a ++ b) = char_in c a || char_in c b.
Proof. unfold char_in. apply existsb_app. Qed.

(** The marker of a name without a backslash is plain text for [re.sub]. *)
Lemma with_marker_plain (U : Runtime) (html url : str) :
  char_in (ch "\") (basename url) = false →
  with_marker U html url
  = Some (sub_go (Kelly.anchor_pattern url) (λ _, Kelly.sound_marker (basename url)) html O).
Proof.
  intros Hn. unfold with_marker, re_sub, Kelly.sound_marker.
  by rewrite !char_in_app, Hn.
Qed.

(** The first anchor of [url] in a content is replaced by the marker. *)
Lemma with_marker_first_anchor (U : Runtime) (html url pre a post : str) (ps : list str) :
  char_in (ch "\") (basename url) = false →
  html = pre ++ a ++ post →
  (∀ i, (i < List.length pre)%nat →
        match_here (Kelly.anchor_pattern url) (drop i html) = None) →
  match_here (Kelly.anchor_pattern url) (a ++ post) = Some ps → concat ps = a →
  with_marker U html url
  = Some (pre ++ Kelly.sound_marker (basename url)
          ++ sub_go (Kelly.anchor_pattern url) (λ _, Kelly.sound_marker (basename url)) post O).
Proof.
  intros Hn -> Hpre Hm Hc. rewrite with_marker_plain by done. f_equal.
  rewrite sub_go_copy by done. f_equal.
  rewrite (sub_go_match _ (λ _, Kelly.sound_marker (basename url)) a post ps); [done..|].
  rewrite <- Hc. by eapply anchor_match_nonempty.
Qed.

(** ** Patterns: when a match is found *)

Lemma char_eqb_sym (a b : char) : char_eqb a b = char_eqb b a.
Proof. apply N.eqb_sym. Qed.

(** A literal prefix of a pattern matches itself and nothing else. *)
Lemma match_here_lits (l : str) (pat : pattern) (s : str) :
  match_here (lits l ++ pat) s
  = if startswith l s
    then app ((λ c, [c]) <$> l) <$> match_here pat (drop (List.length l) s)
    else None.
Proof.
  revert s. induction l as [|c l IH]; intros s.
  - simpl. rewrite drop_0. by destruct (match_here pat s).
  - cbn [lits map app match_here startswith List.length drop].
    destruct s as [|x s]; [done|].
    rewrite (char_eqb_sym x c).
    destruct (char_eqb c x) eqn:E; [|done]. cbn [andb].
    apply char_eqb_eq in E as <-. fold (lits l). rewrite IH.
    destruct (startswith l s); [|done]. cbn [drop].
    by destruct (match_here pat (drop (List.length l) s)).
Qed.

(** A greedy repetition that can take a whole run, and whose
    continuation matches right behind it, takes the whole run. *)
Lemma many_greedy_max {A} p (k : str → option A) least run rest r :
  Forall (λ x, p x = true) run →
  (∀ x rest', rest = x :: rest' → p x = false) →
  k rest = Some r → (least ≤ List.length run)%nat →
  many_greedy p k least (run ++ rest) = Some (run, r).
Proof.
  intros Hrun Hrest Hk. revert least.
  induction Hrun as [|c run Hc Hrun IH]; intros least Hle.
  - simpl in Hle. assert (least = O) as -> by lia.
    destruct rest as [|x rest']; simpl.
    + by rewrite Hk.
    + rewrite (Hrest x rest' eq_refl). by rewrite Hk.
  - cbn [app many_greedy]. rewrite Hc, IH by (simpl in Hle; lia). done.
Qed.

(** A greedy repetition finds a match whenever some split of the text
    gives one. *)
Lemma many_greedy_complete {A} p (k : str → option A) least s j r :
  (j ≤ List.length s)%nat → Forall (λ x, p x = true) (take j s) →
  (least ≤ j)%nat → k (drop j s) = Some r →
  is_Some (many_greedy p k least s).
Proof.
  revert least j. induction s as [|x s IH]; intros least j Hj Hall Hle Hk.
  - simpl in Hj. assert (j = O) as -> by lia. assert (least = O) as -> by lia.
    simpl in *. rewrite Hk. by eexists.
  - destruct j as [|j].
    + assert (least = O) as -> by lia. simpl in Hk. cbn [many_greedy]. rewrite Hk.
      destruct (p x); [|by eexists].
      destruct (many_greedy p k (Nat.pred 0) s) as [[run r']|]; by eexists.
    + cbn [take] in Hall. apply Forall_cons in Hall as [Hx Hall].
      cbn [many_greedy]. rewrite Hx.
      destruct (IH (Nat.pred least) j) as [[run r'] Hrec];
        [simpl in Hj; lia|done|lia|done|].
      rewrite Hrec. by eexists.
Qed.

(** A lazy repetition stops at the first place where its continuation
    matches. *)
Lemma many_lazy_first {A} p (k : str → option A) run rest r :
  Forall (λ x, p x = true) run →
  (∀ i, (i < List.length run)%nat → k (drop i (run ++ rest)) = None) →
  k rest = Some r →
  many_lazy p k O (run ++ rest) = Some (run, r).
Proof.
  intros Hrun. induction Hrun as [|c run Hc Hrun IH]; intros Hnone Hk.
  - destruct rest; simpl; by rewrite Hk.
  - assert (H0 : k (c :: run ++ rest) = None) by (apply (Hnone O); simpl; lia).
    cbn [app many_lazy]. rewrite H0, Hc. cbn [Nat.pred].
    rewrite IH; [done| |done].
    intros i Hi. apply (Hnone (S i)). simpl; lia.
Qed.

(** A text without [>] that starts a text is inside the part before the
    first [>]. *)
Lemma before_first_gt (x rest r y : str) :
  x ++ rest = r ++ ch ">" :: y →
  Forall (λ c, Kelly.not_gt c = true) x →
  ∃ z, r = x ++ z ∧ rest = z ++ ch ">" :: y.
Proof.
  revert r. induction x as [|c x IH]; intros r Heq Hx.
  - exists r. by simpl in *.
  - apply Forall_cons in Hx as [Hc Hx]. destruct r as [|c' r].
    + simpl in Heq. injection Heq as -> _. by vm_compute in Hc.
    + simpl in Heq. injection Heq as -> Heq.
      destruct (IH r Heq Hx) as (z & -> & ->). by exists z.
Qed.

Lemma startswith_long (sub x y : str) :
  (List.length sub ≤ List.length x)%nat → startswith sub (x ++ y) = startswith sub x.
Proof.
  revert x. induction sub as [|c sub IH]; intros x Hle; [done|].
  destruct x as [|c' x]; [simpl in Hle; lia|].
  simpl. rewrite IH by (simpl in Hle; lia). done.
Qed.

Lemma contains_false_drop (sub s : str) (i : nat) :
  contains sub s = false → startswith sub (drop i s) = false.
Proof.
  revert i. induction s as [|c s IH]; intros i H.
  - rewrite drop_nil. simpl in H. by apply orb_false_iff in H as [H _].
  - rewrite contains_unfold in H. apply orb_false_iff in H as [H1 H2].
    destruct i; [done|]. simpl. by apply IH.
Qed.

(** ** The anchor pattern on an anchor element *)

Lemma anchor_pattern_split (url : str) :
  Kelly.anchor_pattern url = lits (lit "<a") ++ Many Kelly.not_gt 1 true :: after_href url.
Proof.
  reflexivity.
Qed.

Lemma concat_singletons (l : str) : concat ((λ c, [c]) <$> l) = l.
Proof. induction l as [|c l IH]; [done|]. cbn [fmap list_fmap concat app]. by f_equal. Qed.

Lemma is_quote_not_gt (q : char) : Kelly.is_quote q = true → Kelly.not_gt q = true.
Proof.
  unfold Kelly.is_quote, char_in. cbn [existsb]. rewrite orb_false_r.
  intros H. apply orb_true_iff in H as [H|H]; apply char_eqb_eq in H as ->; done.
Qed.

Lemma match_here_many p least greedy (pat : pattern) (s : str) :
  match_here (Many p least greedy :: pat) s
  = (λ '(run, ps), run :: ps) <$>
    (if greedy then many_greedy p (match_here pat) least s
     else many_lazy p (match_here pat) least s).
Proof. done. Qed.

Lemma match_here_lit (c : char) (pat : pattern) (x : char) (s : str) :
  match_here (Lit c :: pat) (x :: s)
  = if char_eqb x c then cons [x] <$> match_here pat s else None.
Proof. done. Qed.

Lemma match_here_cls (p : char → bool) (pat : pattern) (x : char) (s : str) :
  match_here (Cls p :: pat) (x :: s)
  = if p x then cons [x] <$> match_here pat s else None.
Proof. done. Qed.

(** The body of the element and its closing tag. *)
Lemma body_here (body post : str) :
  contains (lit "</a>") (body ++ lit "</a") = false →
  match_here (Many Kelly.any_char 0 false :: lits (lit "</a>"))
    (body ++ lit "</a>" ++ post)
  = Some (body :: ((λ c, [c]) <$> lit "</a>")).
Proof.
  intros Hbody. rewrite match_here_many.
  rewrite (many_lazy_first _ _ body (lit "</a>" ++ post) ((λ c, [c]) <$> lit "</a>")); [done| | |done].
  - by apply Forall_forall.
  - intros i Hi. rewrite <- (app_nil_r (lits (lit "</a>"))), match_here_lits.
    replace (body ++ lit "</a>" ++ post)
      with ((body ++ lit "</a") ++ (lit ">" ++ post)) by by rewrite <- app_assoc.
    rewrite drop_app_le by (rewrite length_app; simpl; lia).
    rewrite startswith_long.
    + by rewrite contains_false_drop.
    + rewrite length_drop, length_app. simpl. lia.
Qed.

(** The rest of the opening tag, the body and the closing tag. *)
Lemma tail_here (z body post : str) :
  Forall (λ c, Kelly.not_gt c = true) z →
  contains (lit "</a>") (body ++ lit "</a") = false →
  match_here (Many Kelly.not_gt 0 true :: Lit (ch ">")
              :: Many Kelly.any_char 0 false :: lits (lit "</a>"))
    (z ++ ch ">" :: body ++ lit "</a>" ++ post)
  = Some (z :: [ch ">"] :: body :: ((λ c, [c]) <$> lit "</a>")).
Proof.
  intros Hz Hbody. rewrite match_here_many.
  rewrite (many_greedy_max _ _ O z (ch ">" :: body ++ lit "</a>" ++ post)
             ([ch ">"] :: body :: ((λ c, [c]) <$> lit "</a>"))); [done|done| | |simpl; lia].
  - intros x rest' [= <- _]. done.
  - rewrite match_here_lit, body_here by done. done.
Qed.

(** What a match of the pattern behind the tag name looks like. *)
Lemma after_href_inv (url s : str) (ps : list str) :
  match_here (after_href url) s = Some ps →
  ∃ q1 q2 s' ps',
    s = lit "href=" ++ q1 :: url ++ q2 :: s'
    ∧ Kelly.is_quote q1 = true ∧ Kelly.is_quote q2 = true
    ∧ match_here (Many Kelly.not_gt 0 true :: Lit (ch ">")
                  :: Many Kelly.any_char 0 false :: lits (lit "</a>")) s' = Some ps'
    ∧ concat ps = lit "href=" ++ q1 :: url ++ q2 :: concat ps'.
Proof.
  unfold after_href. rewrite match_here_lits.
  destruct (startswith (lit "href=") s) eqn:E1; [|done].
  apply startswith_spec in E1 as [s1 ->]. rewrite drop_app_length.
  destruct s1 as [|q1 s1]; [done|]. rewrite match_here_cls.
  destruct (Kelly.is_quote q1) eqn:Hq1; [|done].
  rewrite match_here_lits.
  destruct (startswith url s1) eqn:E2; [|done].
  apply startswith_spec in E2 as [s2 ->]. rewrite drop_app_length.
  destruct s2 as [|q2 s2]; [done|].
  rewrite match_here_cls.
  destruct (Kelly.is_quote q2) eqn:Hq2; [|done].
  destruct (match_here _ s2) as [ps'|] eqn:Hm; [|done].
  intros [= <-]. exists q1, q2, s2, ps'. split_and!; [done..|].
  cbn [fmap option_fmap option_map concat]. rewrite !concat_app, !concat_singletons.
  cbn [concat]. rewrite <- ?app_assoc. reflexivity.
Qed.

Lemma after_href_here (url : str) (q1 q2 : char) (s' : str) (ps' : list str) :
  Kelly.is_quote q1 = true → Kelly.is_quote q2 = true →
  match_here (Many Kelly.not_gt 0 true :: Lit (ch ">")
              :: Many Kelly.any_char 0 false :: lits (lit "</a>")) s' = Some ps' →
  is_Some (match_here (after_href url) (lit "href=" ++ q1 :: url ++ q2 :: s')).
Proof.
  intros Hq1 Hq2 Hm. unfold after_href.
  rewrite match_here_lits, startswith_app, drop_app_length.
  rewrite match_here_cls, Hq1.
  rewrite match_here_lits, startswith_app, drop_app_length.
  rewrite match_here_cls, Hq2, Hm. by eexists.
Qed.

Lemma quoted_app_one (a b : str) (c : char) (d : str) (e : char) (f : str) :
  (a ++ b ++ c :: d ++ [e]) ++ f = a ++ b ++ c :: d ++ e :: f.
Proof. rewrite <- !app_assoc. cbn [app]. by rewrite <- !app_assoc. Qed.

Lemma quoted_app (a b : str) (c : char) (d : str) (e : char) (f g : str) :
  (a ++ b ++ c :: d ++ e :: f) ++ g = a ++ b ++ c :: d ++ e :: f ++ g.
Proof. rewrite <- !app_assoc. cbn [app]. by rewrite <- !app_assoc. Qed.

(** An anchor element whose opening tag holds the address is matched by
    the anchor pattern, from its [<a] to its [</a>]. *)
Lemma anchor_matches (attrs : str) (q1 : char) (url : str) (q2 : char)
    (tail body post : str) :
  attrs ≠ [] →
  Forall (λ c, Kelly.not_gt c = true) attrs →
  Forall (λ c, Kelly.not_gt c = true) url →
  Forall (λ c, Kelly.not_gt c = true) tail →
  Kelly.is_quote q1 = true → Kelly.is_quote q2 = true →
  contains (lit "</a>") (body ++ lit "</a") = false →
  ∃ ps, match_here (Kelly.anchor_pattern url)
          (anchor_text attrs q1 url q2 tail body ++ post) = Some ps
        ∧ concat ps = anchor_text attrs q1 url q2 tail body.
Proof.
  intros Hne Hattrs Hurl Htail Hq1 Hq2 Hbody.
  pose (y := body ++ lit "</a>" ++ post).
  pose (s1 := attrs ++ lit "href=" ++ q1 :: url ++ q2 :: tail ++ ch ">" :: y).
  assert (Htext : anchor_text attrs q1 url q2 tail body ++ post = lit "<a" ++ s1).
  { unfold anchor_text, s1, y. rewrite <- !app_assoc. reflexivity. }
  rewrite Htext, anchor_pattern_split, match_here_lits, startswith_app, drop_app_length.
  rewrite match_here_many.
  (* the repetition finds a match, since the attributes can be taken *)
  destruct (many_greedy_complete Kelly.not_gt (match_here (after_href url)) 1 s1
              (List.length attrs)
              (default [] (match_here (after_href url)
                             (lit "href=" ++ q1 :: url ++ q2 :: tail ++ ch ">" :: y))))
    as [[run r] Hgreedy].
  { unfold s1. rewrite length_app. lia. }
  { unfold s1. by rewrite take_app_length. }
  { destruct attrs; [done|simpl; lia]. }
  { unfold s1. rewrite drop_app_length.
    destruct (after_href_here url q1 q2 (tail ++ ch ">" :: y)
                (tail :: [ch ">"] :: body :: ((λ c, [c]) <$> lit "</a>")) Hq1 Hq2)
      as [ps Hps]; [by apply tail_here|].
    by rewrite Hps. }
  rewrite Hgreedy. exists (((λ c, [c]) <$> lit "<a") ++ run :: r). split; [done|].
  (* whatever it took, the match ends at the closing tag *)
  apply many_greedy_sound in Hgreedy as (Hrun & _ & rest & Hs1 & Hk).
  apply after_href_inv in Hk as (q1' & q2' & s' & ps' & -> & Hq1' & Hq2' & Hm & Hc).
  destruct (before_first_gt (run ++ lit "href=" ++ q1' :: url ++ [q2']) s'
              (attrs ++ lit "href=" ++ q1 :: url ++ q2 :: tail) y) as (z & Hz & ->).
  { by rewrite quoted_app_one, quoted_app, <- Hs1. }
  { apply Forall_app. split; [done|]. apply Forall_app. split; [by repeat constructor|].
    apply Forall_cons. split; [by apply is_quote_not_gt|].
    apply Forall_app. split; [done|]. repeat constructor. by apply is_quote_not_gt. }
  assert (Hzgt : Forall (λ c, Kelly.not_gt c = true) z).
  { assert (Hall : Forall (λ c, Kelly.not_gt c = true)
                     (attrs ++ lit "href=" ++ q1 :: url ++ q2 :: tail)).
    { apply Forall_app. split; [done|]. apply Forall_app. split; [by repeat constructor|].
      apply Forall_cons. split; [by apply is_quote_not_gt|].
      apply Forall_app. split; [done|]. apply Forall_cons. split; [|done].
      by apply is_quote_not_gt. }
    rewrite Hz in Hall. by apply Forall_app in Hall as [_ Hall]. }
  unfold y in Hm. rewrite tail_here in Hm by done. apply (inj Some) in Hm. subst ps'.
  rewrite concat_app, concat_singletons. cbn [concat]. rewrite Hc. cbn [concat].
  rewrite concat_singletons. unfold anchor_text. f_equal.
  rewrite <- (quoted_app_one run (lit "href=") q1' url q2' (z ++ _)), (app_assoc _ z).
  rewrite <- Hz, quoted_app. reflexivity.
Qed.

(** No match of the anchor pattern starts where the text does not start
    with [<a]. *)
Lemma anchor_not_here (url s : str) :
  startswith (lit "<a") s = false → match_here (Kelly.anchor_pattern url) s = None.
Proof. intros H. by rewrite anchor_pattern_split, match_here_lits, H. Qed.

Lemma anchor_not_before (url pre rest : str) (i : nat) :
  contains (lit "<a") (pre ++ lit "<") = false → (i < List.length pre)%nat →
  match_here (Kelly.anchor_pattern url) (drop i (pre ++ lit "<a" ++ rest)) = None.
Proof.
  intros Hpre Hi. apply anchor_not_here.
  change (lit "<a" ++ rest) with (lit "<" ++ lit "a" ++ rest).
  rewrite app_assoc, drop_app_le by (rewrite length_app; simpl; lia).
  rewrite startswith_long.
  - by apply contains_false_drop.
  - rewrite length_drop, length_app. simpl. lia.
Qed.

(** A text without [<a] is left as it is by the substitution. *)
Lemma sub_go_no_anchor (url : str) (repl : str → str) (s : str) :
  contains (lit "<a") s = false → sub_go (Kelly.anchor_pattern url) repl s O = s.
Proof.
  intros H. rewrite <- (app_nil_r s) at 1. rewrite sub_go_copy.
  - cbn [sub_go]. by rewrite anchor_not_here, app_nil_r.
  - intros i Hi. rewrite app_nil_r. by apply anchor_not_here, contains_false_drop.
Qed.

(** The first anchor element of the address is replaced by the marker. *)
Lemma with_marker_anchor_element (U : Runtime) (url pre attrs : str) (q1 q2 : char)
    (tail body post : str) :
  char_in (ch "\") (basename url) = false →
  contains (lit "<a") (pre ++ lit "<") = false →
  attrs ≠ [] →
  Forall (λ c, Kelly.not_gt c = true) attrs →
  Forall (λ c, Kelly.not_gt c = true) url →
  Forall (λ c, Kelly.not_gt c = true) tail →
  Kelly.is_quote q1 = true → Kelly.is_quote q2 = true →
  contains (lit "</a>") (body ++ lit "</a") = false →
  with_marker U (pre ++ anchor_text attrs q1 url q2 tail body ++ post) url
  = Some (pre ++ Kelly.sound_marker (basename url)
          ++ sub_go (Kelly.anchor_pattern url) (λ _, Kelly.sound_marker (basename url)) post O).
Proof.
  intros Hn Hpre Hne Hattrs Hurl Htail Hq1 Hq2 Hbody.
  destruct (anchor_matches attrs q1 url q2 tail body post) as (ps & Hm & Hc); [done..|].
  eapply with_marker_first_anchor; [done|done| |exact Hm|exact Hc].
  intros i Hi. unfold anchor_text. rewrite <- (app_assoc (lit "<a")).
  by apply anchor_not_before.
Qed.

Section KellyLink.
Context (U : Runtime) (W : World).

(** X1, what holds of C2: when the looked-up content holds an mp3 link, the
    local file is named after the base name of the address; the download
    is made only when that file is absent; a failed download discards the
    link, and the result is that of the synthesis step on the unchanged
    content; a file that is there (found or downloaded) gives the base
    name as the sound and the content after [re.sub], which, for a name
    without a backslash, is the content with the first anchor element of
    the address replaced by the marker of that name.  An anchor element
    is [<a], attributes, [href=], the quoted address, the rest of the
    opening tag (none of them with a [>]), the body up to the first
    [</a>] and that closing tag; the rest of the content goes through the
    same substitution and stays as it is when it holds no [<a]. *)
Theorem audio_link_resolution (word html url : str) (st : state) :
  truthy (strip word) = true →
  lookup_content U W word = Some html →
  Kelly.extract_mp3_url html = Some url →
  let name := basename url in
  let local := path_join Kelly.AUDIO_DIR name in
  let result := (Kelly.process_word U W word st).1 in
  let calls := events_of (Kelly.process_word U W word) st in
  (local ∈ files st → ∀ u p, EDownload u p ∉ calls)
  ∧ (local ∉ files st →
       ∃ later, calls = lookup_events U W word ++ EDownload url local :: later)
  ∧ (local ∉ files st → http_get_ok W url = false →
       ∃ r new later,
         synthesized W (files st) (Kelly.query_of word) r new later
         ∧ result = voiced html r
         ∧ calls = lookup_events U W word ++ EDownload url local :: later)
  ∧ (local ∈ files st ∨ http_get_ok W url = true →
       result = marked U html url
       ∧ local ∈ files (Kelly.process_word U W word st).2
       ∧ ∀ t p, ESynthesize t p ∉ calls)
  ∧ (char_in (ch "\") name = false →
       ∀ pre attrs q1 q2 tail body post,
         html = pre ++ anchor_text attrs q1 url q2 tail body ++ post →
         contains (lit "<a") (pre ++ lit "<") = false →
         attrs ≠ [] →
         Forall (λ c, Kelly.not_gt c = true) (attrs ++ url ++ tail) →
         Kelly.is_quote q1 = true → Kelly.is_quote q2 = true →
         contains (lit "</a>") (body ++ lit "</a") = false →
         ∃ rest,
           marked U html url
           = Done (Some (pre ++ Kelly.sound_marker name ++ rest), Some name)
           ∧ rest = sub_go (Kelly.anchor_pattern url) (λ _, Kelly.sound_marker name) post O
           ∧ (contains (lit "<a") post = false → rest = post)).
Proof.
  intros Hd Hl Hx name local result calls.
  destruct (process_word_run U W word st) as (r & new & evs & Hw & Hrun).
  subst result calls. rewrite (events_of_advance _ _ _ _ _ _ Hrun), Hrun. simpl.
  assert (Hlook : ∀ e, e ∈ lookup_events U W word → ¬ is_audio_call e).
  { intros e. unfold lookup_events. destruct (Kelly.truthy_opt _); set_solver. }
  assert (Hmark : char_in (ch "\") name = false →
            ∀ pre attrs q1 q2 tail body post,
              html = pre ++ anchor_text attrs q1 url q2 tail body ++ post →
              contains (lit "<a") (pre ++ lit "<") = false →
              attrs ≠ [] →
              Forall (λ c, Kelly.not_gt c = true) (attrs ++ url ++ tail) →
              Kelly.is_quote q1 = true → Kelly.is_quote q2 = true →
              contains (lit "</a>") (body ++ lit "</a") = false →
              ∃ rest,
                marked U html url
                = Done (Some (pre ++ Kelly.sound_marker name ++ rest), Some name)
                ∧ rest = sub_go (Kelly.anchor_pattern url)
                           (λ _, Kelly.sound_marker name) post O
                ∧ (contains (lit "<a") post = false → rest = post)).
  { intros Hn pre attrs q1 q2 tail body post Hh Hpre Hne HF Hq1 Hq2 Hbody.
    apply Forall_app in HF as [Ha HF]. apply Forall_app in HF as [Hu Ht].
    eexists. split_and!; [|reflexivity|by apply sub_go_no_anchor].
    unfold marked. rewrite Hh. by rewrite with_marker_anchor_element. }
  inversion Hw as [| |html' r' new' evs' _ Hl' Hr]; subst; [congruence..|].
  assert (html' = html) as -> by congruence. clear Hl'.
  fold name local.
  inversion Hr as [rs ? ? Hx' _|url' Hx' Hp|url' Hx' Hp Hg|url' rs ? evs'' Hx' Hp Hg Hs];
    subst; [congruence|..]; assert (url' = url) as -> by congruence;
    fold name local in Hp |- *.
  - (* the file is there *)
    split_and!; try done.
    + intros _ u p Hin. rewrite app_nil_r in Hin. by apply Hlook in Hin.
    + intros _. split_and!; [done|set_solver|].
      intros t p Hin. rewrite app_nil_r in Hin. by apply Hlook in Hin.
  - (* downloaded *)
    split_and!; try done.
    + intros _. by exists [].
    + intros _ Hg'. congruence.
    + intros _. split_and!; [done|set_solver|].
      intros t p Hin. apply elem_of_app in Hin as [Hin|Hin]; [by apply Hlook in Hin|].
      set_solver.
  - (* the download failed *)
    split_and!; try done.
    + intros _. by exists evs''.
    + intros _ _. by exists rs, new, evs''.
    + intros [?|?]; [done|congruence].
Qed.

End KellyLink.

(** An instance of [audio_link_resolution]: the dictionary paragraph of
    [hej] links the file [abc123.mp3] in an anchor element; it is
    downloaded to [media/abc123.mp3] and the element becomes the marker. *)
Lemma audio_link_resolution_witness :
  let url := lit "https://example.org/snd/abc123.mp3" in
  let html := lit "<p>hej <a href=" ++ [Kelly.dquote] ++ url ++ [Kelly.dquote]
              ++ lit ">listen</a></p>" in
  let W := one_word_world (lit "hej") html in
  truthy (strip (lit "hej")) = true
  ∧ lookup_content latin1_only W (lit "hej") = Some html
  ∧ Kelly.extract_mp3_url html = Some url
  ∧ html = lit "<p>hej "
           ++ anchor_text (lit " ") Kelly.dquote url Kelly.dquote [] (lit "listen")
           ++ lit "</p>"
  ∧ marked latin1_only html url
    = Done (Some (lit "<p>hej " ++ Kelly.sound_marker (lit "abc123.mp3") ++ lit "</p>"),
            Some (lit "abc123.mp3"))
  ∧ Kelly.process_word latin1_only W (lit "hej") (initial ∅)
    = (Done (Some (lit "<p>hej [sound:abc123.mp3]</p>"), Some (lit "abc123.mp3")),
       {| files := {[ lit "media/abc123.mp3" ]}; written := [];
          log := [EFetch (lit "hej"); EDownload url (lit "media/abc123.mp3")] |}).
Proof.
  intros url html W.
  assert (H1 : truthy (strip (lit "hej")) = true) by (vm_compute; reflexivity).
  assert (H2 : lookup_content latin1_only W (lit "hej") = Some html)
    by (vm_compute; reflexivity).
  assert (H3 : Kelly.extract_mp3_url html = Some url) by (vm_compute; reflexivity).
  assert (H4 : html = lit "<p>hej "
                 ++ anchor_text (lit " ") Kelly.dquote url Kelly.dquote [] (lit "listen")
                 ++ lit "</p>") by (vm_compute; reflexivity).
  assert (Hname : basename url = lit "abc123.mp3") by (vm_compute; reflexivity).
  destruct (audio_link_resolution latin1_only W _ _ _ (initial ∅) H1 H2 H3)
    as (_ & Hcalls & _ & Hres & Hmark).
  destruct (Hmark ltac:(vm_compute; reflexivity) _ _ _ _ _ _ _ H4)
    as (rest & Hm & _ & Hrest).
  { vm_compute; reflexivity. }
  { done. }
  { repeat constructor. }
  { vm_compute; reflexivity. }
  { vm_compute; reflexivity. }
  { vm_compute; reflexivity. }
  rewrite Hrest, Hname in Hm by (vm_compute; reflexivity).
  split_and!; [done..|].
  destruct Hres as (Hres & _ & _); [by right|].
  destruct (Kelly.process_word latin1_only W (lit "hej") (initial ∅)) as [r st'] eqn:Hrun.
  simpl in Hres. subst r.
  vm_compute in Hrun. injection Hrun as <-. vm_compute. reflexivity.
Defined.

(** C2, the failing input: the dictionary paragraph of [hej] links a file
    whose name holds a backslash and a digit.  The file is downloaded,
    and then [re.sub] reads the marker [[sound:a\1.mp3]] as a template
    with a reference to group 1, which the anchor pattern does not have:
    it raises, nothing catches it, and the anchor is not replaced. *)
Theorem anchor_replacement_raises_on_backslash_name :
  let url := lit "https://example.org/a\1.mp3" in
  let html := lit "<p>hej <a href=" ++ [Kelly.dquote] ++ url ++ [Kelly.dquote]
              ++ lit ">listen</a></p>" in
  let W := one_word_world (lit "hej") html in
  Kelly.extract_mp3_url html = Some url
  ∧ basename url = lit "a\1.mp3"
  ∧ Template.cpython_template (Kelly.sound_marker (lit "a\1.mp3")) = None
  ∧ Kelly.process_word latin1_only W (lit "hej") (initial ∅)
    = (Raised ReplacementTemplate,
       {| files := {[ lit "media/a\1.mp3" ]}; written := [];
          log := [EFetch (lit "hej"); EDownload url (lit "media/a\1.mp3")] |}).
Proof. vm_compute. by repeat split. Qed.

(** ** Where a text can start *)

Lemma lookup_char_in (l : str) (k : nat) (c : char) :
  l !! k = Some c → char_in c l = true.
Proof.
  revert k. induction l as [|x l IH]; intros k H; [done|].
  unfold char_in. cbn [existsb]. destruct k as [|k]; simplify_eq/=.
  - by rewrite char_eqb_refl.
  - apply IH in H. unfold char_in in H. rewrite H. apply orb_true_r.
Qed.

(** A text [l] that starts before the end of [a] and goes on behind it
    has, at that place, the character that follows [a]. *)
Lemma startswith_reaches (l a : str) (c : char) (r : str) :
  startswith l (a ++ c :: r) = true → (List.length a < List.length l)%nat →
  l !! List.length a = Some c.
Proof.
  revert l. induction a as [|x a IH]; intros l H Hlen.
  - destruct l as [|y l]; [simpl in Hlen; lia|]. simpl in H.
    apply andb_true_iff in H as [H _]. by apply char_eqb_eq in H as ->.
  - destruct l as [|y l]; [simpl in Hlen; lia|]. simpl in H.
    apply andb_true_iff in H as [_ H]. apply IH in H; [done|simpl in Hlen; lia].
Qed.

(** No occurrence of [l] starts in [pre] when [pre] holds none and the
    character behind [pre] is none of [l] behind its first one. *)
Lemma no_start_in_pre (l pre : str) (c : char) (rest : str) (i : nat) :
  contains l pre = false → (i < List.length pre)%nat → char_in c (tl l) = false →
  startswith l (drop i (pre ++ c :: rest)) = false.
Proof.
  intros Hpre Hi Hc. rewrite drop_app_le by lia.
  destruct (decide (List.length l ≤ List.length (drop i pre))%nat) as [Hl|Hl].
  - rewrite startswith_long by done. by apply contains_false_drop.
  - destruct (startswith l (drop i pre ++ c :: rest)) eqn:E; [|done].
    apply startswith_reaches in E; [|lia].
    destruct l as [|y l]; [done|].
    destruct (List.length (drop i pre)) as [|k] eqn:Hk.
    { rewrite length_drop in Hk. lia. }
    simpl in E, Hc. apply lookup_char_in in E. congruence.
Qed.

(** No occurrence of [l] starts in a text made of three parts when the
    outer parts hold none and the middle part breaks every start: its
    first character is none of [l] behind the first, its other
    characters are not the first of [l]. *)
Lemma no_start_around (x : char) (l pre mid post : str) (i : nat) :
  contains (x :: l) pre = false → contains (x :: l) post = false →
  mid ≠ [] → char_in (hd x mid) l = false →
  Forall (λ c, char_eqb x c = false) (tl mid) →
  i ≠ List.length pre →
  startswith (x :: l) (drop i (pre ++ mid ++ post)) = false.
Proof.
  intros Hpre Hpost Hne Hhd Htl Hi.
  destruct mid as [|c mid]; [done|]. cbn [hd tl] in *.
  destruct (decide (i < List.length pre)%nat) as [Hlt|Hge].
  { by apply no_start_in_pre. }
  rewrite drop_app_ge by lia.
  destruct (i - List.length pre)%nat as [|j] eqn:Hj; [lia|]. cbn [app drop].
  destruct (decide (j < List.length mid)%nat) as [Hjl|Hjl].
  - rewrite drop_app_le by lia.
    destruct (drop j mid) as [|c' m'] eqn:Hd.
    { apply (f_equal List.length) in Hd. rewrite length_drop in Hd. simpl in Hd. lia. }
    pose proof (Forall_drop _ j _ Htl) as Hc'. rewrite Hd in Hc'.
    apply Forall_cons in Hc' as [Hc' _]. cbn [app startswith]. by rewrite Hc'.
  - rewrite drop_app_ge by lia. by apply contains_false_drop.
Qed.

(** A run of white space is fixed by the letter that ends it. *)
Lemma space_run_unique (ws ws' a b : str) :
  Forall (λ c, py_isspace c = true) ws → Forall (λ c, py_isspace c = true) ws' →
  ws ++ ch "s" :: a = ws' ++ ch "s" :: b → ws = ws' ∧ a = b.
Proof.
  intros Hws. revert ws'. induction Hws as [|c ws Hc Hws IH]; intros ws' Hws' Heq.
  - destruct Hws' as [|c' ws' Hc' _]; [by simplify_eq/=|].
    simpl in Heq. injection Heq as <- _. by vm_compute in Hc'.
  - destruct Hws' as [|c' ws' Hc' Hws'].
    + simpl in Heq. injection Heq as -> _. by vm_compute in Hc.
    + simpl in Heq. injection Heq as -> Heq.
      destruct (IH _ Hws' Heq) as [-> ->]. done.
Qed.

(** ** The address of the audio link *)

(** A greedy repetition takes the longest run behind which its
    continuation matches. *)
Lemma many_greedy_pick {A} p (k : str → option A) least s j r :
  (j ≤ List.length s)%nat → Forall (λ x, p x = true) (take j s) → (least ≤ j)%nat →
  k (drop j s) = Some r →
  (∀ j', (j < j' ≤ List.length s)%nat → Forall (λ x, p x = true) (take j' s) →
         k (drop j' s) = None) →
  many_greedy p k least s = Some (take j s, r).
Proof.
  revert least j. induction s as [|x s IH]; intros least j Hj Hall Hle Hk Hlater.
  - simpl in Hj. assert (j = O) as -> by lia. assert (least = O) as -> by lia.
    simpl in *. by rewrite Hk.
  - destruct j as [|j].
    + assert (least = O) as -> by lia. simpl in Hk. cbn [many_greedy take]. rewrite Hk.
      destruct (p x) eqn:Hx; [|done].
      destruct (many_greedy p k (Nat.pred 0) s) as [[run r']|] eqn:Hrec; [|done].
      apply many_greedy_sound in Hrec as (Hrun & _ & rest & -> & Hrest).
      assert (Hn : k (drop (S (List.length run)) (x :: run ++ rest)) = None).
      { apply Hlater; [rewrite length_cons, length_app; lia|].
        cbn [take]. rewrite take_app_length. by constructor. }
      cbn [drop] in Hn. rewrite drop_app_length in Hn. congruence.
    + cbn [take] in Hall. apply Forall_cons in Hall as [Hx Hall].
      cbn [many_greedy take]. rewrite Hx.
      rewrite (IH (Nat.pred least) j); [done|simpl in Hj; lia|done|lia|done|].
      intros j' Hj' Hall'. apply (Hlater (S j')); [simpl; lia|].
      cbn [take]. by constructor.
Qed.

Lemma match_here_opt_skip (c : char) (pat : pattern) (x : char) (s : str) :
  char_eqb x c = false →
  match_here (Opt c :: pat) (x :: s) = cons [] <$> match_here pat (x :: s).
Proof. intros E. cbn [match_here]. by rewrite E. Qed.

Lemma match_here_opt_take (c : char) (pat : pattern) (s : str) (ps : list str) :
  match_here pat s = Some ps →
  match_here (Opt c :: pat) (c :: s) = Some ([c] :: ps).
Proof. intros E. cbn [match_here]. by rewrite char_eqb_refl, E. Qed.

(** The search passes over the positions at which the pattern does not
    match. *)
Lemma search_skip (pat : pattern) (pre s : str) :
  (∀ i, (i < List.length pre)%nat → match_here pat (drop i (pre ++ s)) = None) →
  search pat (pre ++ s) = search pat s.
Proof.
  induction pre as [|x pre IH]; intros H; [done|].
  assert (H0 : match_here pat (x :: pre ++ s) = None) by (apply (H O); simpl; lia).
  cbn [search app]. rewrite H0. apply IH.
  intros i Hi. apply (H (S i)). simpl; lia.
Qed.

Lemma search_here (pat : pattern) (s : str) (ps : list str) :
  match_here pat s = Some ps → search pat s = Some ps.
Proof. intros H. destruct s; simpl; by rewrite H. Qed.

(** What the search finds is the match at the first position that has one. *)
Lemma search_first (pat : pattern) (s : str) (ps : list str) :
  search pat s = Some ps →
  ∃ pre rest, s = pre ++ concat ps ++ rest
    ∧ match_here pat (concat ps ++ rest) = Some ps
    ∧ ∀ i, (i < List.length pre)%nat → match_here pat (drop i s) = None.
Proof.
  induction s as [|x s IH]; simpl; intros H.
  - destruct (match_here pat []) eqn:Hm; [|done]. simplify_eq.
    destruct (match_here_sound _ _ _ Hm) as [HF [rest Hs]].
    exists [], rest. rewrite <- Hs. split_and!; [done..|]. simpl. lia.
  - destruct (match_here pat (x :: s)) eqn:Hm.
    + simplify_eq. destruct (match_here_sound _ _ _ Hm) as [HF [rest Hs]].
      exists [], rest. rewrite <- Hs. split_and!; [done..|]. simpl; lia.
    + destruct (IH H) as (pre & rest & -> & Hhere & Hbefore).
      exists (x :: pre), rest. split_and!; [done..|].
      intros [|i] Hi; [done|]. apply Hbefore. simpl in Hi; lia.
Qed.

Lemma is_quote_cases (q : char) :
  Kelly.is_quote q = true → q = Kelly.squote ∨ q = Kelly.dquote.
Proof.
  unfold Kelly.is_quote, char_in. cbn [existsb]. rewrite orb_false_r.
  intros H. apply orb_true_iff in H as [H|H]; apply char_eqb_eq in H; auto.
Qed.

(** Behind the address nothing but the whole of [run] lets the pattern go on. *)
Lemma mp3_tail_here (q2 : char) (post : str) :
  Kelly.is_quote q2 = true →
  match_here (lits (lit ".mp3") ++ [Cls Kelly.is_quote]) (lit ".mp3" ++ q2 :: post)
  = Some (((λ c, [c]) <$> lit ".mp3") ++ [[q2]]).
Proof.
  intros Hq. rewrite match_here_lits, startswith_app, drop_app_length.
  cbn [match_here]. by rewrite Hq.
Qed.

Lemma mp3_run_taken (run : str) (q2 : char) (post : str) :
  run ≠ [] → Forall (λ c, Kelly.not_quote c = true) run → Kelly.is_quote q2 = true →
  many_greedy Kelly.not_quote
    (match_here (lits (lit ".mp3") ++ [Cls Kelly.is_quote])) 1
    (run ++ lit ".mp3" ++ q2 :: post)
  = Some (run, ((λ c, [c]) <$> lit ".mp3") ++ [[q2]]).
Proof.
  intros Hne Hrun Hq.
  rewrite (many_greedy_pick _ _ 1 _ (List.length run)
             (((λ c, [c]) <$> lit ".mp3") ++ [[q2]])).
  - by rewrite take_app_length.
  - rewrite length_app. lia.
  - by rewrite take_app_length.
  - destruct run; [done|simpl; lia].
  - rewrite drop_app_length. by apply mp3_tail_here.
  - intros j' Hj' Hall.
    replace j' with (List.length run + (j' - List.length run))%nat in Hall |- * by lia.
    rewrite drop_app_add. rewrite take_app_add in Hall.
    apply Forall_app in Hall as [_ Hall].
    destruct (j' - List.length run)%nat as [|[|[|[|[|d]]]]] eqn:Hd; [lia|..].
    + done.
    + done.
    + done.
    + cbn [drop lit app]. rewrite match_here_lits.
      apply is_quote_cases in Hq as [->| ->]; done.
    + exfalso. cbn in Hall. do 4 apply Forall_cons in Hall as [_ Hall].
      apply Forall_cons in Hall as [Hq2 _].
      unfold Kelly.not_quote in Hq2. by rewrite Hq in Hq2.
Qed.

Lemma mp3_rest_here (run : str) (q2 : char) (post : str) :
  run ≠ [] → Forall (λ c, Kelly.not_quote c = true) run → Kelly.is_quote q2 = true →
  match_here (lits (lit "://") ++ [Many Kelly.not_quote 1 true] ++ lits (lit ".mp3")
              ++ [Cls Kelly.is_quote])
    (lit "://" ++ run ++ lit ".mp3" ++ q2 :: post)
  = Some (((λ c, [c]) <$> lit "://") ++ run :: ((λ c, [c]) <$> lit ".mp3") ++ [[q2]]).
Proof.
  intros Hne Hrun Hq. rewrite match_here_lits, startswith_app, drop_app_length.
  change ([Many Kelly.not_quote 1 true] ++ ?p) with (Many Kelly.not_quote 1 true :: p).
  rewrite match_here_many, mp3_run_taken by done. done.
Qed.

(** The pattern of [extract_mp3_url] on a quoted address. *)
Lemma mp3_href_here (q1 : char) (s run : str) (q2 : char) (post : str) :
  Kelly.is_quote q1 = true → Kelly.is_quote q2 = true →
  s = [] ∨ s = lit "s" →
  run ≠ [] → Forall (λ c, Kelly.not_quote c = true) run →
  ∃ ps, match_here Kelly.mp3_href
          (lit "href=" ++ q1 :: (lit "http" ++ s ++ lit "://" ++ run ++ lit ".mp3")
           ++ q2 :: post) = Some ps
        ∧ group 6 13 ps = lit "http" ++ s ++ lit "://" ++ run ++ lit ".mp3".
Proof.
  intros Hq1 Hq2 Hs Hne Hrun. unfold Kelly.mp3_href.
  rewrite match_here_lits, startswith_app, drop_app_length.
  change ([Cls Kelly.is_quote] ++ ?p) with (Cls Kelly.is_quote :: p).
  rewrite match_here_cls, Hq1.
  rewrite <- !app_assoc.
  rewrite match_here_lits, startswith_app, drop_app_length.
  change ([Opt (ch "s")] ++ ?p) with (Opt (ch "s") :: p).
  pose proof (mp3_rest_here run q2 post Hne Hrun Hq2) as Hrest.
  destruct Hs as [-> | ->].
  - change ([] ++ lit "://" ++ ?x) with (ch ":" :: (lit "//" ++ x)).
    rewrite match_here_opt_skip by done.
    change (ch ":" :: (lit "//" ++ ?x)) with (lit "://" ++ x).
    rewrite Hrest. eexists. split; [reflexivity|].
    unfold group. cbn. by rewrite ?app_nil_r.
  - change (lit "s" ++ ?x) with (ch "s" :: x).
    rewrite (match_here_opt_take _ _ _ _ Hrest).
    eexists. split; [reflexivity|].
    unfold group. cbn. by rewrite ?app_nil_r.
Qed.

(** The texts matched by the atoms of the pattern of [extract_mp3_url]. *)
Lemma mp3_href_pieces (ps : list str) :
  Forall2 atom_text Kelly.mp3_href ps →
  ∃ s run q1 q2,
    (s = [] ∨ s = lit "s") ∧ Forall (λ c, Kelly.not_quote c = true) run ∧ run ≠ []
    ∧ Kelly.is_quote q1 = true ∧ Kelly.is_quote q2 = true
    ∧ group 6 13 ps = lit "http" ++ s ++ lit "://" ++ run ++ lit ".mp3"
    ∧ concat ps = lit "href=" ++ q1 :: group 6 13 ps ++ [q2].
Proof.
  intros HF. unfold Kelly.mp3_href, lits in HF. eval_lits. cbn [map app] in HF.
  repeat match goal with
         | H : Forall2 atom_text (_ :: _) _ |- _ =>
             apply Forall2_cons_inv_l in H as (? & ? & ? & H & ->)
         | H : Forall2 atom_text [] _ |- _ => apply Forall2_nil_inv_l in H as ->
         end.
  cbn [atom_text] in *.
  repeat match goal with
         | H : ∃ _, _ |- _ => destruct H as (? & -> & ?)
         | H : _ ∧ _ |- _ => destruct H
         | H : ?x = [_] |- _ => subst x
         end.
  match goal with H : ?x = [] ∨ _ |- _ => rename H into Hopt; exists x end.
  match goal with H : Forall _ ?r |- _ => rename H into Hrun; exists r end.
  eexists _, _. split_and!; cycle 6.
  - unfold group; cbn [skipn firstn concat app].
    rewrite <- app_assoc. cbn [app]. rewrite <- app_assoc. cbn [app]. reflexivity.
  - exact Hopt.
  - exact Hrun.
  - intros ->; simpl in *; lia.
  - done.
  - done.
  - unfold group; cbn [skipn firstn concat app]. reflexivity.
Qed.

(** X2: what [extract_mp3_url] returns stands in the content between two
    quote characters right behind an [href=]; it begins with [http://] or
    [https://], ends in [.mp3] with at least one character in between,
    and holds no quote character; no earlier place of the content matches
    the pattern.  A content without [href=] has no address. *)
Theorem extracted_address_is_quoted_mp3_link (html : str) :
  (∀ url, Kelly.extract_mp3_url html = Some url →
     ∃ pre q1 q2 post stem,
       html = pre ++ lit "href=" ++ q1 :: url ++ q2 :: post
       ∧ Kelly.is_quote q1 = true ∧ Kelly.is_quote q2 = true
       ∧ (url = lit "http://" ++ stem ++ lit ".mp3"
          ∨ url = lit "https://" ++ stem ++ lit ".mp3")
       ∧ stem ≠ []
       ∧ Forall (λ c, Kelly.is_quote c = false) url
       ∧ ∀ i, (i < List.length pre)%nat →
              match_here Kelly.mp3_href (drop i html) = None)
  ∧ (contains (lit "href=") html = false → Kelly.extract_mp3_url html = None).
Proof.
  assert (Hshape : ∀ url, Kelly.extract_mp3_url html = Some url →
     ∃ pre q1 q2 post stem,
       html = pre ++ lit "href=" ++ q1 :: url ++ q2 :: post
       ∧ Kelly.is_quote q1 = true ∧ Kelly.is_quote q2 = true
       ∧ (url = lit "http://" ++ stem ++ lit ".mp3"
          ∨ url = lit "https://" ++ stem ++ lit ".mp3")
       ∧ stem ≠ []
       ∧ Forall (λ c, Kelly.is_quote c = false) url
       ∧ ∀ i, (i < List.length pre)%nat →
              match_here Kelly.mp3_href (drop i html) = None).
  { intros url. unfold Kelly.extract_mp3_url.
    destruct (search Kelly.mp3_href html) as [ps|] eqn:Hs; [|done].
    intros [= <-]. apply search_first in Hs as (pre & post & -> & Hm & Hfirst).
    apply match_here_sound in Hm as [HF _].
    apply mp3_href_pieces in HF as (s & run & q1 & q2 & Hs & Hrun & Hne & Hq1 & Hq2 & Hg & Hc).
    exists pre, q1, q2, post, run. rewrite Hc in Hfirst |- *.
    assert (Hnq : Forall (λ c, Kelly.is_quote c = false) run).
    { eapply Forall_impl; [exact Hrun|]. intros c Hcq.
      unfold Kelly.not_quote in Hcq. by destruct (Kelly.is_quote c). }
    split_and!.
    - rewrite <- !app_assoc. cbn [app]. rewrite <- !app_assoc. reflexivity.
    - exact Hq1.
    - exact Hq2.
    - rewrite Hg. destruct Hs as [-> | ->]; [by left|by right].
    - exact Hne.
    - rewrite Hg. repeat (apply Forall_app; split); try done; try by repeat constructor.
      destruct Hs as [-> | ->]; by repeat constructor.
    - exact Hfirst. }
  split; [exact Hshape|].
  intros Hno. destruct (Kelly.extract_mp3_url html) as [url|] eqn:Hx; [|done].
  destruct (Hshape url eq_refl) as (pre & q1 & q2 & post & _ & -> & _).
  assert (Hyes : contains (lit "href=") (pre ++ lit "href=" ++ q1 :: url ++ q2 :: post) = true)
    by (apply contains_spec; eauto).
  congruence.
Qed.

(** X3: a content whose first [href=] is followed by a quoted [http] or
    [https] address that ends in [.mp3] gives that address. *)
Theorem first_quoted_mp3_address_found (pre : str) (q1 : char) (s run : str)
    (q2 : char) (post : str) :
  contains (lit "href=") pre = false →
  Kelly.is_quote q1 = true → Kelly.is_quote q2 = true →
  s = [] ∨ s = lit "s" →
  run ≠ [] → Forall (λ c, Kelly.is_quote c = false) run →
  let url := lit "http" ++ s ++ lit "://" ++ run ++ lit ".mp3" in
  Kelly.extract_mp3_url (pre ++ lit "href=" ++ q1 :: url ++ q2 :: post) = Some url.
Proof.
  intros Hpre Hq1 Hq2 Hs Hne Hrun url. subst url.
  assert (Hrun' : Forall (λ c, Kelly.not_quote c = true) run).
  { eapply Forall_impl; [exact Hrun|]. intros c Hc. unfold Kelly.not_quote. by rewrite Hc. }
  destruct (mp3_href_here q1 s run q2 post Hq1 Hq2 Hs Hne Hrun') as (ps & Hm & Hg).
  unfold Kelly.extract_mp3_url. rewrite search_skip.
  - rewrite (search_here _ _ ps Hm). cbn. by rewrite Hg.
  - intros i Hi. unfold Kelly.mp3_href. rewrite match_here_lits.
    change (lit "href=" ++ ?x) with (ch "h" :: (lit "ref=" ++ x)).
    by rewrite no_start_in_pre.
Qed.

(** A page with two links: the first quoted mp3 address is the one found. *)
Lemma first_quoted_mp3_address_found_witness :
  Kelly.extract_mp3_url
    (lit "<p>hej <a href='https://example.org/a.mp3'>x</a> <a href='http://b.mp3'>y</a></p>")
  = Some (lit "https://example.org/a.mp3").
Proof.
  apply (first_quoted_mp3_address_found (lit "<p>hej <a ") Kelly.squote (lit "s")
           (lit "example.org/a") Kelly.squote
           (lit ">x</a> <a href='http://b.mp3'>y</a></p>")).
  - vm_compute; reflexivity.
  - vm_compute; reflexivity.
  - vm_compute; reflexivity.
  - by right.
  - done.
  - repeat constructor.
Defined.

(** ** The icons of the dictionary page *)

Lemma img_pattern_split (name : str) :
  Kelly.img_pattern name
  = lits (lit "<img") ++ Many py_isspace 1 true
    :: lits (icon_source name) ++ [Many Kelly.not_gt 0 true; Lit (ch ">")].
Proof.
  unfold Kelly.img_pattern, icon_source, lits. rewrite !map_app, <- !app_assoc. reflexivity.
Qed.

Lemma icon_source_head (name : str) :
  ∃ l, icon_source name = ch "s" :: l.
Proof. by eexists. Qed.

(** The text before the first [>]. *)
Lemma first_gt (t : str) :
  char_in (ch ">") t = true →
  ∃ a b, t = a ++ ch ">" :: b ∧ Forall (λ c, Kelly.not_gt c = true) a.
Proof.
  induction t as [|c t IH]; [done|]. unfold char_in. cbn [existsb].
  destruct (char_eqb (ch ">") c) eqn:E.
  - intros _. apply char_eqb_eq in E as <-. by exists [], t.
  - intros H. destruct (IH H) as (a & b & -> & Ha). exists (c :: a), b. split; [done|].
    constructor; [|done]. unfold Kelly.not_gt. by rewrite char_eqb_sym, E.
Qed.

(** The pattern of an icon on an image tag of that icon. *)
Lemma img_here (name ws attrs rest : str) :
  ws ≠ [] → Forall (λ c, py_isspace c = true) ws →
  Forall (λ c, Kelly.not_gt c = true) attrs →
  match_here (Kelly.img_pattern name) (icon_tag name ws attrs ++ rest)
  = Some (((λ c, [c]) <$> lit "<img") ++ ws
          :: ((λ c, [c]) <$> icon_source name) ++ [attrs; [ch ">"]]).
Proof.
  intros Hne Hws Hattrs. rewrite img_pattern_split. unfold icon_tag.
  rewrite <- !app_assoc.
  rewrite match_here_lits, startswith_app, drop_app_length, match_here_many.
  rewrite (many_greedy_max _ _ 1 ws _
             (((λ c, [c]) <$> icon_source name) ++ [attrs; [ch ">"]])); [done|done| | |].
  - intros x rest' Heq. destruct (icon_source_head name) as [l Hl].
    rewrite Hl in Heq. by injection Heq as <- _.
  - rewrite match_here_lits, startswith_app, drop_app_length, match_here_many.
    rewrite (many_greedy_max _ _ O attrs _ [[ch ">"]]); [done|done| | |simpl; lia].
    + by intros x rest' [= <- _].
    + done.
  - destruct ws; [done|simpl; lia].
Qed.

(** What a match of the pattern of an icon looks like. *)
Lemma img_inv (name s : str) (ps : list str) :
  match_here (Kelly.img_pattern name) s = Some ps →
  ∃ ws attrs rest,
    s = icon_tag name ws attrs ++ rest
    ∧ ws ≠ [] ∧ Forall (λ c, py_isspace c = true) ws
    ∧ Forall (λ c, Kelly.not_gt c = true) attrs
    ∧ concat ps = icon_tag name ws attrs.
Proof.
  rewrite img_pattern_split, match_here_lits.
  destruct (startswith (lit "<img") s) eqn:E1; [|done].
  apply startswith_spec in E1 as [s1 ->]. rewrite drop_app_length, match_here_many.
  destruct (many_greedy _ _ 1 s1) as [[ws r]|] eqn:Hg; [|done].
  apply many_greedy_sound in Hg as (Hws & Hlen & s2 & -> & Hk).
  rewrite match_here_lits in Hk.
  destruct (startswith (icon_source name) s2) eqn:E2; [|done].
  apply startswith_spec in E2 as [s3 ->]. rewrite drop_app_length, match_here_many in Hk.
  destruct (many_greedy _ _ O s3) as [[attrs r']|] eqn:Hg'; [|done].
  apply many_greedy_sound in Hg' as (Hattrs & _ & s4 & -> & Hk').
  destruct s4 as [|x s4]; [done|]. rewrite match_here_lit in Hk'.
  destruct (char_eqb x (ch ">")) eqn:E3; [|done]. apply char_eqb_eq in E3 as ->.
  change (Some [[ch ">"]] = Some r') in Hk'. apply (inj Some) in Hk' as <-.
  change (Some (((λ c, [c]) <$> icon_source name) ++ [attrs; [ch ">"]]) = Some r) in Hk.
  apply (inj Some) in Hk as <-. intros Hps.
  change (Some (((λ c, [c]) <$> lit "<img") ++ ws
                :: ((λ c, [c]) <$> icon_source name) ++ [attrs; [ch ">"]]) = Some ps) in Hps.
  apply (inj Some) in Hps as <-.
  exists ws, attrs, s4. split_and!; try done.
  - unfold icon_tag. by rewrite <- !app_assoc.
  - intros ->. simpl in Hlen. lia.
  - rewrite concat_app, !concat_singletons. cbn [concat].
    rewrite concat_app, !concat_singletons. cbn [concat]. unfold icon_tag.
    rewrite app_nil_r. reflexivity.
Qed.

Lemma img_not_here (name s : str) :
  startswith (lit "<img") s = false → match_here (Kelly.img_pattern name) s = None.
Proof. intros H. by rewrite img_pattern_split, match_here_lits, H. Qed.

(** The characters of a substitution by a fixed text come from the text
    or from the replacement. *)
Lemma sub_go_chars (pat : pattern) (e s : str) (skip : nat) (c : char) :
  char_in c (sub_go pat (λ _, e) s skip) = true →
  char_in c e = true ∨ char_in c s = true.
Proof.
  revert skip. induction s as [|x s IH]; intros skip.
  - destruct skip; cbn [sub_go]; [|done].
    destruct (match_here pat []) as [ps|]; [|done].
    destruct (List.length (concat ps)); rewrite ?app_nil_r; auto.
  - assert (Hcopy : char_in c (x :: sub_go pat (λ _, e) s O) = true →
                    char_in c e = true ∨ char_in c (x :: s) = true).
    { unfold char_in at 1 3. cbn [existsb]. intros H.
      apply orb_true_iff in H as [H|H]; [right; by rewrite H|].
      destruct (IH O H) as [?|Hs]; [by left|right]. unfold char_in in Hs.
      rewrite Hs. apply orb_true_r. }
    assert (Hrest : ∀ k, char_in c (sub_go pat (λ _, e) s k) = true →
                         char_in c e = true ∨ char_in c (x :: s) = true).
    { intros k H. destruct (IH k H) as [?|Hs]; [by left|right].
      unfold char_in in *. cbn [existsb]. rewrite Hs. apply orb_true_r. }
    destruct skip; cbn [sub_go]; [|by apply Hrest].
    destruct (match_here pat (x :: s)) as [ps|]; [|by apply Hcopy].
    destruct (List.length (concat ps)); rewrite char_in_app; intros H;
      apply orb_true_iff in H as [H|H];
      [by left|by apply Hcopy|by left|by eapply Hrest, H].
Qed.

Section Replaced.
Context (pat : pattern) (e : str).
Hypothesis nonempty_text : e ≠ [].

(** A part of the result that holds no character of the replacement was
    copied from the text, where it stands at the same place. *)
Lemma sub_go_copied_prefix (u s r : str) :
  Forall (λ c, char_in c e = false) u →
  sub_go pat (λ _, e) s O = u ++ r →
  ∃ r_in, s = u ++ r_in ∧ sub_go pat (λ _, e) r_in O = r.
Proof using nonempty_text.
  intros Hu. revert s. induction Hu as [|c u Hc Hu IH]; intros s Hs; [by exists s|].
  assert (Hhead : ∀ t, e ++ t ≠ (c :: u) ++ r).
  { intros t Heq. destruct e as [|c' e']; [done|]. injection Heq as -> _.
    unfold char_in in Hc. cbn [existsb] in Hc. by rewrite char_eqb_refl in Hc. }
  destruct s as [|x s]; cbn [sub_go] in Hs.
  - destruct (match_here pat []) as [ps|] eqn:Hm; [|done].
    destruct (List.length (concat ps)); by apply Hhead in Hs.
  - destruct (match_here pat (x :: s)) as [ps|] eqn:Hm.
    + destruct (List.length (concat ps)); by apply Hhead in Hs.
    + injection Hs as -> Hs. destruct (IH _ Hs) as (r_in & -> & Hr). by exists r_in.
Qed.

(** A text without a match is left as it is. *)
Lemma sub_go_same (s : str) :
  matchless pat s → sub_go pat (λ _, e) s O = s.
Proof.
  intros H. induction s as [|x s IH].
  - pose proof (H O) as H0. cbn [drop] in H0. cbn [sub_go]. by rewrite H0.
  - pose proof (H O) as H0. cbn [drop] in H0. cbn [sub_go].
    rewrite H0, IH; [done|]. intros i. apply (H (S i)).
Qed.

End Replaced.

Lemma img_match_nonempty (name s : str) (ps : list str) :
  match_here (Kelly.img_pattern name) s = Some ps → concat ps ≠ [].
Proof.
  intros H. apply img_inv in H as (ws & attrs & rest & _ & _ & _ & _ & ->). done.
Qed.

(** The replacement of an icon holds no ASCII character and no white
    space, so none of the characters of the start of an image tag. *)
Lemma not_in_emoji (e : str) (c : char) :
  Forall (λ x, is_ascii x = false ∧ py_isspace x = false) e →
  is_ascii c = true ∨ py_isspace c = true → char_in c e = false.
Proof.
  intros He Hc. induction He as [|x e [Hx1 Hx2] He IH]; [done|].
  unfold char_in in *. cbn [existsb]. rewrite IH, orb_false_r.
  destruct (char_eqb c x) eqn:E; [|done]. apply char_eqb_eq in E as ->.
  destruct Hc; congruence.
Qed.

Section IconReplaced.
Context (name name' e : str).
Hypothesis ascii_name : Forall (λ c, is_ascii c = true) name.
Hypothesis nonempty_text : e ≠ [].
Hypothesis emoji : Forall (λ x, is_ascii x = false ∧ py_isspace x = false) e.

Lemma icon_start_plain (ws : str) :
  Forall (λ c, py_isspace c = true) ws →
  Forall (λ c, char_in c e = false) (lit "img" ++ ws ++ icon_source name).
Proof using ascii_name emoji.
  intros Hws. apply Forall_app. split.
  { repeat constructor; by apply not_in_emoji; [|left]. }
  apply Forall_app. split.
  { eapply Forall_impl; [exact Hws|]. intros c Hc. apply not_in_emoji; auto. }
  unfold icon_source. repeat (apply Forall_app; split);
    try (repeat constructor; by apply not_in_emoji; [|left]).
  eapply Forall_impl; [exact ascii_name|]. intros c Hc. apply not_in_emoji; auto.
Qed.

(** After the substitution of one icon, an image tag of an icon can only
    stand where the text had one that the substitution did not take. *)
Lemma img_sub_go_clean (s : str) (skip : nat) :
  (∀ i, is_Some (match_here (Kelly.img_pattern name) (drop i s)) →
        is_Some (match_here (Kelly.img_pattern name') (drop i s))) →
  matchless (Kelly.img_pattern name) (sub_go (Kelly.img_pattern name') (λ _, e) s skip).
Proof using ascii_name nonempty_text emoji.
  revert skip. induction s as [|x s IH]; intros skip H i.
  - assert (sub_go (Kelly.img_pattern name') (λ _, e) [] skip = []) as ->.
    { destruct skip; cbn [sub_go]; [|done]. by rewrite img_not_here. }
    rewrite drop_nil. by apply img_not_here.
  - assert (H' : ∀ i, is_Some (match_here (Kelly.img_pattern name) (drop i s)) →
                      is_Some (match_here (Kelly.img_pattern name') (drop i s))).
    { intros j. apply (H (S j)). }
    destruct skip as [|k]; cbn [sub_go]; [|by apply IH].
    destruct (match_here (Kelly.img_pattern name') (x :: s)) as [ps|] eqn:Hm.
    + pose proof (img_match_nonempty _ _ _ Hm) as Hne.
      destruct (List.length (concat ps)) as [|k] eqn:Hlen;
        [by apply nil_length_inv in Hlen|].
      destruct (decide (i < List.length e)%nat) as [Hi|Hi].
      * rewrite drop_app_le by lia.
        destruct (drop i e) as [|c e'] eqn:Hd.
        { apply (f_equal List.length) in Hd. rewrite length_drop in Hd. simpl in Hd. lia. }
        apply img_not_here. change (lit "<img") with (ch "<" :: lit "img").
        cbn [app startswith].
        pose proof (Forall_drop _ i _ emoji) as Hc. rewrite Hd in Hc.
        apply Forall_cons in Hc as [[Hc _] _].
        destruct (char_eqb (ch "<") c) eqn:E; [|done].
        by apply char_eqb_eq in E as <-.
      * rewrite drop_app_ge by lia. by apply IH.
    + destruct i as [|i]; [|by apply IH].
      cbn [drop].
      destruct (match_here (Kelly.img_pattern name) (x :: sub_go _ _ s O)) as [ps|] eqn:Hm2;
        [exfalso|done].
      apply img_inv in Hm2 as (ws & attrs & rest & Hout & Hne & Hws & Hattrs & _).
      unfold icon_tag in Hout. rewrite <- !app_assoc in Hout.
      assert (Hx : x = ch "<") by exact (f_equal (hd x) Hout).
      assert (Ht : sub_go (Kelly.img_pattern name') (λ _, e) s O
                   = (lit "img" ++ ws ++ icon_source name) ++ attrs ++ lit ">" ++ rest).
      { rewrite <- !app_assoc. exact (f_equal tail Hout). }
      clear Hout. subst x.
      destruct (sub_go_copied_prefix (Kelly.img_pattern name') e nonempty_text _ _ _
                  (icon_start_plain ws Hws) Ht) as (r_in & -> & Hr).
      assert (Hgt : char_in (ch ">") r_in = true).
      { destruct (sub_go_chars (Kelly.img_pattern name') e r_in O (ch ">")) as [Hin|Hin];
          [|by rewrite not_in_emoji in Hin; [|done|left]|done].
        rewrite Hr, char_in_app. apply orb_true_iff. right.
        change (lit ">" ++ rest) with (ch ">" :: rest).
        unfold char_in. cbn [existsb]. by rewrite char_eqb_refl. }
      apply first_gt in Hgt as (a & b & -> & Ha).
      assert (Hyes : is_Some (match_here (Kelly.img_pattern name)
                                (icon_tag name ws a ++ b))).
      { rewrite img_here by done. by eexists. }
      assert (Heq : ch "<" :: (lit "img" ++ ws ++ icon_source name) ++ a ++ ch ">" :: b
                    = icon_tag name ws a ++ b).
      { unfold icon_tag. rewrite <- !app_assoc. reflexivity. }
      rewrite <- Heq in Hyes. apply (H O) in Hyes. cbn [drop] in Hyes.
      rewrite Hm in Hyes. by destruct Hyes.
Qed.

End IconReplaced.

Lemma img_sub_own_clean (name e s : str) :
  Forall (λ c, is_ascii c = true) name → e ≠ [] →
  Forall (λ x, is_ascii x = false ∧ py_isspace x = false) e →
  matchless (Kelly.img_pattern name) (sub_go (Kelly.img_pattern name) (λ _, e) s O).
Proof. intros Hn He Hem. by apply img_sub_go_clean. Qed.

Lemma img_sub_keeps_clean (name name' e s : str) :
  Forall (λ c, is_ascii c = true) name → e ≠ [] →
  Forall (λ x, is_ascii x = false ∧ py_isspace x = false) e →
  matchless (Kelly.img_pattern name) s →
  matchless (Kelly.img_pattern name) (sub_go (Kelly.img_pattern name') (λ _, e) s O).
Proof.
  intros Hn He Hem Hs. apply img_sub_go_clean; [done..|].
  intros i [ps Hps]. by rewrite Hs in Hps.
Qed.

(** The three replacements hold no backslash: [re.sub] takes them as
    plain text, whatever the page. *)
Lemma replace_icons_plain (U : Runtime) (html : str) :
  Kelly.replace_icons U html
  = Some (sub_go (Kelly.img_pattern (lit "sound.gif")) (λ _, Kelly.speaker)
            (sub_go (Kelly.img_pattern (lit "flag_18x12_en.png")) (λ _, Kelly.flag_en)
               (sub_go (Kelly.img_pattern (lit "flag_18x12_sv.png")) (λ _, Kelly.flag_sv)
                  html O) O) O).
Proof. reflexivity. Qed.

Lemma icons_ascii (name e : str) :
  (name, e) ∈ icons →
  Forall (λ c, is_ascii c = true) name ∧ e ≠ []
  ∧ Forall (λ x, is_ascii x = false ∧ py_isspace x = false) e.
Proof.
  unfold icons. intros H.
  repeat (apply elem_of_cons in H as [[= -> ->]|H];
          [split_and!; [by repeat constructor|done|by repeat constructor]|]).
  by apply elem_of_nil in H.
Qed.

(** After the three substitutions no place has an image tag of an icon. *)
Lemma replace_icons_clean (U : Runtime) (html clean name e : str) :
  Kelly.replace_icons U html = Some clean → (name, e) ∈ icons →
  matchless (Kelly.img_pattern name) clean.
Proof.
  rewrite replace_icons_plain. intros [= <-] Hin.
  pose proof (icons_ascii (lit "flag_18x12_sv.png") Kelly.flag_sv) as (S1 & S2 & S3);
    [unfold icons; set_solver|].
  pose proof (icons_ascii (lit "flag_18x12_en.png") Kelly.flag_en) as (E1 & E2 & E3);
    [unfold icons; set_solver|].
  pose proof (icons_ascii (lit "sound.gif") Kelly.speaker) as (G1 & G2 & G3);
    [unfold icons; set_solver|].
  unfold icons in Hin.
  apply elem_of_cons in Hin as [[= -> ->]|Hin].
  { do 2 (apply img_sub_keeps_clean; [done..|]). by apply img_sub_own_clean. }
  apply elem_of_cons in Hin as [[= -> ->]|Hin].
  { apply img_sub_keeps_clean; [done..|]. by apply img_sub_own_clean. }
  apply elem_of_cons in Hin as [[= -> ->]|Hin]; [|by apply elem_of_nil in Hin].
  by apply img_sub_own_clean.
Qed.

Lemma matchless_no_tag (name s pre ws attrs post : str) :
  matchless (Kelly.img_pattern name) s →
  ws ≠ [] → Forall (λ c, py_isspace c = true) ws →
  s ≠ pre ++ icon_tag name ws attrs ++ post.
Proof.
  intros Hs Hne Hws ->. specialize (Hs (List.length pre)).
  rewrite drop_app_length in Hs.
  destruct (first_gt (attrs ++ lit ">" ++ post)) as (a & b & Heq & Ha).
  { rewrite char_in_app. apply orb_true_iff. right.
    change (lit ">" ++ post) with (ch ">" :: post).
    unfold char_in. cbn [existsb]. by rewrite char_eqb_refl. }
  assert (Htag : icon_tag name ws attrs ++ post = icon_tag name ws a ++ b).
  { unfold icon_tag. rewrite <- !app_assoc. do 3 f_equal. exact Heq. }
  rewrite Htag, img_here in Hs; done.
Qed.

Section FolketsEntry.
Context (U : Runtime) (W : World).

(** X4: [get_folkets_entry] can only fail in the fetch.  The three
    substitutions of a fetched page never raise, and what they hand to
    the HTML parser holds no image tag of any of the three icons (the two
    flags and the loudspeaker) any more; the entry is the concatenation
    of the paragraphs the parser finds there, or nothing when there is
    no paragraph. *)
Theorem parsed_page_has_no_icon_tag (word page : str) :
  fetch_html W word = Some page →
  ∃ clean,
    Kelly.replace_icons U page = Some clean
    ∧ Kelly.folkets_html U W word
      = match soup_paragraphs W clean with
        | [] => None
        | _ :: _ => Some (concat (soup_paragraphs W clean))
        end
    ∧ ∀ name e pre ws attrs post,
        (name, e) ∈ icons → ws ≠ [] → Forall (λ c, py_isspace c = true) ws →
        clean ≠ pre ++ icon_tag name ws attrs ++ post.
Proof.
  intros Hf. eexists. split; [apply replace_icons_plain|]. split.
  - unfold Kelly.folkets_html. by rewrite Hf, replace_icons_plain.
  - intros name e pre ws attrs post Hin Hne Hws.
    apply matchless_no_tag; [|done..].
    eapply (replace_icons_clean U page); [apply replace_icons_plain|exact Hin].
Qed.

End FolketsEntry.

(** ** An icon becomes its emoji *)

Lemma img_other_none (name name' ws attrs post : str) :
  Forall (λ c, py_isspace c = true) ws →
  startswith (icon_source name') (icon_source name ++ attrs ++ lit ">" ++ post) = false →
  match_here (Kelly.img_pattern name') (icon_tag name ws attrs ++ post) = None.
Proof.
  intros Hws Hdiff.
  destruct (match_here _ _) as [ps|] eqn:Hm; [exfalso|done].
  apply img_inv in Hm as (ws' & attrs' & rest' & Heq & _ & Hws' & _ & _).
  unfold icon_tag in Heq. rewrite <- !app_assoc in Heq. apply app_inv_head in Heq.
  destruct (icon_source_head name) as [l Hl]. destruct (icon_source_head name') as [l' Hl'].
  rewrite Hl, Hl' in Heq. cbn [app] in Heq.
  apply space_run_unique in Heq as [_ Heq]; [|done..].
  assert (Hyes : startswith (icon_source name')
                   (icon_source name ++ attrs ++ lit ">" ++ post) = true).
  { apply startswith_spec. exists (attrs' ++ lit ">" ++ rest').
    rewrite Hl, Hl'. cbn [app]. by f_equal. }
  congruence.
Qed.

Lemma icons_no_lt (name e : str) :
  (name, e) ∈ icons →
  Forall (λ c, char_eqb (ch "<") c = false) name
  ∧ Forall (λ c, char_eqb (ch "<") c = false) e
  ∧ char_in (hd 0 e) (lit "img") = false.
Proof.
  unfold icons. intros H.
  repeat (apply elem_of_cons in H as [[= -> ->]|H];
          [split_and!; [by repeat constructor|by repeat constructor|done]|]).
  by apply elem_of_nil in H.
Qed.

Section OneIcon.
Context (name e pre ws attrs post : str).
Hypothesis icon : (name, e) ∈ icons.
Hypothesis clean_before : contains (lit "<img") pre = false.
Hypothesis clean_behind : contains (lit "<img") post = false.
Hypothesis some_space : ws ≠ [].
Hypothesis space : Forall (λ c, py_isspace c = true) ws.
Hypothesis inside : Forall (λ c, char_eqb (ch "<") c = false ∧ Kelly.not_gt c = true) attrs.

Lemma tag_breaks_starts :
  Forall (λ c, char_eqb (ch "<") c = false) (tl (icon_tag name ws attrs)).
Proof using icon space inside.
  destruct (icons_no_lt name e icon) as (Hname & _ & _).
  unfold icon_tag, icon_source.
  change (tl (lit "<img" ++ ?t)) with (lit "img" ++ t).
  repeat (apply Forall_app; split); try done; try by repeat constructor.
  - eapply Forall_impl; [exact space|]. intros c Hc.
    destruct (char_eqb (ch "<") c) eqn:E; [|done]. by apply char_eqb_eq in E as <-.
  - eapply Forall_impl; [exact inside|]. by intros c [Hc _].
Qed.

(** The text with the tag has an image tag at one place only. *)
Lemma tag_only_start (i : nat) :
  i ≠ List.length pre →
  startswith (lit "<img") (drop i (pre ++ icon_tag name ws attrs ++ post)) = false.
Proof using icon clean_before clean_behind some_space space inside.
  intros Hi. apply (no_start_around (ch "<") (lit "img")); try done.
  apply tag_breaks_starts.
Qed.

(** The text with the emoji has none. *)
Lemma emoji_no_start (e' : str) (i : nat) :
  (∃ name', (name', e') ∈ icons) →
  startswith (lit "<img") (drop i (pre ++ e' ++ post)) = false.
Proof using clean_before clean_behind.
  intros [name' Hin].
  destruct (icons_no_lt name' e' Hin) as (_ & Hlt & Hhd).
  destruct (icons_ascii name' e' Hin) as (_ & Hne & _).
  destruct (decide (i = List.length pre)) as [->|Hi].
  - rewrite drop_app_length. destruct e' as [|c e'']; [done|].
    apply Forall_cons in Hlt as [Hc _].
    change (lit "<img") with (ch "<" :: lit "img"). cbn [app startswith]. by rewrite Hc.
  - apply (no_start_around (ch "<") (lit "img")); try done.
    + by destruct e'.
    + destruct e'; [done|]. by apply Forall_cons in Hlt as [_ Hlt].
Qed.

Lemma emoji_text_same (name' e' e'' : str) :
  (∃ n, (n, e') ∈ icons) →
  sub_go (Kelly.img_pattern name') (λ _, e'') (pre ++ e' ++ post) O = pre ++ e' ++ post.
Proof using clean_before clean_behind.
  intros Hin. apply sub_go_same. intros i. apply img_not_here. by apply emoji_no_start.
Qed.

(** The substitution of the icon of the tag. *)
Lemma own_sub :
  sub_go (Kelly.img_pattern name) (λ _, e) (pre ++ icon_tag name ws attrs ++ post) O
  = pre ++ e ++ post.
Proof using icon clean_before clean_behind some_space space inside.
  rewrite sub_go_copy.
  - f_equal.
    rewrite (sub_go_match _ (λ _, e) (icon_tag name ws attrs) post _
               (img_here name ws attrs post some_space space
                  (Forall_impl _ _ _ inside (λ c H, proj2 H)))).
    + f_equal. apply sub_go_same. intros i. apply img_not_here.
      by apply contains_false_drop.
    + rewrite concat_app, !concat_singletons. cbn [concat].
      rewrite concat_app, !concat_singletons. cbn [concat]. unfold icon_tag.
      by rewrite app_nil_r.
    + done.
  - intros i Hi. apply img_not_here, tag_only_start. lia.
Qed.

(** The substitution of another icon. *)
Lemma other_sub (name' e' : str) :
  startswith (icon_source name') (icon_source name ++ attrs ++ lit ">" ++ post) = false →
  sub_go (Kelly.img_pattern name') (λ _, e') (pre ++ icon_tag name ws attrs ++ post) O
  = pre ++ icon_tag name ws attrs ++ post.
Proof using icon clean_before clean_behind some_space space inside.
  intros Hdiff. apply sub_go_same. intros i.
  destruct (decide (i = List.length pre)) as [->|Hi].
  - rewrite drop_app_length. by apply img_other_none.
  - by apply img_not_here, tag_only_start.
Qed.

End OneIcon.

(** X5: a page with one image tag of an icon, and no other image tag,
    leaves the three substitutions of [get_folkets_entry] with the emoji
    of that icon in the place of the tag, and is otherwise unchanged. *)
Theorem icon_tag_becomes_emoji (U : Runtime) (name e pre ws attrs post : str) :
  (name, e) ∈ icons →
  contains (lit "<img") pre = false → contains (lit "<img") post = false →
  ws ≠ [] → Forall (λ c, py_isspace c = true) ws →
  Forall (λ c, char_eqb (ch "<") c = false ∧ Kelly.not_gt c = true) attrs →
  Kelly.replace_icons U (pre ++ icon_tag name ws attrs ++ post) = Some (pre ++ e ++ post).
Proof.
  intros Hin Hpre Hpost Hne Hws Hattrs. rewrite replace_icons_plain. f_equal.
  pose proof Hin as Hin'. unfold icons in Hin'.
  apply elem_of_cons in Hin' as [[= -> ->]|Hin'].
  { rewrite (own_sub _ _ _ _ _ _ Hin), !emoji_text_same by (done || by eexists). done. }
  apply elem_of_cons in Hin' as [[= -> ->]|Hin'].
  { rewrite (other_sub _ _ _ _ _ _ Hin) by done.
    rewrite (own_sub _ _ _ _ _ _ Hin), !emoji_text_same by (done || by eexists). done. }
  apply elem_of_cons in Hin' as [[= -> ->]|Hin']; [|by apply elem_of_nil in Hin'].
  rewrite !(other_sub _ _ _ _ _ _ Hin) by done.
  by rewrite (own_sub _ _ _ _ _ _ Hin).
Qed.

(** An instance of [icon_tag_becomes_emoji]: the loudspeaker icon of a
    paragraph. *)
Lemma icon_tag_becomes_emoji_witness :
  Kelly.replace_icons latin1_only
    (lit "<p>hej " ++ icon_tag (lit "sound.gif") (lit " ") (lit " alt='x'") ++ lit "</p>")
  = Some (lit "<p>hej " ++ Kelly.speaker ++ lit "</p>").
Proof.
  apply (icon_tag_becomes_emoji latin1_only (lit "sound.gif") Kelly.speaker).
  - unfold icons. set_solver.
  - vm_compute; reflexivity.
  - vm_compute; reflexivity.
  - done.
  - repeat constructor.
  - repeat constructor.
Defined.

(** An instance of [parsed_page_has_no_icon_tag]: the page of [hej] with
    a flag in its paragraph. *)
Lemma parsed_page_has_no_icon_tag_witness :
  let page := lit "<p>" ++ icon_tag (lit "flag_18x12_sv.png") (lit " ") [] ++ lit " hej</p>" in
  let W := one_word_world (lit "hej") page in
  fetch_html W (lit "hej") = Some page
  ∧ ∃ clean,
      Kelly.replace_icons latin1_only page = Some clean
      ∧ Kelly.folkets_html latin1_only W (lit "hej")
        = match soup_paragraphs W clean with
          | [] => None
          | _ :: _ => Some (concat (soup_paragraphs W clean))
          end
      ∧ ∀ name e pre ws attrs post,
          (name, e) ∈ icons → ws ≠ [] → Forall (λ c, py_isspace c = true) ws →
          clean ≠ pre ++ icon_tag name ws attrs ++ post.
Proof.
  intros page W.
  assert (Hf : fetch_html W (lit "hej") = Some page) by (vm_compute; reflexivity).
  split; [exact Hf|].
  exact (parsed_page_has_no_icon_tag latin1_only W (lit "hej") page Hf).
Defined.

(** ** Trimmed strings *)

Lemma lstrip_with_head (d : char → bool) (s : str) (c : char) (t : str) :
  lstrip_with d s = c :: t → d c = false.
Proof.
  induction s as [|x s IH]; [done|]. cbn [lstrip_with].
  destruct (d x) eqn:E; [done|]. by intros [= <- _].
Qed.

Lemma lstrip_with_kept (d : char → bool) (c : char) (t : str) :
  d c = false → lstrip_with d (c :: t) = c :: t.
Proof. intros E. cbn [lstrip_with]. by rewrite E. Qed.

Lemma lstrip_with_suffix (d : char → bool) (s : str) :
  ∃ dropped, s = dropped ++ lstrip_with d s ∧ Forall (λ c, d c = true) dropped.
Proof.
  induction s as [|x s IH]; [by exists []|]. cbn [lstrip_with].
  destruct (d x) eqn:E; [|by exists []].
  destruct IH as (dropped & Hs & Hd). exists (x :: dropped). split; [simpl; by f_equal|by constructor].
Qed.

Lemma lstrip_with_idemp (d : char → bool) (s : str) :
  lstrip_with d (lstrip_with d s) = lstrip_with d s.
Proof.
  destruct (lstrip_with d s) as [|c t] eqn:E; [done|].
  apply lstrip_with_kept. by eapply lstrip_with_head.
Qed.

Lemma lstrip_with_app (d : char → bool) (a : str) (c : char) :
  lstrip_with d (a ++ [c])
  = if forallb d a then (if d c then [] else [c]) else lstrip_with d a ++ [c].
Proof.
  induction a as [|x a IH]; [done|]. cbn [app lstrip_with forallb].
  destruct (d x); [exact IH|done].
Qed.

Lemma lstrip_with_all (d : char → bool) (a : str) :
  forallb d a = true → lstrip_with d a = [].
Proof.
  induction a as [|x a IH]; [done|]. cbn [forallb lstrip_with].
  destruct (d x); [exact IH|done].
Qed.

Lemma rstrip_with_cons (d : char → bool) (c : char) (t : str) :
  d c = false → rstrip_with d (c :: t) = c :: rstrip_with d t.
Proof.
  intros E. unfold rstrip_with. cbn [rev]. rewrite lstrip_with_app, E.
  destruct (forallb d (rev t)) eqn:Ha.
  - by rewrite lstrip_with_all.
  - by rewrite rev_unit.
Qed.

Lemma rstrip_with_idemp (d : char → bool) (s : str) :
  rstrip_with d (rstrip_with d s) = rstrip_with d s.
Proof. unfold rstrip_with. by rewrite rev_involutive, lstrip_with_idemp. Qed.

Lemma rstrip_with_prefix (d : char → bool) (s : str) :
  ∃ dropped, s = rstrip_with d s ++ dropped ∧ Forall (λ c, d c = true) dropped.
Proof.
  unfold rstrip_with. destruct (lstrip_with_suffix d (rev s)) as (dropped & Hs & Hd).
  exists (rev dropped). split.
  - rewrite <- rev_app_distr, <- Hs. by rewrite rev_involutive.
  - by apply Forall_rev.
Qed.

(** [strip] of a trimmed string is that string. *)
Lemma strip_idemp (s : str) : strip (strip s) = strip s.
Proof.
  unfold strip. destruct (lstrip_with py_isspace s) as [|c t] eqn:E; [done|].
  pose proof (lstrip_with_head _ _ _ _ E) as Hc.
  rewrite rstrip_with_cons by done. rewrite lstrip_with_kept by done.
  by rewrite <- rstrip_with_cons, rstrip_with_idemp.
Qed.

(** What [strip] takes away is white space at the two ends. *)
Lemma strip_parts (s : str) :
  ∃ before behind, s = before ++ strip s ++ behind
    ∧ Forall (λ c, py_isspace c = true) before ∧ Forall (λ c, py_isspace c = true) behind.
Proof.
  unfold strip. destruct (lstrip_with_suffix py_isspace s) as (before & Hs & Hb).
  destruct (rstrip_with_prefix py_isspace (lstrip_with py_isspace s)) as (behind & Ht & Hd).
  exists before, behind. split_and!; [|done..]. by rewrite <- Ht.
Qed.

(** A trimmed string neither begins nor ends with white space. *)
Lemma strip_ends (s : str) :
  (∀ c t, strip s = c :: t → py_isspace c = false)
  ∧ (∀ t c, strip s = t ++ [c] → py_isspace c = false).
Proof.
  split.
  - intros c t H. rewrite <- strip_idemp in H. unfold strip at 1 in H.
    destruct (lstrip_with py_isspace (strip s)) as [|c' t'] eqn:E; [done|].
    pose proof (lstrip_with_head _ _ _ _ E) as Hc.
    rewrite rstrip_with_cons in H by done. by injection H as <- _.
  - intros t c H. unfold strip, rstrip_with in H.
    apply (f_equal (@rev char)) in H. rewrite rev_involutive, rev_unit in H.
    by apply lstrip_with_head in H.
Qed.

(** ** The query string of a word *)

(** The first piece of a split at a character is the text before the
    first occurrence of that character. *)
Lemma split_go_hd (c : char) (s cur : str) :
  ∃ piece rest,
    hd [] (split_go [c] s O cur) = rev cur ++ piece
    ∧ s = piece ++ rest ∧ char_in c piece = false
    ∧ (rest = [] ∨ ∃ r, rest = c :: r).
Proof.
  revert cur. induction s as [|x s IH]; intros cur.
  - exists [], []. cbn. rewrite app_nil_r. auto.
  - cbn [split_go startswith]. rewrite andb_true_r.
    destruct (char_eqb c x) eqn:E.
    + apply char_eqb_eq in E as <-. exists [], (c :: s). cbn. rewrite app_nil_r.
      split_and!; eauto.
    + destruct (IH (x :: cur)) as (piece & rest & Hhd & -> & Hno & Hrest).
      exists (x :: piece), rest. split_and!; [|done| |done].
      * rewrite Hhd. cbn [rev]. by rewrite <- app_assoc.
      * unfold char_in in *. cbn [existsb]. by rewrite E, Hno.
Qed.

Lemma char_in_strip (c : char) (s : str) :
  char_in c s = false → char_in c (strip s) = false.
Proof.
  destruct (strip_parts s) as (before & behind & Hs & _ & _).
  rewrite Hs at 1. rewrite !char_in_app. intros H.
  apply orb_false_iff in H as [_ H]. by apply orb_false_iff in H as [H _].
Qed.

(** X12: the query string of [process_word] holds no opening parenthesis
    and has no white space at its ends; it is a part of the word; it is
    the trimmed word itself when the word holds no opening parenthesis;
    and it is the same for a word and for the trimmed word. *)
Theorem query_string_invariants (word : str) :
  char_in (ch "(") (Kelly.query_of word) = false
  ∧ strip (Kelly.query_of word) = Kelly.query_of word
  ∧ (∀ c t, Kelly.query_of word = c :: t → py_isspace c = false)
  ∧ (∀ t c, Kelly.query_of word = t ++ [c] → py_isspace c = false)
  ∧ (∃ before behind, word = before ++ Kelly.query_of word ++ behind)
  ∧ (char_in (ch "(") word = false → Kelly.query_of word = strip word)
  ∧ Kelly.query_of (strip word) = Kelly.query_of word.
Proof.
  destruct (split_go_hd (ch "(") (strip word) []) as (piece & rest & Hhd & Hw & Hno & Hrest).
  assert (Hq : Kelly.query_of word = strip piece).
  { unfold Kelly.query_of, split. change (lit "(") with [ch "("]. by rewrite Hhd. }
  assert (Hq' : Kelly.query_of (strip word) = strip piece).
  { unfold Kelly.query_of, split. change (lit "(") with [ch "("].
    by rewrite strip_idemp, Hhd. }
  rewrite Hq', Hq. split_and!.
  - by apply char_in_strip.
  - apply strip_idemp.
  - apply strip_ends.
  - apply strip_ends.
  - destruct (strip_parts word) as (b1 & b2 & Hword & _ & _).
    destruct (strip_parts piece) as (b3 & b4 & Hpiece & _ & _).
    exists (b1 ++ b3), (b4 ++ rest ++ b2).
    rewrite Hword at 1. rewrite Hw. rewrite Hpiece at 1. by rewrite <- !app_assoc.
  - intros Hword. apply char_in_strip in Hword.
    destruct Hrest as [->|[r ->]].
    + rewrite app_nil_r in Hw. by rewrite <- Hw, strip_idemp.
    + rewrite Hw, char_in_app in Hword. apply orb_false_iff in Hword as [_ Hword].
      unfold char_in in Hword. cbn [existsb] in Hword. by rewrite char_eqb_refl in Hword.
  - done.
Qed.

(** ** Where the audio files go *)

Lemma path_join_media (stem : str) :
  char_in (ch "/") stem = false →
  path_join (lit "media") (stem ++ lit ".mp3") = lit "media/" ++ stem ++ lit ".mp3".
Proof.
  intros Hs. unfold path_join.
  assert (startswith (lit "/") (stem ++ lit ".mp3") = false) as ->.
  { destruct stem as [|c stem]; [done|]. unfold char_in in Hs. cbn [existsb] in Hs.
    apply orb_false_iff in Hs as [Hs _]. change (lit "/") with [ch "/"].
    cbn [app startswith]. by rewrite Hs. }
  reflexivity.
Qed.

Lemma char_in_rev (c : char) (l : str) : char_in c (rev l) = char_in c l.
Proof.
  induction l as [|x l IH]; [done|]. cbn [rev]. rewrite char_in_app, IH.
  unfold char_in. cbn [existsb]. rewrite orb_false_r. apply orb_comm.
Qed.

Lemma basename_go_no_sep (s cur : str) :
  char_in (ch "/") cur = false → char_in (ch "/") (basename_go s cur) = false.
Proof.
  revert cur. induction s as [|c s IH]; intros cur Hcur; cbn [basename_go].
  - by rewrite char_in_rev.
  - destruct (char_eqb c (ch "/")) eqn:E; [by apply IH|].
    apply IH. unfold char_in in *. cbn [existsb]. by rewrite char_eqb_sym, E, Hcur.
Qed.

Lemma underscored_no_sep (keep : char → bool) (text : str) :
  keep (ch "/") = false → char_in (ch "/") (underscored keep text) = false.
Proof.
  intros Hk. induction text as [|c text IH]; [done|].
  unfold char_in in *. cbn [underscored map existsb]. fold (underscored keep text).
  rewrite IH, orb_false_r. destruct (keep c) eqn:E; [|done].
  destruct (char_eqb (ch "/") c) eqn:E'; [|done]. apply char_eqb_eq in E' as <-. congruence.
Qed.

Lemma tts_path_in_media (q : str) : in_media (tts_path q).
Proof.
  exists (Kelly.safe_name q).
  assert (Hs : char_in (ch "/") (Kelly.safe_name q) = false).
  { rewrite safe_name_underscored. by apply underscored_no_sep. }
  split; [|done]. by apply path_join_media.
Qed.

Lemma url_path_in_media (html url : str) :
  Kelly.extract_mp3_url html = Some url → in_media (url_path url).
Proof.
  intros Hx. apply extract_mp3_url_shape in Hx
    as (s & run & _ & _ & _ & _ & _ & _ & _ & _ & _ & -> & _).
  unfold url_path. rewrite !app_assoc, basename_mp3.
  eexists. split; [apply path_join_media|]; by apply basename_go_no_sep.
Qed.

Lemma term_path_in_media (U : Runtime) (term : str) : in_media (term_path U term).
Proof.
  exists (Glossary.sanitize_filename U term).
  assert (Hs : char_in (ch "/") (Glossary.sanitize_filename U term) = false).
  { apply (underscored_no_sep (λ c, py_isalnum U c || char_in c (lit "-_"))). done. }
  split; [|done]. by apply path_join_media.
Qed.

Lemma media_only_nil : media_only ∅ [].
Proof. split; [set_solver|]. intros e path H. by apply elem_of_nil in H. Qed.

Lemma media_only_app new new' evs evs' :
  media_only new evs → media_only new' evs' → media_only (new' ∪ new) (evs ++ evs').
Proof.
  intros [H1 H2] [H1' H2']. split.
  - intros path Hin. apply elem_of_union in Hin as [?|?]; auto.
  - intros e path Hin. apply elem_of_app in Hin as [?|?]; eauto.
Qed.

Lemma media_only_call e path :
  target e = Some path → in_media path → media_only {[ path ]} [e].
Proof.
  intros Ht Hp. split.
  - intros p Hin. apply elem_of_singleton in Hin. by subst.
  - intros e' p Hin. apply list_elem_of_singleton in Hin. subst e'. congruence.
Qed.

Lemma media_only_less new evs : media_only new evs → media_only ∅ evs.
Proof. intros [_ H]. split; [set_solver|done]. Qed.

Section Media.
Context (U : Runtime) (W : World).

Lemma synthesized_in_media fs q r new evs :
  synthesized W fs q r new evs → media_only new evs.
Proof.
  destruct 1.
  - apply media_only_nil.
  - apply media_only_call; [done|apply tts_path_in_media].
  - eapply media_only_less, media_only_call; [done|apply tts_path_in_media].
Qed.

Lemma word_run_in_media fs word r new evs :
  word_run U W fs word r new evs → media_only new evs.
Proof.
  assert (Hlook : media_only ∅ (lookup_events U W word)).
  { split; [set_solver|]. intros e path Hin Ht.
    apply (lookup_events_no_target U W) in Hin. congruence. }
  destruct 1 as [| |html r new evs _ _ Hr]; [apply media_only_nil|done|].
  rewrite <- (right_id_L ∅ (∪) new). apply media_only_app; [done|].
  destruct Hr as [r new evs _ Hs|url Hx _|url Hx _ _|url r new evs Hx _ _ Hs].
  - by eapply synthesized_in_media.
  - apply media_only_nil.
  - apply media_only_call; [done|by eapply url_path_in_media].
  - rewrite <- (right_id_L ∅ (∪) new).
    apply (media_only_app ∅ new [_] evs); [|by eapply synthesized_in_media].
    eapply media_only_less, media_only_call; [done|by eapply url_path_in_media].
Qed.

Lemma rows_run_in_media fs df r new ws evs :
  rows_run U W fs df r new ws evs → media_only new evs.
Proof.
  induction 1 as [|fs row df e new evs Hw|fs row df res new evs r new' ws evs' Hw Hrows IH].
  - apply media_only_nil.
  - by eapply word_run_in_media.
  - apply media_only_app; [by eapply word_run_in_media|done].
Qed.

Lemma entries_run_in_media fs entries r new recorded spoken :
  entries_run U W fs entries r new recorded spoken →
  media_only new (synthesis_of U <$> spoken).
Proof.
  induction 1 as [|? ? ? ? ? ? ? ? ? IH|fs entry entries r new recorded spoken Hp Ht Hrun IH
                  |fs entry entries Hp Ht].
  - apply media_only_nil.
  - done.
  - rewrite fmap_cons. apply (media_only_app _ _ [_]); [|done].
    apply media_only_call; [done|apply term_path_in_media].
  - eapply media_only_less, media_only_call; [done|apply term_path_in_media].
Qed.

(** X8: the only files the two scripts create are their output file and
    [.mp3] files that lie in the media directory itself, and every
    download and every synthesis writes to such a file: the name of an
    audio file never holds a path separator, whatever the words, the
    terms and the pages are. *)
Theorem audio_files_stay_in_media :
  (∀ rows st path,
     path ∈ files (Kelly.main U W rows st).2 →
     path ∈ files st ∨ path = Kelly.OUTPUT_FILE ∨ in_media path)
  ∧ (∀ rows st e path,
       e ∈ events_of (Kelly.main U W rows) st → target e = Some path → in_media path)
  ∧ (∀ P st path,
       path ∈ files (Glossary.main U W P st).2 →
       path ∈ files st ∨ path = Glossary.OUTPUT_FILE ∨ in_media path)
  ∧ (∀ P st e path,
       e ∈ events_of (Glossary.main U W P) st → target e = Some path → in_media path).
Proof.
  split_and!.
  - intros rows st path.
    destruct (kelly_main_run U W rows st) as (r & new & ws & evs & Hrows & ->).
    apply rows_run_in_media in Hrows as [Hnew _]. simpl. set_solver.
  - intros rows st e path.
    destruct (kelly_main_run U W rows st) as (r & new & ws & evs & Hrows & Hrun).
    rewrite (events_of_advance _ _ _ _ _ _ Hrun).
    apply rows_run_in_media in Hrows as [_ Hevs]. apply Hevs.
  - intros P st path. pose proof (glossary_main_run U W P st) as Hrun.
    destruct (Glossary.swedish_page P); [|rewrite Hrun; auto].
    destruct (Glossary.english_page P); [|rewrite Hrun; auto].
    destruct Hrun as (r & new & recorded & spoken & Hent & ->).
    apply entries_run_in_media in Hent as [Hnew _]. simpl. set_solver.
  - intros P st e path. pose proof (glossary_main_run U W P st) as Hrun.
    destruct (Glossary.swedish_page P) as [sw|].
    2:{ unfold events_of. rewrite Hrun. simpl. rewrite drop_all. set_solver. }
    destruct (Glossary.english_page P) as [en|].
    2:{ unfold events_of. rewrite Hrun. simpl. rewrite drop_all. set_solver. }
    destruct Hrun as (r & new & recorded & spoken & Hent & Hrun).
    rewrite (events_of_advance _ _ _ _ _ _ Hrun).
    apply entries_run_in_media in Hent as [_ Hevs]. apply Hevs.
Qed.

End Media.

(** ** How the runs end *)

Lemma dropna_cells (df : list (str * str)) : Kelly.dropna (cells df) = df.
Proof.
  unfold Kelly.dropna, cells. induction df as [|[w t] df IH]; [done|].
  cbn [fmap list_fmap omap list_omap fst snd default]. cbn. f_equal. exact IH.
Qed.

(** A loop that raises: the items before the failing one were done. *)
Lemma for_each_raised {A} (body : A → M unit) (xs : list A) (st st' : state) (e : failure) :
  for_each xs body st = (Raised e, st') →
  ∃ done failing rest st1,
    xs = done ++ failing :: rest
    ∧ for_each done body st = (Done tt, st1)
    ∧ body failing st1 = (Raised e, st').
Proof.
  revert st. induction xs as [|x xs IH]; intros st H; [done|].
  cbn [for_each] in H. unfold bind in H.
  destruct (body x st) as [[[]|e'] st0] eqn:Hx.
  - destruct (IH _ H) as (done & failing & rest & st1 & -> & Hdone & Hfail).
    exists (x :: done), failing, rest, st1. split_and!; [done| |done].
    cbn [app for_each]. unfold bind. by rewrite Hx.
  - injection H as -> ->. by exists [], x, xs, st.
Qed.

Lemma lookup_content_truthy U W word html :
  lookup_content U W word = Some html → truthy html = true.
Proof.
  unfold lookup_content.
  destruct (Kelly.truthy_opt (Kelly.folkets_html U W _)) eqn:E.
  - intros Hf. by rewrite Hf in E.
  - unfold Kelly.translated_text. destruct (translate_text W _) as [|?|t]; [done..|].
    destruct (truthy t) eqn:Et; [|done]. by intros [= <-].
Qed.

Lemma sub_go_truthy (pat : pattern) (e s : str) :
  e ≠ [] → truthy s = true → truthy (sub_go pat (λ _, e) s O) = true.
Proof.
  intros He Hs. destruct s as [|x s]; [done|]. cbn [sub_go].
  destruct (match_here pat (x :: s)) as [ps|]; [|done].
  destruct e as [|c e]; [done|]. by destruct (List.length (concat ps)).
Qed.

Section KellyEnds.
Context (U : Runtime) (W : World).

Lemma word_run_done fs word res new evs :
  plain_links U W →
  word_run U W fs word (Done res) new evs →
  Kelly.truthy_opt res.1
  = truthy (strip word) && bool_decide (is_Some (lookup_content U W word)).
Proof.
  intros Hplain Hw.
  inversion Hw as [Hb|Hb Hl|html r ? evs' Hb Hl Hr]; subst.
  - by rewrite Hb.
  - by rewrite Hb, Hl.
  - rewrite Hb, Hl, bool_decide_eq_true_2 by done.
    pose proof (lookup_content_truthy _ _ _ _ Hl) as Hhtml.
    assert (Hvoiced : ∀ r', voiced html r' = Done res → Kelly.truthy_opt res.1 = true && true).
    { intros [sound|e] Hv; simplify_eq/=. done. }
    assert (Hmarked : ∀ url, Kelly.extract_mp3_url html = Some url →
              marked U html url = Done res → Kelly.truthy_opt res.1 = true && true).
    { intros url Hx. unfold marked.
      rewrite with_marker_plain by exact (Hplain word html url Hl Hx).
      intros [= <-]. cbn [fst Kelly.truthy_opt andb].
      apply sub_go_truthy; [|done]. unfold Kelly.sound_marker.
      intros H. apply (f_equal List.length) in H. rewrite !length_app in H. simpl in H. lia. }
    inversion Hr; subst; eauto.
Qed.

Lemma rows_run_done fs df new ws evs :
  plain_links U W →
  rows_run U W fs df (Done tt) new ws evs →
  Forall2 (λ row record,
     ∃ def_line, record = Kelly.record_line (strip row.1) def_line (strip row.2))
    (List.filter (has_content U W) df) ws.
Proof.
  intros Hplain. remember (Done tt) as r eqn:Er.
  induction 1 as [|fs row df e new evs Hw|fs row df res new evs r new' ws evs' Hw Hrows IH];
    [constructor|done|].
  specialize (IH Er).
  pose proof (word_run_done _ _ _ _ _ Hplain Hw) as Htruthy.
  rewrite strip_idemp in Htruthy. cbn [List.filter]. unfold row_chunks.
  fold (has_content U W row) in Htruthy. rewrite <- Htruthy.
  destruct (Kelly.truthy_opt res.1); [|done].
  constructor; [by eexists|done].
Qed.

(** X9: a run of the Kelly script that ends normally, when no linked
    file has a backslash in its name, has written after the header
    exactly one record for every row that has a word for which a lookup
    gave a content, in the order of the sheet; the first field of the
    record is the trimmed word and the last the trimmed level. *)
Theorem normal_kelly_run_records (rows : Kelly.sheet) (st st' : state) :
  Kelly.main U W rows st = (Done tt, st') → plain_links U W →
  ∃ records,
    written st' = written st ++ Kelly.header ++ records
    ∧ Forall2 (λ row record,
         ∃ def_line, record = Kelly.record_line (strip row.1) def_line (strip row.2))
        (List.filter (has_content U W) (Kelly.dropna rows)) records.
Proof.
  intros Hmain Hplain.
  destruct (kelly_main_run U W rows st) as (r & new & ws & evs & Hrows & Hrun).
  rewrite Hrun in Hmain. injection Hmain as -> <-.
  exists ws. split; [done|]. by eapply rows_run_done.
Qed.

End KellyEnds.

(** An instance of [normal_kelly_run_records]: a sheet of three rows, one
    without a word and one whose word is unknown. *)
Lemma normal_kelly_run_records_witness :
  let W := one_word_world (lit "hej") (lit "<p>hej: hello</p>") in
  let rows := [ (Some (lit " hej "), Some (lit "A1")); (None, Some (lit "A2"));
                (Some (lit "bil"), None) ] in
  let st' := (Kelly.main latin1_only W rows (initial ∅)).2 in
  Kelly.main latin1_only W rows (initial ∅) = (Done tt, st')
  ∧ plain_links latin1_only W
  ∧ ∃ records,
      written st' = written (initial ∅) ++ Kelly.header ++ records
      ∧ Forall2 (λ row record,
           ∃ def_line, record = Kelly.record_line (strip row.1) def_line (strip row.2))
          (List.filter (has_content latin1_only W) (Kelly.dropna rows)) records.
Proof.
  intros W rows st'.
  assert (H1 : Kelly.main latin1_only W rows (initial ∅) = (Done tt, st'))
    by (vm_compute; reflexivity).
  assert (H2 : plain_links latin1_only W).
  { intros word html url Hl Hx.
    unfold lookup_content, Kelly.folkets_html, Kelly.translated_text, W, one_word_world in Hl.
    cbn [fetch_html soup_paragraphs translate_text] in Hl.
    destruct (str_eqb _ _); [|done].
    vm_compute in Hl. injection Hl as <-. vm_compute in Hx. done. }
  split; [exact H1|]. split; [exact H2|].
  exact (normal_kelly_run_records latin1_only W rows (initial ∅) st' H1 H2).
Defined.

Section KellyAborts.
Context (U : Runtime) (W : World).

(** What makes [process_word] raise. *)
Lemma word_run_raised fs word e new evs :
  word_run U W fs word (Raised e) new evs →
  let q := Kelly.query_of word in
  (e = SynthesisFailure ∧ tts_ok W q = false
   ∧ ∃ calls, evs = calls ++ [ESynthesize q (tts_path q)])
  ∨ (e = ReplacementTemplate
     ∧ ∃ html url,
         lookup_content U W word = Some html ∧ Kelly.extract_mp3_url html = Some url
         ∧ with_marker U html url = None
         ∧ char_in (ch "\") (basename url) = true).
Proof.
  intros Hw q.
  assert (Hsyn : ∀ r new' evs', synthesized W fs q r new' evs' →
            ∀ html, voiced html r = Raised e →
            e = SynthesisFailure ∧ tts_ok W q = false
            ∧ evs' = [ESynthesize q (tts_path q)]).
  { intros r new' evs' Hs html Hv. destruct Hs; simplify_eq/=. done. }
  assert (Hmark : ∀ html url, marked U html url = Raised e →
            e = ReplacementTemplate ∧ with_marker U html url = None
            ∧ char_in (ch "\") (basename url) = true).
  { intros html url Hm. unfold marked in Hm.
    destruct (with_marker U html url) as [content|] eqn:E; simplify_eq.
    split_and!; [done..|].
    destruct (char_in (ch "\") (basename url)) eqn:Hb; [done|].
    by rewrite with_marker_plain in E. }
  inversion Hw as [| |html r ? evs' Hb Hl Hr]; subst.
  inversion Hr as [rs ? ? Hx Hs Hres|url Hx Hp Hres|url Hx Hp Hg Hres
                   |url rs ? evs'' Hx Hp Hg Hs Hres]; subst.
  - left. destruct (Hsyn _ _ _ Hs _ Hres) as (-> & Hq & ->). split_and!; [done..|].
    by exists (lookup_events U W word).
  - right. destruct (Hmark _ _ Hres) as (-> & Hnone & Hback). split; [done|].
    by exists html, url.
  - right. destruct (Hmark _ _ Hres) as (-> & Hnone & Hback). split; [done|].
    by exists html, url.
  - left. destruct (Hsyn _ _ _ Hs _ Hres) as (-> & Hq & ->). split_and!; [done..|].
    exists (lookup_events U W word ++ [EDownload url (url_path url)]).
    by rewrite <- app_assoc.
Qed.

(** What the rows before a failing row leave. *)
Lemma kelly_raised_split (rows : Kelly.sheet) (st st' : state) (e : failure) :
  Kelly.main U W rows st = (Raised e, st') →
  ∃ done failing rest st1 new evs,
    Kelly.dropna rows = done ++ failing :: rest
    ∧ Kelly.main U W (cells done) st = (Done tt, st1)
    ∧ word_run U W (files st1) (strip failing.1) (Raised e) new evs
    ∧ st' = advance new [] evs st1.
Proof.
  intros Hmain.
  assert (Hsplit : ∀ df, Kelly.main U W (cells df) st
            = for_each df (Kelly.row_body U W)
                (advance {[ Kelly.OUTPUT_FILE ]} Kelly.header [] st)).
  { intros df. unfold Kelly.main, mbind, script_bind, bind.
    rewrite create_file_run, for_each_write_run, advance_advance, dropna_cells.
    f_equal; by state_eq. }
  assert (Hloop : for_each (Kelly.dropna rows) (Kelly.row_body U W)
                    (advance {[ Kelly.OUTPUT_FILE ]} Kelly.header [] st) = (Raised e, st')).
  { rewrite <- Hmain. unfold Kelly.main, mbind, script_bind, bind.
    rewrite create_file_run, for_each_write_run, advance_advance.
    f_equal; by state_eq. }
  apply for_each_raised in Hloop as (done & failing & rest & st1 & Hdf & Hdone & Hfail).
  destruct (row_body_run U W failing st1) as (r & new & evs & Hw & Hrun).
  rewrite Hrun in Hfail. destruct r as [res|e']; [done|]. injection Hfail as -> <-.
  exists done, failing, rest, st1, new, evs. by rewrite Hsplit.
Qed.

(** X10: a run of the Kelly script that a failed synthesis ends has
    processed every row before the failing one as a run on those rows
    alone does, and has written nothing more: the output is the header
    and the records of those rows; the synthesis that failed is that of
    the query string of the failing row, and it is the last call made.
    The same holds of the rows before when the run is ended by the
    replacement of the anchor, and then the failing row has a content
    whose link has a backslash in its file name. *)
Theorem kelly_abort_keeps_earlier_records (rows : Kelly.sheet) (st st' : state) :
  (Kelly.main U W rows st = (Raised SynthesisFailure, st') →
   ∃ done failing rest st1,
     Kelly.dropna rows = done ++ failing :: rest
     ∧ Kelly.main U W (cells done) st = (Done tt, st1)
     ∧ written st' = written st1
     ∧ files st1 ⊆ files st'
     ∧ let q := Kelly.query_of (strip failing.1) in
       tts_ok W q = false
       ∧ ∃ calls, log st' = log st1 ++ calls ++ [ESynthesize q (tts_path q)])
  ∧ (Kelly.main U W rows st = (Raised ReplacementTemplate, st') →
     ∃ done failing rest st1,
       Kelly.dropna rows = done ++ failing :: rest
       ∧ Kelly.main U W (cells done) st = (Done tt, st1)
       ∧ written st' = written st1
       ∧ files st1 ⊆ files st'
       ∧ ∃ html url,
           lookup_content U W (strip failing.1) = Some html
           ∧ Kelly.extract_mp3_url html = Some url
           ∧ with_marker U html url = None
           ∧ char_in (ch "\") (basename url) = true).
Proof.
  split; intros Hmain.
  - apply kelly_raised_split in Hmain
      as (pre & failing & rest & st1 & new & evs & Hdf & Hdone & Hw & ->).
    exists pre, failing, rest, st1.
    destruct (word_run_raised _ _ _ _ _ Hw) as [(_ & Hq & calls & ->)|(He & _)]; [|done].
    split_and!; [done|done|simpl; by rewrite app_nil_r|simpl; set_solver|].
    intros q. split; [done|]. by exists calls.
  - apply kelly_raised_split in Hmain
      as (pre & failing & rest & st1 & new & evs & Hdf & Hdone & Hw & ->).
    exists pre, failing, rest, st1.
    destruct (word_run_raised _ _ _ _ _ Hw) as [(He & _)|(_ & Hx)]; [done|].
    split_and!; [done|done|simpl; by rewrite app_nil_r|simpl; set_solver|done].
Qed.

End KellyAborts.

(** Two instances of [kelly_abort_keeps_earlier_records]: a sheet whose
    second word cannot be synthesized, and one whose second word has a
    link to a file with a backslash in its name. *)
Lemma kelly_abort_keeps_earlier_records_witness :
  let rows := [ (Some (lit "bil"), Some (lit "A1")); (Some (lit "hej"), Some (lit "A1")) ] in
  (let W := silent_world (lit "hej") (lit "<p>hello</p>") in
   let st' := (Kelly.main latin1_only W rows (initial ∅)).2 in
   Kelly.main latin1_only W rows (initial ∅) = (Raised SynthesisFailure, st')
   ∧ ∃ done failing rest st1,
       Kelly.dropna rows = done ++ failing :: rest
       ∧ Kelly.main latin1_only W (cells done) (initial ∅) = (Done tt, st1)
       ∧ written st' = written st1)
  ∧ (let page := lit "<p>hej <a href='https://example.org/a\1.mp3'>listen</a></p>" in
     let W := one_word_world (lit "hej") page in
     let st' := (Kelly.main latin1_only W rows (initial ∅)).2 in
     Kelly.main latin1_only W rows (initial ∅) = (Raised ReplacementTemplate, st')
     ∧ ∃ done failing rest st1,
         Kelly.dropna rows = done ++ failing :: rest
         ∧ Kelly.main latin1_only W (cells done) (initial ∅) = (Done tt, st1)
         ∧ written st' = written st1).
Proof.
  intros rows. split.
  - intros W st'.
    assert (Hmain : Kelly.main latin1_only W rows (initial ∅) = (Raised SynthesisFailure, st'))
      by (vm_compute; reflexivity).
    split; [exact Hmain|].
    destruct (proj1 (kelly_abort_keeps_earlier_records latin1_only W rows _ _) Hmain)
      as (done & failing & rest & st1 & H1 & H2 & H3 & _).
    by exists done, failing, rest, st1.
  - intros page W st'.
    assert (Hmain : Kelly.main latin1_only W rows (initial ∅)
                    = (Raised ReplacementTemplate, st'))
      by (vm_compute; reflexivity).
    split; [exact Hmain|].
    destruct (proj2 (kelly_abort_keeps_earlier_records latin1_only W rows _ _) Hmain)
      as (done & failing & rest & st1 & H1 & H2 & H3 & _).
    by exists done, failing, rest, st1.
Defined.

Section GlossaryAborts.
Context (U : Runtime) (W : World).

Lemma entries_run_raised fs entries e new recorded spoken :
  entries_run U W fs entries (Raised e) new recorded spoken →
  e = SynthesisFailure
  ∧ ∃ failing rest earlier,
      entries = recorded ++ failing :: rest
      ∧ tts_ok W failing.1 = false
      ∧ spoken = earlier ++ [failing.1].
Proof.
  remember (Raised e) as r eqn:Er.
  induction 1 as [fs|fs entry entries r new recorded spoken Hp Hrun IH
                  |fs entry entries r new recorded spoken Hp Ht Hrun IH
                  |fs entry entries Hp Ht]; [done| | |].
  - destruct (IH Er) as (-> & failing & rest & earlier & -> & Hf & ->).
    split; [done|]. by exists failing, rest, earlier.
  - destruct (IH Er) as (-> & failing & rest & earlier & -> & Hf & ->).
    split; [done|]. by exists failing, rest, (entry.1 :: earlier).
  - injection Er as <-. split; [done|]. by exists entry, entries, [].
Qed.

(** X11: a run of the glossary script that a failed page request ends
    has done nothing yet: the output file is not opened, nothing is
    written and no synthesis is called.  A run that a failed synthesis
    ends has written the header and the records of the entries before
    the term that failed, in order, and the failing synthesis is the
    last call made. *)
Theorem glossary_abort_causes (P : Glossary.Pages) (st st' : state) :
  (Glossary.main U W P st = (Raised RequestFailure, st') →
   st' = st ∧ (Glossary.swedish_page P = None ∨ Glossary.english_page P = None))
  ∧ (Glossary.main U W P st = (Raised SynthesisFailure, st') →
     ∃ sw en done failing rest calls,
       Glossary.swedish_page P = Some sw ∧ Glossary.english_page P = Some en
       ∧ Glossary.terms_and_defs sw = done ++ failing :: rest
       ∧ tts_ok W failing.1 = false
       ∧ written st'
         = written st ++ Glossary.header
           ++ (Glossary.record_of U (Glossary.english_mapping U en) <$> done)
       ∧ log st' = log st ++ calls ++ [synthesis_of U failing.1]
       ∧ Glossary.OUTPUT_FILE ∈ files st').
Proof.
  pose proof (glossary_main_run U W P st) as Hrun.
  split; intros Hmain.
  - destruct (Glossary.swedish_page P) as [sw|] eqn:Hsw.
    2:{ rewrite Hrun in Hmain. injection Hmain as <-. auto. }
    destruct (Glossary.english_page P) as [en|] eqn:Hen.
    2:{ rewrite Hrun in Hmain. injection Hmain as <-. auto. }
    destruct Hrun as (r & new & recorded & spoken & Hent & Hrun).
    rewrite Hrun in Hmain. injection Hmain as -> <-.
    by apply entries_run_raised in Hent as (He & _).
  - destruct (Glossary.swedish_page P) as [sw|] eqn:Hsw.
    2:{ rewrite Hrun in Hmain. by injection Hmain. }
    destruct (Glossary.english_page P) as [en|] eqn:Hen.
    2:{ rewrite Hrun in Hmain. by injection Hmain. }
    destruct Hrun as (r & new & recorded & spoken & Hent & Hrun).
    rewrite Hrun in Hmain. injection Hmain as -> <-.
    apply entries_run_raised in Hent as (_ & failing & rest & earlier & Hsplit & Hf & ->).
    exists sw, en, recorded, failing, rest, (synthesis_of U <$> earlier).
    split_and!; [done..| | |].
    + done.
    + simpl. by rewrite fmap_app.
    + simpl. set_solver.
Qed.

End GlossaryAborts.

(** Two instances of [glossary_abort_causes]: the English page cannot be
    requested, and the second term cannot be synthesized. *)
Lemma glossary_abort_causes_witness :
  (let P := {| Glossary.swedish_page := Some [(lit "votering", Some (lit "a vote"))];
               Glossary.english_page := None |} in
   let W := one_word_world [] [] in
   Glossary.main latin1_only W P (initial ∅) = (Raised RequestFailure, initial ∅)
   ∧ Glossary.english_page P = None)
  ∧ (let P := {| Glossary.swedish_page := Some [(lit "votering", Some (lit "a vote"))];
                 Glossary.english_page := Some [] |} in
     let W := silent_world [] [] in
     let st' := (Glossary.main latin1_only W P (initial ∅)).2 in
     Glossary.main latin1_only W P (initial ∅) = (Raised SynthesisFailure, st')
     ∧ written st' = Glossary.header
     ∧ log st' = [synthesis_of latin1_only (lit "votering")]).
Proof.
  split.
  - intros P W.
    assert (Hmain : Glossary.main latin1_only W P (initial ∅)
                    = (Raised RequestFailure, initial ∅)) by reflexivity.
    split; [exact Hmain|].
    destruct (proj1 (glossary_abort_causes latin1_only W P _ _) Hmain) as (_ & [H|H]); done.
  - intros P W st'.
    assert (Hmain : Glossary.main latin1_only W P (initial ∅)
                    = (Raised SynthesisFailure, st')) by (vm_compute; reflexivity).
    split; [exact Hmain|].
    destruct (proj2 (glossary_abort_causes latin1_only W P _ _) Hmain)
      as (sw & en & done & failing & rest & calls & Hsw & Hen & Hsplit & Hf & Hw & Hl & _).
    split; vm_compute; reflexivity.
Defined.

(** ** The English page of the glossary *)

Section EnglishMapping.
Context (U : Runtime).

(** A heading more: its entry, if it has one, replaces what the key had. *)
Lemma english_mapping_snoc (h3s : list Glossary.heading) (h3 : Glossary.heading) (k : str) :
  Glossary.english_mapping U (h3s ++ [h3]) !! k
  = match Glossary.english_mapping U [h3] !! k with
    | Some entry => Some entry
    | None => Glossary.english_mapping U h3s !! k
    end.
Proof.
  unfold Glossary.english_mapping. rewrite fold_left_app. cbn [fold_left].
  destruct (contains (lit "(Sw:") (strip h3.1)); [|by rewrite lookup_empty].
  set (key := py_lower U _). set (entry := (_, _)).
  destruct (decide (key = k)) as [<-|Hne].
  - by rewrite !lookup_insert_eq.
  - by rewrite !lookup_insert_ne, lookup_empty.
Qed.

Lemma english_mapping_later (h3s after : list Glossary.heading) (k : str) :
  (∀ h3', h3' ∈ after → Glossary.english_mapping U [h3'] !! k = None) →
  Glossary.english_mapping U (h3s ++ after) !! k = Glossary.english_mapping U h3s !! k.
Proof.
  induction after as [|h3 after IH] using rev_ind; intros H; [by rewrite app_nil_r|].
  rewrite app_assoc, english_mapping_snoc, H by (apply elem_of_app; right; by left).
  apply IH. intros h3' Hin. apply H. apply elem_of_app. by left.
Qed.

(** X6: what [scrape_english_mapping] stores.  A heading whose trimmed
    text holds [(Sw:] has one entry: its key is the lowercase of what
    follows the first [(Sw:], up to the next one, without closing
    parentheses at its end and trimmed; the entry is the trimmed text
    before the first [(Sw:] and the trimmed text of the next paragraph,
    or the empty string when there is none.  A heading without [(Sw:]
    has no entry, and leaving it out of the page changes nothing.  For
    a key, the mapping of a page holds the entry of the last heading
    that has that key. *)
Theorem english_mapping_last_heading_wins (h3s : list Glossary.heading)
    (k : str) (entry : str * str) :
  (∀ h3 : Glossary.heading,
     Glossary.english_mapping U [h3]
     = let text := strip h3.1 in
       if contains (lit "(Sw:") text
       then {[ py_lower U (strip (rstrip_chars (lit ")")
                                    (nth 1 (split (lit "(Sw:") text) [])))
               := (strip (hd [] (split (lit "(Sw:") text)),
                   match h3.2 with Some p => strip p | None => [] end) ]}
       else ∅)
  ∧ (∀ (before after : list Glossary.heading) (h3 : Glossary.heading),
       contains (lit "(Sw:") (strip h3.1) = false →
       Glossary.english_mapping U (before ++ h3 :: after)
       = Glossary.english_mapping U (before ++ after))
  ∧ (Glossary.english_mapping U h3s !! k = Some entry
     ↔ ∃ before h3 after,
         h3s = before ++ h3 :: after
         ∧ Glossary.english_mapping U [h3] !! k = Some entry
         ∧ ∀ h3', h3' ∈ after → Glossary.english_mapping U [h3'] !! k = None).
Proof.
  split_and!.
  - intros h3. unfold Glossary.english_mapping. cbn [fold_left].
    destruct (contains (lit "(Sw:") (strip h3.1)); [|done]. by rewrite insert_empty.
  - intros before after h3 Hno. unfold Glossary.english_mapping.
    rewrite !fold_left_app. cbn [fold_left]. by rewrite Hno.
  - induction h3s as [|h3 h3s IH] using rev_ind.
    + split; [done|]. intros (before & h3 & after & Heq & _). by destruct before.
    + rewrite english_mapping_snoc.
      destruct (Glossary.english_mapping U [h3] !! k) as [entry'|] eqn:Hlast.
      * split.
        -- intros [= ->]. exists h3s, h3, []. split_and!; [done..|].
           intros h3' Hin. by apply elem_of_nil in Hin.
        -- intros (before & h & after & Heq & Hh & Hafter).
           destruct after as [|a after _] using rev_ind.
           { apply app_inj_tail in Heq as [_ ->]. congruence. }
           rewrite app_comm_cons, app_assoc in Heq. apply app_inj_tail in Heq as [_ ->].
           rewrite Hafter in Hlast; [done|]. apply elem_of_app. right. by left.
      * rewrite IH. split.
        -- intros (before & h & after & -> & Hh & Hafter).
           exists before, h, (after ++ [h3]). split_and!; [by rewrite <- app_assoc|done|].
           intros h3' Hin. apply elem_of_app in Hin as [Hin|Hin]; [by apply Hafter|].
           apply list_elem_of_singleton in Hin. by subst.
        -- intros (before & h & after & Heq & Hh & Hafter).
           destruct after as [|a after _] using rev_ind.
           { apply app_inj_tail in Heq as [_ ->]. congruence. }
           rewrite app_comm_cons, app_assoc in Heq. apply app_inj_tail in Heq as [-> ->].
           exists before, h, after. split_and!; [done..|].
           intros h3' Hin. apply Hafter. apply elem_of_app. by left.
Qed.

End EnglishMapping.

(** ** Splitting at a separator *)

Lemma split_go_skip (sep x b cur : str) :
  split_go sep (x ++ b) (List.length x) cur = split_go sep b O cur.
Proof. induction x as [|c x IH]; [by destruct b|]. exact IH. Qed.

Lemma split_go_copy (sep a rest cur : str) :
  (∀ i, (i < List.length a)%nat → startswith sep (drop i (a ++ rest)) = false) →
  split_go sep (a ++ rest) O cur = split_go sep rest O (rev a ++ cur).
Proof.
  revert cur. induction a as [|x a IH]; intros cur H; [done|].
  assert (H0 : startswith sep (x :: a ++ rest) = false) by (apply (H O); simpl; lia).
  cbn [app split_go]. rewrite H0, IH.
  - cbn [rev]. by rewrite <- app_assoc.
  - intros i Hi. apply (H (S i)). simpl; lia.
Qed.

Lemma split_go_sep (c : char) (sep b cur : str) :
  split_go (c :: sep) ((c :: sep) ++ b) O cur = rev cur :: split_go (c :: sep) b O [].
Proof.
  cbn [app split_go]. change (c :: sep ++ b) with ((c :: sep) ++ b).
  rewrite startswith_app. cbn [List.length Nat.pred]. by rewrite split_go_skip.
Qed.

(** A text without the separator is one piece. *)
Lemma split_whole (c : char) (sep s : str) :
  contains (c :: sep) s = false → split (c :: sep) s = [s].
Proof.
  intros H. unfold split. rewrite <- (app_nil_r s) at 1. rewrite split_go_copy.
  - cbn [split_go]. by rewrite app_nil_r, rev_involutive.
  - intros i _. rewrite app_nil_r. by apply contains_false_drop.
Qed.

(** The first piece ends where the separator first stands. *)
Lemma split_first (c : char) (sep a b : str) :
  char_in c sep = false → contains (c :: sep) a = false →
  split (c :: sep) (a ++ (c :: sep) ++ b) = a :: split (c :: sep) b.
Proof.
  intros Hc Ha. unfold split. rewrite split_go_copy.
  - by rewrite split_go_sep, app_nil_r, rev_involutive.
  - intros i Hi. by apply no_start_in_pre.
Qed.

Lemma char_in_false (c : char) (s : str) :
  char_in c s = false ↔ Forall (λ x, char_eqb c x = false) s.
Proof.
  unfold char_in. induction s as [|x s IH]; cbn [existsb].
  - split; [constructor|done].
  - rewrite orb_false_iff, IH, Forall_cons. done.
Qed.

Lemma contains_head_absent (c : char) (l s : str) :
  char_in c s = false → contains (c :: l) s = false.
Proof.
  induction s as [|x s IH]; [done|]. unfold char_in. cbn [existsb contains startswith].
  intros H. apply orb_false_iff in H as [Hx Hs]. by rewrite Hx, IH.
Qed.

Lemma rstrip_with_snoc (d : char → bool) (k : str) (c : char) :
  d c = true → rstrip_with d (k ++ [c]) = rstrip_with d k.
Proof. intros Hc. unfold rstrip_with. rewrite rev_unit. cbn [lstrip_with]. by rewrite Hc. Qed.

Lemma rstrip_with_none (d : char → bool) (k : str) :
  Forall (λ c, d c = false) k → rstrip_with d k = k.
Proof.
  intros Hk. unfold rstrip_with. apply Forall_rev in Hk.
  destruct (rev k) as [|x t] eqn:E.
  - apply (f_equal (@rev char)) in E. by rewrite rev_involutive in E.
  - apply Forall_cons in Hk as [Hx _]. rewrite lstrip_with_kept by done.
    by rewrite <- E, rev_involutive.
Qed.

Section EnglishCard.
Context (U : Runtime).

(** What a heading of the form [English (Sw: svenska)] stores. *)
Lemma english_heading_parsed (h3 : Glossary.heading) (eng k : str) :
  strip h3.1 = eng ++ lit "(Sw:" ++ k ++ lit ")" →
  contains (lit "(Sw:") eng = false →
  char_in (ch "(") k = false → char_in (ch ")") k = false →
  Glossary.english_mapping U [h3]
  = {[ py_lower U (strip k)
       := (strip eng, match h3.2 with Some p => strip p | None => [] end) ]}.
Proof.
  intros Hraw Heng Hopen Hclose.
  unfold Glossary.english_mapping. cbn [fold_left]. rewrite Hraw.
  assert (contains (lit "(Sw:") (eng ++ lit "(Sw:" ++ k ++ lit ")") = true) as ->.
  { apply contains_spec. by exists eng, (k ++ lit ")"). }
  change (lit "(Sw:") with (ch "(" :: lit "Sw:").
  rewrite split_first by done. rewrite split_whole.
  2:{ apply contains_head_absent. rewrite char_in_app, Hopen. done. }
  cbn [hd nth]. unfold rstrip_chars.
  change (lit ")") with [ch ")"]. rewrite rstrip_with_snoc by done.
  rewrite rstrip_with_none.
  2:{ apply char_in_false in Hclose. eapply Forall_impl; [exact Hclose|].
      intros c Hc. unfold char_in. cbn [existsb]. by rewrite char_eqb_sym, Hc. }
  by rewrite insert_empty.
Qed.

(** X7: a term of the Swedish page whose lowercase is the lowercase of
    the Swedish word of a heading [English (Sw: svenska)] of the English
    page, the last heading with that key, gets on the back of its card,
    after the Swedish definition and two breaks, the English term in a
    styled [div] and the trimmed paragraph of the heading in a second
    one. *)
Theorem english_term_on_the_card (before after : list Glossary.heading)
    (h3 : Glossary.heading) (eng k term sw_def : str) :
  strip h3.1 = eng ++ lit "(Sw:" ++ k ++ lit ")" →
  contains (lit "(Sw:") eng = false →
  char_in (ch "(") k = false → char_in (ch ")") k = false →
  strip eng ≠ [] →
  py_lower U term = py_lower U (strip k) →
  (∀ h3', h3' ∈ after → Glossary.english_mapping U [h3'] !! py_lower U term = None) →
  Glossary.back_of U (Glossary.english_mapping U (before ++ h3 :: after)) term sw_def
  = sw_def ++ lit "<br><br>"
    ++ lit "<div style=" ++ [Glossary.dquote] ++ lit "font-size:1.2em; font-weight:bold;"
    ++ [Glossary.dquote] ++ lit ">" ++ strip eng ++ lit "</div>"
    ++ lit "<div>" ++ match h3.2 with Some p => strip p | None => [] end ++ lit "</div>".
Proof.
  intros Hraw Heng Hopen Hclose Hterm Hkey Hafter.
  unfold Glossary.back_of.
  pose proof (english_mapping_later U (before ++ [h3]) after _ Hafter) as Hlater.
  rewrite <- app_assoc in Hlater. cbn [app] in Hlater.
  rewrite Hlater, english_mapping_snoc, (english_heading_parsed h3 eng k) by done.
  rewrite Hkey, lookup_singleton_eq.
  unfold default, id, Glossary.eng_html_of.
  destruct (strip eng) as [|c t] eqn:E; [done|]. cbn [truthy].
  by rewrite <- !app_assoc.
Qed.

End EnglishCard.

(** An instance of [english_term_on_the_card]: the card of [ajournera]. *)
Lemma english_term_on_the_card_witness :
  let h3 : Glossary.heading :=
    (lit "Adjourn (Sw: Ajournera)", Some (lit " To suspend a meeting. ")) in
  strip h3.1 = lit "Adjourn " ++ lit "(Sw:" ++ lit " Ajournera" ++ lit ")"
  ∧ py_lower latin1_only (lit "ajournera") = py_lower latin1_only (strip (lit " Ajournera"))
  ∧ Glossary.back_of latin1_only (Glossary.english_mapping latin1_only ([] ++ h3 :: []))
      (lit "ajournera") (lit "Att avbryta")
    = lit "Att avbryta" ++ lit "<br><br>"
      ++ lit "<div style=" ++ [Glossary.dquote] ++ lit "font-size:1.2em; font-weight:bold;"
      ++ [Glossary.dquote] ++ lit ">" ++ strip (lit "Adjourn ") ++ lit "</div>"
      ++ lit "<div>" ++ match h3.2 with Some p => strip p | None => [] end ++ lit "</div>".
Proof.
  intros h3.
  assert (H1 : strip h3.1 = lit "Adjourn " ++ lit "(Sw:" ++ lit " Ajournera" ++ lit ")")
    by (vm_compute; reflexivity).
  assert (H2 : contains (lit "(Sw:") (lit "Adjourn ") = false) by (vm_compute; reflexivity).
  assert (H3 : char_in (ch "(") (lit " Ajournera") = false) by (vm_compute; reflexivity).
  assert (H4 : char_in (ch ")") (lit " Ajournera") = false) by (vm_compute; reflexivity).
  assert (H5 : strip (lit "Adjourn ") ≠ []) by (vm_compute; discriminate).
  assert (H6 : py_lower latin1_only (lit "ajournera")
               = py_lower latin1_only (strip (lit " Ajournera")))
    by (vm_compute; reflexivity).
  assert (H7 : ∀ h3', h3' ∈ ([] : list Glossary.heading) →
               Glossary.english_mapping latin1_only [h3']
                 !! py_lower latin1_only (lit "ajournera") = None).
  { intros h3' Hin. by apply elem_of_nil in Hin. }
  split; [exact H1|]. split; [exact H6|].
  exact (english_term_on_the_card latin1_only [] [] h3 _ _ _ (lit "Att avbryta")
           H1 H2 H3 H4 H5 H6 H7).
Defined.
